(** * El Alquimista: the OIML R 22 density engine ([lib/density.ts])

    A shallow embedding of the alcoholometry engine and the properties its
    specification states about it.

    Numbers.  The engine computes on JavaScript [number]s.  Every finite
    double is a rational, so a [number] is modelled as a canonical rational
    ([Qc]) and every arithmetic operation of the source ([+], [-], [*], [/],
    [Math.pow] at a natural exponent, comparisons) is performed exactly.
    Binary rounding error, [NaN] and the infinities are outside the model;
    the decimal rounding the engine asks for explicitly ([toFixed]) is
    modelled digit for digit.

    Two revisions of the module are embedded, because the repository carries
    both: [Density] (calculateDensity returns a number) and [DensityCF]
    (calculateDensity also returns the contraction factor, and the hydrometer
    corrector accounts for the glass expansion).  They share the tables [A]
    and [B] and differ in the cross-term table [C]. *)

From Stdlib Require Import QArith Qcanon Qcabs Qabs Qround ZArith List Bool Lia Lqa String Ascii.
Import ListNotations.

Local Open Scope Qc_scope.

(** ** Numbers *)

Definition number : Set := Qc.

(** A decimal literal of the source. *)
Definition dec (q : Q) : number := Q2Qc q.

Definition of_Z (z : Z) : number := Q2Qc (inject_Z z).

Definition ltb (x y : number) : bool :=
  match x ?= y with Lt => true | _ => false end.

Definition leb (x y : number) : bool :=
  match x ?= y with Gt => false | _ => true end.

Definition gtb (x y : number) : bool := ltb y x.
Definition geb (x y : number) : bool := leb y x.

Declare Scope num_scope.
Delimit Scope num_scope with num.
Infix "<?" := ltb (at level 70) : num_scope.
Infix "<=?" := leb (at level 70) : num_scope.
Infix ">?" := gtb (at level 70) : num_scope.
Infix ">=?" := geb (at level 70) : num_scope.
Local Open Scope num_scope.

(** [Math.floor] and [Math.round] (halves go up). *)
Definition floor (x : number) : Z := Qfloor x.
Definition Math_floor (x : number) : number := of_Z (floor x).
Definition Math_round (x : number) : number := of_Z (floor (x + dec 0.5)).

(** [Math.pow x k] for an array index [k]; [Math.pow x 0] is 1, also at 0. *)
Definition Math_pow (x : number) (k : nat) : number := x ^ k.

(** [parseFloat(x.toFixed(f))].  [toFixed] works on the magnitude and puts the
    sign back; below 10^21 it picks the integer [n] with [n / 10^f] nearest to
    the magnitude, the larger one on a tie, and prints [n] with [f] decimals;
    from 10^21 on it prints the number itself, unrounded.  Reading the decimal
    string back is exact here. *)
Definition toFixed (x : number) (f : nat) : number :=
  let neg := x <? 0 in
  let a := if neg then - x else x in
  let m := if dec 1000000000000000000000 <=? a then a
           else of_Z (floor (a * Math_pow (dec 10) f + dec 0.5)) / Math_pow (dec 10) f in
  if neg then - m else m.

(** ** The coefficient tables *)

Definition RHO_ETH_20 : number := dec 789.24.

(** Table 2: coefficients A_k (density at 20 C). *)
Definition A : list number := map dec
  [ 998.20123; -192.9769495; 389.1238958; -1668.103923; 13522.15441;
    -88292.78388; 306287.4042; -613838.1234; 747017.2998; -547846.1354;
    223446.0334; -39032.85426 ]%Q.

(** Table 3: coefficients B_k (water density temperature correction). *)
Definition B : list number := map dec
  [ 0; -0.20618513; -0.0052682542; 0.000036130013; -0.00000038957702;
    0.000000007169354; -0.000000000099739231 ]%Q.

Definition cross (i j : nat) (v : Q) : nat * nat * number := (i, j, dec v).

(** ** The engine, over a cross-term table *)

Section Engine.

(** Table 4: coefficients C_i,j (cross terms). *)
Variable C : list (nat * nat * number).

(** [for (let k = k0; k < l.length; k++) rho += l[k] * Math.pow(x, k)],
    entered with the elements from index [k0] on. *)
Fixpoint sum_pow (l : list number) (k : nat) (x rho : number) : number :=
  match l with
  | [] => rho
  | a :: l' => sum_pow l' (S k) x (rho + a * Math_pow x k)
  end.

Definition rho_p_t (p t : number) : number :=
  let dt := t - dec 20 in
  let rho := 0 in
  let rho := sum_pow A 0 p rho in
  let rho := sum_pow (tl B) 1 dt rho in
  fold_left (fun rho '(i, j, val) => rho + val * Math_pow p i * Math_pow dt j) C rho.

(** The loop of [abvToMassFraction], [n] iterations still to run. *)
Fixpoint abv_loop (n : nat) (targetV low high p : number) : number :=
  match n with
  | O => p
  | S n' =>
      let p := (low + high) / dec 2 in
      let v := (p * rho_p_t p (dec 20)) / RHO_ETH_20 in
      if v <? targetV then abv_loop n' targetV p high p
      else abv_loop n' targetV low p p
  end.

Definition abvToMassFraction (abv : number) : number :=
  if abv <=? 0 then 0
  else if abv >=? dec 100 then 1
  else abv_loop 40 (abv / dec 100) 0 1 (dec 0.5).

Definition massFractionToAbv (massFrac : number) : number :=
  let rho := rho_p_t massFrac (dec 20) in
  (massFrac * rho / RHO_ETH_20) * dec 100.

Record Dilution : Set := mkDilution {
  waterToAddG : number;
  finalMassG : number;
  ethanolMassG : number;
  sourceMassFraction : number;
  targetMassFraction : number }.

Definition calculateDilutionWater (sourceMassG sourceAbv targetAbv : number) : Dilution :=
  let p1 := abvToMassFraction sourceAbv in
  let p2 := abvToMassFraction targetAbv in
  let m2 := (sourceMassG * p1) / p2 in
  {| waterToAddG := toFixed (m2 - sourceMassG) 1;
     finalMassG := toFixed m2 1;
     ethanolMassG := toFixed (sourceMassG * p1) 2;
     sourceMassFraction := toFixed p1 4;
     targetMassFraction := toFixed p2 4 |}.

(** The loop of [getHydrometerCorrection], [n] iterations still to run;
    [goal] is the density the search compares against. *)
Fixpoint hydro_loop (n : nat) (goal tempC low high trueAbv : number) : number :=
  match n with
  | O => trueAbv
  | S n' =>
      let trueAbv := (low + high) / dec 2 in
      let rho := rho_p_t (abvToMassFraction trueAbv) tempC in
      if rho >? goal then hydro_loop n' goal tempC trueAbv high trueAbv
      else hydro_loop n' goal tempC low trueAbv trueAbv
  end.

(** What [getHydrometerCorrection] returns.  [abvRange] is the template
    string [`${abvInt}-${abvInt + 10}`], kept as its two numbers. *)
Record Correction : Set := mkCorrection {
  correction : number;
  trueAbv : number;
  abvRange : number * number;
  tempRounded : number;
  interpolated : bool }.

(** What [correctHydrometerReading] returns: the fields of [Correction]
    (the spread [...result]) and two more. *)
Record Reading : Set := mkReading {
  result : Correction;
  outsideTableRange : bool;
  tempUsed : number }.

Definition hydrometer_result (readingAbv tempC trueAbv : number) : Correction :=
  let abvInt := Math_floor (readingAbv / dec 10) * dec 10 in
  {| correction := toFixed (trueAbv - readingAbv) 1;
     trueAbv := toFixed trueAbv 1;
     abvRange := (abvInt, abvInt + dec 10);
     tempRounded := Math_round tempC;
     interpolated := true |}.

End Engine.

(** ** The range validator (the same in both revisions) *)

Inductive Warning : Set := none | caution | danger.

Record Validation : Set := mkValidation {
  isValid : bool;
  warning : Warning;
  message : string }.

Definition validateTemperature (tempC : number) : Validation :=
  if (tempC <? dec 10) || (tempC >? dec 30)
  then {| isValid := false; warning := danger;
          message := "Temperatura fuera de rango (10-30°C)" |}
  else {| isValid := true;
          warning := if (tempC <? dec 15) || (tempC >? dec 25) then caution else none;
          message := "" |}.

(** ** Revision with a scalar [calculateDensity] *)

Module Density.

Definition C : list (nat * nat * number) :=
  [ cross 1 1 0.16911721; cross 1 2 (-0.00001026186); cross 1 3 (-0.0000010859217);
    cross 1 4 (-0.000000018586393); cross 1 5 0.00000000059363544;
    cross 2 1 (-0.20369835); cross 2 2 0.0031222004; cross 2 3 (-0.00012314599);
    cross 2 4 0.000001630665; cross 2 5 (-0.000000011111394);
    cross 3 1 0.71175079; cross 3 2 (-0.013656474); cross 3 3 0.00059376345;
    cross 3 4 (-0.000008613356); cross 3 5 0.000000061058245;
    cross 4 1 (-1.2443657); cross 4 2 0.027466369; cross 4 3 (-0.001487506);
    cross 4 4 0.000024603699; cross 4 5 (-0.00000018428128);
    cross 5 1 0.89234477; cross 5 2 (-0.03588147); cross 5 3 0.0021359045;
    cross 5 4 (-0.000041698377); cross 5 5 0.00000033301956;
    cross 6 1 (-0.22211216); cross 6 2 0.023377377; cross 6 3 (-0.0017755628);
    cross 6 4 0.000040143198; cross 6 5 (-0.00000035418367) ].

Definition rho_p_t := rho_p_t C.
Definition abvToMassFraction := abvToMassFraction C.
Definition massFractionToAbv := massFractionToAbv C.
Definition calculateDilutionWater := calculateDilutionWater C.

Definition calculateDensity (abv tempC : number) : number :=
  let p := abvToMassFraction abv in
  toFixed (rho_p_t p tempC / dec 1000) 6.

Definition calculateWaterDensity (tempC : number) : number :=
  calculateDensity 0 tempC.

Definition calculateEthanolDensity (tempC : number) : number :=
  calculateDensity (dec 100) tempC.

Record Volume : Set := mkVolume { volumeMl : number; density : number }.

Definition calculateVolumeFromMass (massG abv tempC : number) : Volume :=
  let density := calculateDensity abv tempC in
  {| volumeMl := toFixed (massG / density) 2; density := density |}.

Definition calculateEthanolMass (volumeMl abv tempC : number) : number :=
  let density := calculateDensity abv tempC in
  let massFrac := abvToMassFraction abv in
  toFixed (volumeMl * density * massFrac) 2.

Definition getHydrometerCorrection (readingAbv tempC : number) : Correction :=
  let targetRho := rho_p_t (abvToMassFraction readingAbv) (dec 20) in
  let trueAbv := hydro_loop C 30 targetRho tempC 0 (dec 100) (dec 50) in
  hydrometer_result readingAbv tempC trueAbv.

Definition correctHydrometerReading (readingAbv tempC : number) : Reading :=
  let result := getHydrometerCorrection readingAbv tempC in
  {| result := result;
     outsideTableRange := (tempC <? dec 10) || (tempC >? dec 30);
     tempUsed := tempRounded result |}.

End Density.

(** ** Revision with the contraction factor *)

Module DensityCF.

Definition C : list (nat * nat * number) :=
  [ cross 1 1 (-1.161156); cross 2 1 1.35032; cross 3 1 (-2.16274);
    cross 4 1 3.65593; cross 5 1 (-4.13781); cross 6 1 1.7611;
    cross 1 2 0.01017; cross 2 2 (-0.038437); cross 3 2 0.089056;
    cross 4 2 (-0.147321); cross 5 2 0.146237; cross 6 2 (-0.060122);
    cross 1 3 0.00018844; cross 2 3 0.00052018; cross 3 3 (-0.0035042);
    cross 4 3 0.0076163; cross 5 3 (-0.0083697); cross 6 3 0.0035687;
    cross 1 4 (-0.000020673); cross 2 4 0.000085273; cross 3 4 (-0.00019806);
    cross 4 4 0.00039634; cross 5 4 (-0.00043168); cross 6 4 0.00020002;
    cross 1 5 0.000000134; cross 2 5 (-0.00000134); cross 3 5 0.00000522;
    cross 4 5 (-0.00000939); cross 5 5 0.00000796; cross 6 5 (-0.00000258) ].

Definition rho_p_t := rho_p_t C.
Definition abvToMassFraction := abvToMassFraction C.
Definition massFractionToAbv := massFractionToAbv C.
Definition calculateDilutionWater := calculateDilutionWater C.

Record DensityResult : Set := mkDensityResult {
  density : number;
  contractionFactor : number }.

Definition calculateDensity (abv tempC : number) : DensityResult :=
  let p := abvToMassFraction abv in
  let rho := rho_p_t p tempC / dec 1000 in
  let rho_eth := rho_p_t 1 tempC / dec 1000 in
  let rho_wat := rho_p_t 0 tempC / dec 1000 in
  let v_eth := p / rho_eth in
  let v_wat := (1 - p) / rho_wat in
  let v_mix := 1 / rho in
  let contractionFactor := (v_eth + v_wat) / v_mix in
  {| density := toFixed rho 6;
     contractionFactor := toFixed contractionFactor 6 |}.

Definition calculateWaterDensity (tempC : number) : number :=
  density (calculateDensity 0 tempC).

Definition calculateEthanolDensity (tempC : number) : number :=
  density (calculateDensity (dec 100) tempC).

Record Volume : Set := mkVolume {
  volumeMl : number;
  vdensity : number;
  vcontractionFactor : number }.

Definition calculateVolumeFromMass (massG abv tempC : number) : Volume :=
  let r := calculateDensity abv tempC in
  {| volumeMl := toFixed (massG / density r) 2;
     vdensity := density r;
     vcontractionFactor := contractionFactor r |}.

Definition calculateEthanolMass (volumeMl abv tempC : number) : number :=
  let r := calculateDensity abv tempC in
  let massFrac := abvToMassFraction abv in
  toFixed (volumeMl * density r * massFrac) 2.

Definition ALPHA : number := dec 0.000025.

Definition getHydrometerCorrection (readingAbv tempC : number) : Correction :=
  let targetRho := rho_p_t (abvToMassFraction readingAbv) (dec 20) in
  let correctedRho := targetRho / (1 - ALPHA * (tempC - dec 20)) in
  let trueAbv := hydro_loop C 30 correctedRho tempC 0 (dec 100) (dec 50) in
  hydrometer_result readingAbv tempC trueAbv.

Definition correctHydrometerReading (readingAbv tempC : number) : Reading :=
  let result := getHydrometerCorrection readingAbv tempC in
  {| result := result;
     outsideTableRange := (tempC <? dec 10) || (tempC >? dec 30);
     tempUsed := tempRounded result |}.

End DensityCF.

(** [x] has at most [f] decimals. *)
Definition decimals (f : nat) (x : number) : Prop :=
  exists n : Z, x * Math_pow (dec 10) f = of_Z n.

(** * The table revision of the module: closed formulas and a correction table

    The repository also carries the revision of [lib/density.ts] that came
    before the polynomial model: water and ethanol densities by closed
    formulas, a linear mixing rule with a contraction penalty, and a
    hydrometer corrector that reads a table.  Same conventions as above; an
    array or table access that finds nothing is [undefined] in the source and
    [None] here. *)

(** [===] on numbers, [Math.max], [Math.min], [Math.ceil], [Math.abs]. *)
Definition eqb (x y : number) : bool := Qc_eq_bool x y.
Definition Math_max (x y : number) : number := if x <? y then y else x.
Definition Math_min (x y : number) : number := if y <? x then y else x.
Definition Math_ceil (x : number) : number := of_Z (Qceiling x).
Definition Math_abs (x : number) : number := Qcabs x.

Module DensityTable.

Definition RHO_ETHANOL_20 : number := dec 0.78924.
Definition RHO_WATER_20 : number := dec 0.9982.

Definition calculateWaterDensity (tempC : number) : number :=
  let density :=
    (dec 0.999965 + dec 0.0003974 * tempC - dec 0.000005424 * Math_pow tempC 2
     + dec 0.00000003308 * Math_pow tempC 3)
    / (1 + dec 0.01688 * tempC) in
  density.

Definition calculateEthanolDensity (tempC : number) : number :=
  dec 0.792344 - dec 0.000725 * tempC - dec 0.000002 * Math_pow tempC 2.

Definition abvToMassFraction (abv : number) : number :=
  let volFrac := abv / dec 100 in
  let massFrac :=
    (volFrac * RHO_ETHANOL_20)
    / (volFrac * RHO_ETHANOL_20 + (1 - volFrac) * RHO_WATER_20) in
  massFrac.

Definition massFractionToAbv (massFrac : number) : number :=
  let numerator := massFrac * RHO_WATER_20 in
  let denominator :=
    RHO_ETHANOL_20 - massFrac * RHO_ETHANOL_20 + massFrac * RHO_WATER_20 in
  let volFrac := numerator / denominator in
  volFrac * dec 100.

Definition calculateDensity (abv tempC : number) : number :=
  let densityWater := calculateWaterDensity tempC in
  if abv <=? 0 then densityWater
  else
    let densityEthanol := calculateEthanolDensity tempC in
    if abv >=? dec 100 then densityEthanol
    else
      let massFrac := abvToMassFraction abv in
      let contractionPenalty :=
        massFrac * (1 - massFrac)
        * (dec 0.0025 + (dec 0.0005 * Math_abs (dec 20 - tempC)) / dec 10) in
      let mixtureDensity :=
        densityWater - massFrac * (densityWater - densityEthanol)
        - contractionPenalty in
      toFixed mixtureDensity 4.

Record Volume : Set := mkVolume { volumeMl : number; density : number }.

Definition calculateVolumeFromMass (massG abv tempC : number) : Volume :=
  let density := calculateDensity abv tempC in
  let volumeMl := massG / density in
  {| volumeMl := toFixed volumeMl 2; density := density |}.

Definition calculateEthanolMass (volumeMl abv tempC : number) : number :=
  let density := calculateDensity abv tempC in
  let totalMass := volumeMl * density in
  let massFrac := abvToMassFraction abv in
  toFixed (totalMass * massFrac) 2.

Definition calculateDilutionWater (sourceMassG sourceAbv targetAbv : number) : Dilution :=
  let sourceMassFraction := abvToMassFraction sourceAbv in
  let ethanolMassG := sourceMassG * sourceMassFraction in
  let targetMassFraction := abvToMassFraction targetAbv in
  let finalMassG := ethanolMassG / targetMassFraction in
  let waterToAddG := finalMassG - sourceMassG in
  {| waterToAddG := toFixed waterToAddG 1;
     finalMassG := toFixed finalMassG 1;
     ethanolMassG := toFixed ethanolMassG 2;
     sourceMassFraction := toFixed sourceMassFraction 4;
     targetMassFraction := toFixed targetMassFraction 4 |}.

(** ABV ranges of the correction table: [min, max, label]. *)
Definition ABV_RANGES : list (number * number * string) :=
  [ (dec 0, dec 10, "0-10"%string);
    (dec 10.1, dec 20, "10-20"%string);
    (dec 20.1, dec 30, "20-30"%string);
    (dec 30.1, dec 40, "30-40"%string);
    (dec 40.1, dec 50, "40-50"%string);
    (dec 50.1, dec 60, "50-60"%string);
    (dec 60.1, dec 70, "60-70"%string);
    (dec 70.1, dec 80, "70-80"%string);
    (dec 80.1, dec 90, "80-90"%string);
    (dec 90.1, dec 100, "90-100"%string) ].

Definition CORRECTION_TABLE : list (number * list number) :=
  [ (dec 10, map dec [0.6; 0.6; 0.7; 0.8; 0.9; 1.0; 1.1; 1.2; 1.3; 1.4]%Q);
    (dec 11, map dec [0.5; 0.5; 0.6; 0.7; 0.8; 0.9; 1.0; 1.0; 1.1; 1.2]%Q);
    (dec 12, map dec [0.5; 0.5; 0.5; 0.6; 0.7; 0.8; 0.8; 0.9; 1.0; 1.1]%Q);
    (dec 13, map dec [0.4; 0.4; 0.5; 0.5; 0.6; 0.7; 0.7; 0.8; 0.9; 0.9]%Q);
    (dec 14, map dec [0.3; 0.4; 0.4; 0.5; 0.5; 0.6; 0.6; 0.7; 0.7; 0.8]%Q);
    (dec 15, map dec [0.3; 0.3; 0.3; 0.4; 0.4; 0.5; 0.5; 0.6; 0.6; 0.7]%Q);
    (dec 16, map dec [0.2; 0.2; 0.3; 0.3; 0.4; 0.4; 0.4; 0.5; 0.5; 0.5]%Q);
    (dec 17, map dec [0.2; 0.2; 0.2; 0.2; 0.3; 0.3; 0.3; 0.3; 0.4; 0.4]%Q);
    (dec 18, map dec [0.1; 0.1; 0.1; 0.2; 0.2; 0.2; 0.2; 0.2; 0.3; 0.3]%Q);
    (dec 19, map dec [0.1; 0.1; 0.1; 0.1; 0.1; 0.1; 0.1; 0.1; 0.1; 0.1]%Q);
    (dec 20, map dec [0; 0; 0; 0; 0; 0; 0; 0; 0; 0]%Q);
    (dec 21, map dec [(-0.1); (-0.1); (-0.1); (-0.1); (-0.1); (-0.1); (-0.1); (-0.1); (-0.2); (-0.2)]%Q);
    (dec 22, map dec [(-0.2); (-0.2); (-0.2); (-0.2); (-0.2); (-0.2); (-0.3); (-0.3); (-0.3); (-0.3)]%Q);
    (dec 23, map dec [(-0.2); (-0.2); (-0.3); (-0.3); (-0.3); (-0.4); (-0.4); (-0.4); (-0.5); (-0.5)]%Q);
    (dec 24, map dec [(-0.3); (-0.3); (-0.3); (-0.4); (-0.4); (-0.5); (-0.5); (-0.5); (-0.6); (-0.6)]%Q);
    (dec 25, map dec [(-0.3); (-0.4); (-0.4); (-0.5); (-0.5); (-0.6); (-0.6); (-0.7); (-0.7); (-0.8)]%Q);
    (dec 26, map dec [(-0.4); (-0.4); (-0.5); (-0.5); (-0.6); (-0.7); (-0.7); (-0.8); (-0.9); (-0.9)]%Q);
    (dec 27, map dec [(-0.4); (-0.5); (-0.5); (-0.6); (-0.7); (-0.8); (-0.8); (-0.9); (-1.0); (-1.1)]%Q);
    (dec 28, map dec [(-0.5); (-0.5); (-0.6); (-0.7); (-0.8); (-0.9); (-1.0); (-1.0); (-1.1); (-1.2)]%Q);
    (dec 29, map dec [(-0.5); (-0.6); (-0.7); (-0.8); (-0.9); (-1.0); (-1.1); (-1.2); (-1.3); (-1.4)]%Q);
    (dec 30, map dec [(-0.6); (-0.6); (-0.7); (-0.8); (-1.0); (-1.1); (-1.2); (-1.3); (-1.4); (-1.5)]%Q) ].

(** [CORRECTION_TABLE[t]]: the row whose key is the number [t]. *)
Definition table_row (t : number) : option (list number) :=
  option_map snd (find (fun row => eqb (fst row) t) CORRECTION_TABLE).

(** The loop of [getAbvRangeIndex], entered at index [i] with the ranges
    from [i] on: the index of the first range that holds [abv]. *)
Fixpoint range_loop (l : list (number * number * string)) (i : nat) (abv : number)
    : option nat :=
  match l with
  | [] => None
  | (min, max, _) :: l' =>
      if (abv >=? min) && (abv <=? max) then Some i else range_loop l' (S i) abv
  end.

Definition getAbvRangeIndex (abv : number) : nat :=
  match range_loop ABV_RANGES 0 abv with
  | Some i => i
  | None => List.length ABV_RANGES - 1
  end.

Record Correction : Set := mkCorrection {
  correction : number;
  trueAbv : number;
  abvRange : string;
  tempRounded : number;
  interpolated : bool }.

(** [None] stands for the two ways the source can leave the numbers: an
    exception at [ABV_RANGES[rangeIndex][2]] and arithmetic on an
    [undefined] table entry. *)
Definition getHydrometerCorrection (readingAbv tempC : number) : option Correction :=
  let rangeIndex := getAbvRangeIndex readingAbv in
  match nth_error ABV_RANGES rangeIndex with
  | None => None
  | Some (_, _, abvRange) =>
      let tempClamped := Math_max (dec 10) (Math_min (dec 30) tempC) in
      let tempLow := Math_floor tempClamped in
      let tempHigh := Math_ceil tempClamped in
      let found :=
        match eqb tempLow tempHigh, table_row tempLow, table_row tempHigh with
        | false, Some rowLow, Some rowHigh =>
            match nth_error rowLow rangeIndex, nth_error rowHigh rangeIndex with
            | Some corrLow, Some corrHigh =>
                let fraction := tempClamped - tempLow in
                Some (corrLow + (corrHigh - corrLow) * fraction, true)
            | _, _ => None
            end
        | _, _, _ =>
            let nearestTemp := Math_round tempClamped in
            Some (match table_row nearestTemp with
                  | Some row => match nth_error row rangeIndex with
                                | Some c => c
                                | None => 0
                                end
                  | None => 0
                  end, false)
        end in
      match found with
      | None => None
      | Some (correction, interpolated) =>
          let correction := Math_round (correction * dec 10) / dec 10 in
          let trueAbv := Math_round ((readingAbv + correction) * dec 10) / dec 10 in
          Some {| correction := correction;
                  trueAbv := trueAbv;
                  abvRange := abvRange;
                  tempRounded := Math_round tempClamped;
                  interpolated := interpolated |}
      end
  end.

Record Reading : Set := mkReading {
  r_trueAbv : number;
  r_correction : number;
  r_abvRange : string;
  tempUsed : number;
  r_interpolated : bool;
  outsideTableRange : bool }.

Definition correctHydrometerReading (readingAbv tempC : number) : option Reading :=
  let outsideTableRange := (tempC <? dec 10) || (tempC >? dec 30) in
  match getHydrometerCorrection readingAbv tempC with
  | None => None
  | Some result =>
      Some {| r_trueAbv := trueAbv result;
              r_correction := correction result;
              r_abvRange := abvRange result;
              tempUsed := tempRounded result;
              r_interpolated := interpolated result;
              outsideTableRange := outsideTableRange |}
  end.

Definition validateTemperature (tempC : number) : Validation :=
  if (tempC <? dec 10) || (tempC >? dec 30)
  then {| isValid := false; warning := danger;
          message := "Temperatura fuera de rango seguro (10-30°C)" |}
  else if (tempC <? dec 15) || (tempC >? dec 25)
  then {| isValid := true; warning := caution;
          message := "Temperatura alejada del estándar (20°C)" |}
  else {| isValid := true; warning := none; message := "" |}.

End DensityTable.

(** * The state of the page in the URL fragment ([app/page.tsx])

    The page keeps the inputs of its four calculators as strings and writes
    them to the URL fragment, joined by [~]; on load it reads them back.
    Strings are [string]s; [parts[i]] past the end of the array is
    [undefined] in the source and [None] here. *)

Module Page.

Record AppState : Set := mkAppState {
  module : string;
  temp : string;
  weighing_targetMl : string;
  weighing_abv : string;
  dilution_sourceMass : string;
  dilution_sourceAbv : string;
  dilution_targetAbv : string;
  hydrometer_readingAbv : string;
  volume_mass : string;
  volume_abv : string }.

Definition DEFAULT_STATE : AppState :=
  {| module := "weighing";
     temp := "20";
     weighing_targetMl := EmptyString;
     weighing_abv := "96";
     dilution_sourceMass := EmptyString;
     dilution_sourceAbv := "96";
     dilution_targetAbv := "60";
     hydrometer_readingAbv := "80";
     volume_mass := EmptyString;
     volume_abv := EmptyString |}%string.

(** [s || d] on strings: the empty string is falsy. *)
Definition or_else (s d : string) : string :=
  if String.eqb s EmptyString then d else s.

(** [parts.join(sep)]. *)
Definition join (sep : string) (parts : list string) : string :=
  String.concat sep parts.

(** [s.replace(c, '')] for a one-character pattern: the first occurrence
    is removed. *)
Fixpoint replace_first (c : ascii) (s : string) : string :=
  match s with
  | EmptyString => EmptyString
  | String a s' => if Ascii.eqb a c then s' else String a (replace_first c s')
  end.

(** [s.split(c)] for a one-character separator.  The array it returns is
    never empty: the last branch is not reached. *)
Fixpoint split (c : ascii) (s : string) : list string :=
  match s with
  | EmptyString => [EmptyString]
  | String a s' =>
      if Ascii.eqb a c then EmptyString :: split c s'
      else
        match split c s' with
        | p :: ps => String a p :: ps
        | [] => [String a EmptyString]
        end
  end.

Definition encodeState (state : AppState) : string :=
  let parts := [module state; temp state] in
  let parts := (parts ++ [or_else (weighing_targetMl state) "_";
                          or_else (weighing_abv state) "_"])%list in
  let parts := (parts ++ [or_else (dilution_sourceMass state) "_";
                          or_else (dilution_sourceAbv state) "_";
                          or_else (dilution_targetAbv state) "_"])%list in
  let parts := (parts ++ [or_else (hydrometer_readingAbv state) "_"])%list in
  let parts := (parts ++ [or_else (volume_mass state) "_";
                          or_else (volume_abv state) "_"])%list in
  join "~" parts.

Definition decodeState (hash : string) : AppState :=
  if String.eqb hash EmptyString || String.eqb hash "#" then DEFAULT_STATE
  else
    let parts := split "~" (replace_first "#" hash) in
    let get (i : nat) (def : string) : string :=
      match nth_error parts i with
      | Some p =>
          if negb (String.eqb p EmptyString) && negb (String.eqb p "_")
          then p else def
      | None => def
      end in
    {| module := or_else (get 0%nat "weighing"%string) "weighing";
       temp := get 1%nat "20"%string;
       weighing_targetMl := get 2%nat EmptyString;
       weighing_abv := get 3%nat "96"%string;
       dilution_sourceMass := get 4%nat EmptyString;
       dilution_sourceAbv := get 5%nat "96"%string;
       dilution_targetAbv := get 6%nat "60"%string;
       hydrometer_readingAbv := get 7%nat "80"%string;
       volume_mass := get 8%nat EmptyString;
       volume_abv := get 9%nat EmptyString |}.

(** What the page writes to the address bar for a state. *)
Definition newHash (state : AppState) : string :=
  ("#" ++ encodeState state)%string.

End Page.

(** [c] occurs in [s]. *)
Fixpoint occurs (c : ascii) (s : string) : bool :=
  match s with
  | EmptyString => false
  | String a s' => Ascii.eqb a c || occurs c s'
  end.

(** The ten strings of a state, in the order of the fragment, and the six of
    them whose default is not the empty string. *)
Definition fields (s : Page.AppState) : list string :=
  [Page.module s; Page.temp s; Page.weighing_targetMl s; Page.weighing_abv s;
   Page.dilution_sourceMass s; Page.dilution_sourceAbv s; Page.dilution_targetAbv s;
   Page.hydrometer_readingAbv s; Page.volume_mass s; Page.volume_abv s].

Definition defaulted (s : Page.AppState) : list string :=
  [Page.module s; Page.temp s; Page.weighing_abv s;
   Page.dilution_sourceAbv s; Page.dilution_targetAbv s; Page.hydrometer_readingAbv s].

(** What a field comes back as: itself, or the default [d] when it is empty
    or the placeholder [_]. *)
Definition restored (f d : string) : string :=
  if String.eqb f EmptyString || String.eqb f "_" then d else f.

(** Two states of a session: one with every defaulted field filled, one with
    the temperature and the weighing ABV cleared. *)
Definition filled_session : Page.AppState :=
  {| Page.module := "dilution"; Page.temp := "18.5";
     Page.weighing_targetMl := EmptyString; Page.weighing_abv := "96";
     Page.dilution_sourceMass := "1000"; Page.dilution_sourceAbv := "96";
     Page.dilution_targetAbv := "40"; Page.hydrometer_readingAbv := "80";
     Page.volume_mass := EmptyString; Page.volume_abv := EmptyString |}%string.

Definition cleared_session : Page.AppState :=
  {| Page.module := "weighing"; Page.temp := EmptyString;
     Page.weighing_targetMl := "250"; Page.weighing_abv := EmptyString;
     Page.dilution_sourceMass := EmptyString; Page.dilution_sourceAbv := "96";
     Page.dilution_targetAbv := "60"; Page.hydrometer_readingAbv := "80";
     Page.volume_mass := EmptyString; Page.volume_abv := EmptyString |}%string.

Local Close Scope num_scope.
Local Close Scope Qc_scope.
Local Open Scope Q_scope.
(** ** Polynomials over [Q], for the proofs *)

(** Natural powers on [Q], the image of [Math_pow]. *)
Fixpoint Qpow (x : Q) (n : nat) : Q :=
  match n with
  | O => 1
  | S n' => x * Qpow x n'
  end.

(** A polynomial is the list of its coefficients, constant term first. *)
Definition poly : Set := list Q.

Fixpoint peval (l : poly) (x : Q) : Q :=
  match l with
  | [] => 0
  | a :: l' => a + x * peval l' x
  end.

Fixpoint padd (a b : poly) : poly :=
  match a, b with
  | [], _ => b
  | _, [] => a
  | x :: a', y :: b' => Qred (x + y) :: padd a' b'
  end.

Definition pscale (c : Q) (a : poly) : poly := map (fun x => Qred (c * x)) a.

Definition pneg (a : poly) : poly := map Qopp a.

(** [shift l c] is [l] re-centred at [c]: its value at [s] is the value of
    [l] at [c + s]. *)
Fixpoint shift (l : poly) (c : Q) : poly :=
  match l with
  | [] => []
  | a :: l' => let q := shift l' c in padd [a] (padd (pscale c q) (0 :: q))
  end.

(** The difference quotient of [l] between [u] and [w]:
    [peval l w - peval l u = (w - u) * dquot l u w]. *)
Fixpoint dquot (l : poly) (u w : Q) : Q :=
  match l with
  | [] => 0
  | _ :: l' => peval l' w + u * dquot l' u w
  end.

(** A bound of [|peval l x|] for [|x| <= r]. *)
Fixpoint pabs (l : poly) (r : Q) : Q :=
  match l with
  | [] => 0
  | a :: l' => Qred (Qabs a + r * pabs l' r)
  end.

(** A bound of [|dquot l u w|] for [|u|, |w| <= r]. *)
Fixpoint dqabs (l : poly) (r : Q) : Q :=
  match l with
  | [] => 0
  | _ :: l' => Qred (pabs l' r + r * dqabs l' r)
  end.

(** The spread of the difference quotient around the linear coefficient. *)
Definition slope_err (l : poly) (r : Q) : Q :=
  match l with
  | _ :: _ :: l'' => r * (pabs l'' r + dqabs (tl l) r)
  | _ => 0
  end.

Definition slope_mid (l : poly) : Q :=
  match l with
  | _ :: a1 :: _ => a1
  | _ => 0
  end.

(** An upper bound of the difference quotient of [l], re-centred, over
    [-r, r]. *)
Definition slope_ub (l : poly) (r : Q) : Q := slope_mid l + slope_err l r.

(** The difference quotient of [f] over [a, b] is at most [U]. *)
Definition slope_le (f : Q -> Q) (U a b : Q) : Prop :=
  forall x y : Q, a <= x -> x <= y -> y <= b -> f y - f x <= U * (y - x).

(** Consecutive breakpoints [a :: b :: ...] cut an interval into cells;
    [cells_all chk bs] runs [chk] on every cell. *)
Fixpoint cells_all (chk : Q -> Q -> bool) (bs : list Q) : bool :=
  match bs with
  | a :: bs' =>
      match bs' with
      | b :: _ => Qle_bool a b && chk a b && cells_all chk bs'
      | [] => true
      end
  | [] => true
  end.

(** [n + 1] equally spaced breakpoints from [a], [w] apart. *)
Fixpoint grid (a w : Q) (n : nat) : list Q :=
  match n with
  | O => [a]
  | S n' => a :: grid (Qred (a + w)) w n'
  end.

(** The slope of [l] is at most [U] on the cell [a, b], by re-centring at the
    middle of the cell. *)
Definition cell_slope_le (l : poly) (U a b : Q) : bool :=
  Qle_bool (slope_ub (shift l (Qred ((a + b) / 2))) (Qred ((b - a) / 2))) U.

Definition check_slope_le (l : poly) (U : Q) (bs : list Q) : bool :=
  cells_all (cell_slope_le l U) bs.

(** ** Integer coordinates

    The checks run on polynomials with integer coefficients and on cells
    with integer centres: the variable is stretched ([x = k * x']) and the
    polynomial is multiplied by a constant [sg] that clears the
    denominators.  Nothing depends on the coefficients being integers but
    the cost of the arithmetic. *)

(** [pdil l k] is [l] with its variable stretched: its value at [x] is the
    value of [l] at [k * x]. *)
Fixpoint pdil (l : poly) (k : Q) : poly :=
  match l with
  | [] => []
  | a :: l' => a :: pscale k (pdil l' k)
  end.

Definition scale1 (l : poly) (k sg : Q) : poly := pscale sg (pdil l k).

Definition check_slope_scaled (l : poly) (U k sg : Q) (bs : list Q) : bool :=
  check_slope_le (scale1 l k sg) (Qred (U * k * sg)) bs.

(** Ten to the eighteenth: every coefficient of the tables has at most
    eighteen decimals. *)
Definition ten18 : Q := 1000000000000000000.

(** Mass fractions in sixteenths: eight cells on [0, 16], and the scale
    that makes the coefficients integers. *)
Definition p_cells_8 : list Q := grid 0 2 8.
Definition sg_univariate : Q := ten18 * 17592186044416.

(** ** The density polynomial over [Q] *)

Definition A_Q : poly := map this A.
Definition B_Q : poly := map this B.

(** [v(p) = p * rho(p, 20) / RHO_ETH_20], the volume fraction that
    [abvToMassFraction] inverts and [massFractionToAbv] computes. *)
Definition V_Q : poly := pscale (/ this RHO_ETH_20) (0 :: A_Q).

(** The cross terms as the source sums them. *)
Fixpoint cross_Q (C : list (nat * nat * number)) (p dt : Q) : Q :=
  match C with
  | [] => 0
  | (i, j, val) :: C' => this val * Qpow p i * Qpow dt j + cross_Q C' p dt
  end.

(** No cross term is constant in the temperature. *)
Definition cross_ok (C : list (nat * nat * number)) : bool :=
  forallb (fun '(_, j, _) => negb (Nat.eqb j 0)) C.

(** The volume fraction the code computes for a mass fraction: the quantity
    compared in the loop of [abvToMassFraction], and [massFractionToAbv]
    before its factor 100. *)
Definition vol (C : list (nat * nat * number)) (p : number) : number :=
  ((p * rho_p_t C p (dec 20)) / RHO_ETH_20)%Qc.
(** ** Polynomials in two variables, for the proofs *)

(** A polynomial in [x] and [y], as the list of its coefficients in [x],
    each a polynomial in [y]. *)
Definition poly2 : Set := list poly.

Fixpoint eval2 (M : poly2) (x y : Q) : Q :=
  match M with
  | [] => 0
  | row :: M' => peval row y + x * eval2 M' x y
  end.

(** The coefficients in [x], at a given [y]. *)
Definition coeffs (M : poly2) (y : Q) : poly := map (fun row => peval row y) M.

Fixpoint padd2 (a b : poly2) : poly2 :=
  match a, b with
  | [], _ => b
  | _, [] => a
  | r :: a', s :: b' => padd r s :: padd2 a' b'
  end.

Definition pscale2 (c : Q) (a : poly2) : poly2 := map (pscale c) a.

(** Re-centring in [x], then in both variables. *)
Fixpoint shiftx (M : poly2) (c : Q) : poly2 :=
  match M with
  | [] => []
  | row :: M' => let q := shiftx M' c in padd2 [row] (padd2 (pscale2 c q) ([] :: q))
  end.

Definition shift2 (M : poly2) (c d : Q) : poly2 :=
  shiftx (map (fun row => shift row d) M) c.

(** Bounds of the coefficients in [x] for [|y| <= dl]. *)
Definition rows_abs (T : poly2) (dl : Q) : poly := map (fun row => pabs row dl) T.

(** An upper bound of the difference quotient in [x] of a re-centred
    polynomial, for [|x| <= r] and [|y| <= dl]. *)
Definition slope2_ub (T : poly2) (r dl : Q) : Q :=
  match T with
  | _ :: row1 :: _ => hd 0 row1 + dl * pabs (tl row1) dl + slope_err (rows_abs T dl) r
  | _ => 0
  end.

(** The value of a re-centred polynomial at the centre, and how far it moves
    for [|x| <= r] and [|y| <= dl]. *)
Definition val2_mid (T : poly2) : Q := hd 0 (hd [] T).

Definition val2_err (T : poly2) (r dl : Q) : Q :=
  match T with
  | [] => 0
  | row0 :: T' => dl * pabs (tl row0) dl + r * pabs (rows_abs T' dl) r
  end.

Definition mid (a b : Q) : Q := Qred ((a + b) / 2).
Definition rad (a b : Q) : Q := Qred ((b - a) / 2).

(** The slope in [x] of [M] is at most [U] on the cell [a, b] x [ylo, yhi]. *)
Definition cell2_slope_le (M : poly2) (U ylo yhi a b : Q) : bool :=
  Qle_bool (slope2_ub (shift2 M (mid a b) (mid ylo yhi)) (rad a b) (rad ylo yhi)) U.

Definition check2_slope_le (M : poly2) (U : Q) (bs cs : list Q) : bool :=
  cells_all (fun ylo yhi => cells_all (cell2_slope_le M U ylo yhi) bs) cs.

(** The monomial [v * x^i * y^j]. *)
Definition mono2 (i j : nat) (v : Q) : poly2 :=
  repeat [] i ++ [repeat 0 j ++ [v]].

(** The density polynomial with the mass fraction as first variable and the
    temperature offset as second, and the other way round. *)
Definition rho_P (C : list (nat * nat * number)) : poly2 :=
  fold_right (fun '(i, j, val) M => padd2 (mono2 i j (this val)) M)
    ((hd 0 A_Q :: tl B_Q) :: map (fun a => [a]) (tl A_Q)) C.

Definition rho_T (C : list (nat * nat * number)) : poly2 :=
  fold_right (fun '(i, j, val) M => padd2 (mono2 j i (this val)) M)
    (A_Q :: map (fun b => [b]) (tl B_Q)) C.

(** Sum of the rows, and the quotient by [1 - x] of the difference between
    the value at [x = 1] and the polynomial. *)
Fixpoint rows_sum (M : poly2) : poly :=
  match M with
  | [] => []
  | row :: M' => padd row (rows_sum M')
  end.

Fixpoint quot1 (M : poly2) : poly2 :=
  match M with
  | [] => []
  | _ :: M' => rows_sum M' :: quot1 M'
  end.

(** ** The contraction of the mixture

    With [rho0] and [rho1] the densities of water and ethanol at the
    temperature, [rho = rho0 + p * S], [S1 = rho1 - rho0] and
    [S1 - S = (1 - p) * D], the excess of the contraction factor over 1 is
    [p * (1 - p) * (S * S1 - rho0 * D) / (rho0 * rho1)]. *)

Definition S_P (C : list (nat * nat * number)) : poly2 := tl (rho_P C).
Definition D_P (C : list (nat * nat * number)) : poly2 := quot1 (S_P C).
Definition rho0_P (C : list (nat * nat * number)) : poly := hd [] (rho_P C).
Definition S1_P (C : list (nat * nat * number)) : poly := rows_sum (S_P C).

(** A closed interval, and the few operations the check needs. *)
Definition itv : Set := (Q * Q)%type.

Definition itv_around (m e : Q) : itv := (Qred (m - e), Qred (m + e)).

Definition itv2 (M : poly2) (ylo yhi a b : Q) : itv :=
  let T := shift2 M (mid a b) (mid ylo yhi) in
  itv_around (val2_mid T) (val2_err T (rad a b) (rad ylo yhi)).

Definition itv1 (l : poly) (ylo yhi : Q) : itv :=
  let T := shift l (mid ylo yhi) in
  itv_around (hd 0 T) (rad ylo yhi * pabs (tl T) (rad ylo yhi)).

Definition pospart (x : Q) : Q := if Qle_bool 0 x then x else 0.

(** ** Integer coordinates, in two variables *)

Fixpoint dilx (M : poly2) (k : Q) : poly2 :=
  match M with
  | [] => []
  | row :: M' => row :: pscale2 k (dilx M' k)
  end.

Definition scale2 (M : poly2) (kx ky sg : Q) : poly2 :=
  pscale2 sg (dilx (map (fun row => pdil row ky) M) kx).

(** The check of the slope in stretched coordinates. *)
Definition check2_slope_scaled (M : poly2) (U kx ky sg : Q) (bs cs : list Q) : bool :=
  check2_slope_le (scale2 M kx ky sg) (Qred (U * kx * sg)) bs cs.

Definition itv_div (i : itv) (sg : Q) : itv := (fst i / sg, snd i / sg).

(** The scale of the contraction check: mass fractions in sixteenths,
    temperature offsets in degrees. *)
Definition sg_contraction : Q := ten18 * 1099511627776.

(** On a cell of temperature offsets (in degrees): [S1 = rho1 - rho0] is
    negative, the density of water [rho0] lies in [988, 1001] and that of
    ethanol [rho1] in [764, 837].  [S1z] and [r0z] are [S1] and [rho0]
    times [ten18]. *)
Definition cell_ends (S1z r0z : poly) (ylo yhi : Q) : bool :=
  let '(S1lo, S1hi) := itv_div (itv1 S1z ylo yhi) ten18 in
  let '(r0lo, r0hi) := itv_div (itv1 r0z ylo yhi) ten18 in
  Qle_bool S1hi 0 &&
  Qle_bool 988 r0lo && Qle_bool r0hi 1001 &&
  Qle_bool 764 (r0lo + S1lo) && Qle_bool (r0hi + S1hi) 837.

Definition check_ends (C : list (nat * nat * number)) (cs : list Q) : bool :=
  let S1z := scale1 (S1_P C) 1 ten18 in
  let r0z := scale1 (rho0_P C) 1 ten18 in
  cells_all (cell_ends S1z r0z) cs.

(** On a cell (in sixteenths of mass fraction and degrees of offset): the
    ends are as above, [S] is negative and [S * S1 - rho0 * D] is at least
    [K].  [Sz] and [Dz] are [S] and [D] in sixteenths, times
    [sg_contraction]. *)
Definition cell_contraction (Sz Dz : poly2) (S1z r0z : poly) (K ylo yhi a b : Q) : bool :=
  let '(_, Shi) := itv_div (itv2 Sz ylo yhi a b) sg_contraction in
  let '(_, Dhi) := itv_div (itv2 Dz ylo yhi a b) sg_contraction in
  let '(_, S1hi) := itv_div (itv1 S1z ylo yhi) ten18 in
  cell_ends S1z r0z ylo yhi &&
  Qle_bool Shi 0 &&
  Qle_bool (K + 1001 * pospart Dhi) (Shi * S1hi).

Definition check_contraction (C : list (nat * nat * number)) (K : Q) (bs cs : list Q) : bool :=
  let Sz := scale2 (S_P C) (1 # 16) 1 sg_contraction in
  let Dz := scale2 (D_P C) (1 # 16) 1 sg_contraction in
  let S1z := scale1 (S1_P C) 1 ten18 in
  let r0z := scale1 (rho0_P C) 1 ten18 in
  cells_all (fun ylo yhi => cells_all (cell_contraction Sz Dz S1z r0z K ylo yhi) bs) cs.

(** The grids of the checks, in stretched coordinates: mass fractions in
    four cells (in eighths), temperature offsets over [-30, 30] in four cells (in half degrees) or six cells (in
    degrees), and over [-10, 20] in ten cells (in half degrees). *)
Definition p_cells_4 : list Q := grid 0 2 4.
Definition dt_cells_4 : list Q := grid (-60) 30 4.
Definition dt_cells_6 : list Q := grid (-30) 10 6.
Definition dt_cells_10 : list Q := grid (-20) 6 10.

(** The scales that go with them. *)
Definition sg_P : Q := ten18 * 8589934592 * 64.
Definition sg_T : Q := ten18 * 64 * 17592186044416.

(** What the cells that pass say about their points. *)
Definition ends_at (C : list (nat * nat * number)) (y : Q) : Prop :=
  (988 <= peval (rho0_P C) y <= 1001 /\
   764 <= peval (rho0_P C) y + peval (S1_P C) y <= 837)%Q.

Definition contraction_at (C : list (nat * nat * number)) (K x y : Q) : Prop :=
  (ends_at C y /\
   K <= eval2 (S_P C) x y * peval (S1_P C) y
        - peval (rho0_P C) y * eval2 (D_P C) x y)%Q.

(** The contraction factor before rounding, at a mass fraction: the
    expression of [calculateDensity]. *)
Definition contraction_raw (C : list (nat * nat * number)) (p tempC : number) : number :=
  (let rho := rho_p_t C p tempC / dec 1000 in
   let rho_eth := rho_p_t C 1 tempC / dec 1000 in
   let rho_wat := rho_p_t C 0 tempC / dec 1000 in
   let v_eth := p / rho_eth in
   let v_wat := (1 - p) / rho_wat in
   let v_mix := 1 / rho in
   (v_eth + v_wat) / v_mix)%Qc.

(** The coefficients [q] are bounded, one by one, by [b]. *)
Definition dominated (q b : poly) : Prop := Forall2 (fun a c => Qabs a <= c) q b.

Local Close Scope Q_scope.

Local Open Scope Qc_scope.
Local Open Scope num_scope.

(** * Unfolding the engine

    The engine's functions are unfolded on request only, through these
    equations. *)

Lemma toFixed_eq (x : number) (f : nat) :
  toFixed x f =
  (if x <? 0
   then - (if dec 1000000000000000000000 <=? - x then - x
           else of_Z (floor (- x * Math_pow (dec 10) f + dec 0.5)) / Math_pow (dec 10) f)
   else (if dec 1000000000000000000000 <=? x then x
         else of_Z (floor (x * Math_pow (dec 10) f + dec 0.5)) / Math_pow (dec 10) f)).
Proof. unfold toFixed. destruct (x <? 0); reflexivity. Qed.

Section Unfold.

Variable C : list (nat * nat * number).

Lemma rho_p_t_eq (p t : number) :
  rho_p_t C p t =
  fold_left (fun rho '(i, j, val) => rho + val * Math_pow p i * Math_pow (t - dec 20) j) C
    (sum_pow (tl B) 1 (t - dec 20) (sum_pow A 0 p 0)).
Proof. reflexivity. Qed.

Lemma abv_loop_0 (targetV low high p : number) :
  abv_loop C 0 targetV low high p = p.
Proof. reflexivity. Qed.

Lemma abv_loop_S (n : nat) (targetV low high p : number) :
  abv_loop C (S n) targetV low high p =
  (if (((low + high) / dec 2) * rho_p_t C ((low + high) / dec 2) (dec 20)) / RHO_ETH_20
      <? targetV
   then abv_loop C n targetV ((low + high) / dec 2) high ((low + high) / dec 2)
   else abv_loop C n targetV low ((low + high) / dec 2) ((low + high) / dec 2)).
Proof. reflexivity. Qed.

Lemma abvToMassFraction_eq (abv : number) :
  abvToMassFraction C abv =
  (if abv <=? 0 then 0
   else if abv >=? dec 100 then 1
   else abv_loop C 40 (abv / dec 100) 0 1 (dec 0.5)).
Proof. reflexivity. Qed.

Lemma hydro_loop_0 (goal tempC low high x : number) :
  hydro_loop C 0 goal tempC low high x = x.
Proof. reflexivity. Qed.

Lemma hydro_loop_S (n : nat) (goal tempC low high x : number) :
  hydro_loop C (S n) goal tempC low high x =
  (if rho_p_t C (abvToMassFraction C ((low + high) / dec 2)) tempC >? goal
   then hydro_loop C n goal tempC ((low + high) / dec 2) high ((low + high) / dec 2)
   else hydro_loop C n goal tempC low ((low + high) / dec 2) ((low + high) / dec 2)).
Proof. reflexivity. Qed.

End Unfold.

#[global] Opaque rho_p_t abv_loop abvToMassFraction hydro_loop toFixed.

(** * Numbers: from canonical rationals to [Q] and back *)

Lemma this_Q2Qc (q : Q) : (this (Q2Qc q) == q)%Q.
Proof. apply Qred_correct. Qed.

Lemma this_dec (q : Q) : (this (dec q) == q)%Q.
Proof. apply Qred_correct. Qed.

Lemma this_of_Z (z : Z) : (this (of_Z z) == inject_Z z)%Q.
Proof. apply Qred_correct. Qed.

Lemma this_plus (x y : number) : (this (x + y) == this x + this y)%Q.
Proof. apply Qred_correct. Qed.

Lemma this_mult (x y : number) : (this (x * y) == this x * this y)%Q.
Proof. apply Qred_correct. Qed.

Lemma this_opp (x : number) : (this (- x) == - this x)%Q.
Proof. apply Qred_correct. Qed.

Lemma this_minus (x y : number) : (this (x - y) == this x - this y)%Q.
Proof. unfold Qcminus. rewrite this_plus, this_opp. reflexivity. Qed.

Lemma this_inv (x : number) : (this (/ x) == / this x)%Q.
Proof. apply Qred_correct. Qed.

Lemma this_div (x y : number) : (this (x / y) == this x / this y)%Q.
Proof. unfold Qcdiv. rewrite this_mult, this_inv. reflexivity. Qed.

#[export] Instance Qpow_comp : Proper (Qeq ==> eq ==> Qeq) Qpow.
Proof.
  intros x y E n ? <-. induction n as [|n IH]; cbn; [reflexivity|].
  rewrite IH, E. reflexivity.
Qed.

Lemma this_pow (x : number) (n : nat) : (this (Math_pow x n) == Qpow (this x) n)%Q.
Proof.
  unfold Math_pow. induction n as [|n IH]; cbn [Qcpower Qpow].
  - reflexivity.
  - rewrite this_mult, IH. reflexivity.
Qed.

Lemma this_abs (x : number) : this (Qcabs x) = Qabs (this x).
Proof. reflexivity. Qed.

Lemma this_0 : (this 0 == 0)%Q.
Proof. reflexivity. Qed.

Lemma this_1 : (this 1 == 1)%Q.
Proof. reflexivity. Qed.

Create Rewrite HintDb toQ.
#[export] Hint Rewrite this_plus this_mult this_opp this_minus this_inv this_div
  this_pow this_dec this_of_Z this_Q2Qc this_abs this_0 this_1 : toQ.

Lemma Qc_eq_iff (x y : number) : x = y <-> (this x == this y)%Q.
Proof.
  split; [intros ->; reflexivity | apply Qc_is_canon].
Qed.

Lemma ltb_true (x y : number) : (x <? y) = true <-> x < y.
Proof.
  unfold ltb. rewrite Qclt_alt. destruct (x ?= y); split; congruence.
Qed.

Lemma ltb_false (x y : number) : (x <? y) = false <-> y <= x.
Proof.
  unfold ltb. split; intros H.
  - apply Qcnot_lt_le. rewrite Qclt_alt. destruct (x ?= y); congruence.
  - apply Qcle_not_lt in H. rewrite Qclt_alt in H. destruct (x ?= y); congruence.
Qed.

Lemma leb_true (x y : number) : (x <=? y) = true <-> x <= y.
Proof.
  unfold leb. rewrite Qcle_alt. destruct (x ?= y); split; congruence.
Qed.

Lemma leb_false (x y : number) : (x <=? y) = false <-> y < x.
Proof.
  unfold leb. split; intros H.
  - apply Qcnot_le_lt. rewrite Qcle_alt. destruct (x ?= y); congruence.
  - apply Qclt_not_le in H. rewrite Qcle_alt in H.
    destruct (x ?= y); try reflexivity; exfalso; apply H; discriminate.
Qed.

Lemma gtb_true (x y : number) : (x >? y) = true <-> y < x.
Proof. apply ltb_true. Qed.

Lemma gtb_false (x y : number) : (x >? y) = false <-> x <= y.
Proof. apply ltb_false. Qed.

Lemma geb_true (x y : number) : (x >=? y) = true <-> y <= x.
Proof. apply leb_true. Qed.

Lemma geb_false (x y : number) : (x >=? y) = false <-> x < y.
Proof. apply leb_false. Qed.

(** Case analysis on a comparison of the source. *)
Ltac cmp_cases x y :=
  let E := fresh "E" in
  first
    [ destruct (x <? y) eqn:E; [apply ltb_true in E | apply ltb_false in E]
    | destruct (x <=? y) eqn:E; [apply leb_true in E | apply leb_false in E] ].

(** Turn order and equality statements on [number]s into statements on [Q],
    with the operations pushed through [this]. *)
Ltac inv_consts :=
  unfold Qdiv in *;
  repeat match goal with
         | |- context [Qinv (Qmake ?n ?d)] =>
             let c := eval cbv in (Qinv (Qmake n d)) in
             progress change (Qinv (Qmake n d)) with c
         | H : context [Qinv (Qmake ?n ?d)] |- _ =>
             let c := eval cbv in (Qinv (Qmake n d)) in
             progress change (Qinv (Qmake n d)) with c in H
         end.

Ltac toQ :=
  repeat match goal with
         | H : @eq Qc _ _ |- _ => apply Qc_eq_iff in H
         | H : @eq number _ _ |- _ => apply Qc_eq_iff in H
         | H : ~ @eq Qc _ _ |- _ => rewrite Qc_eq_iff in H
         | H : ~ @eq number _ _ |- _ => rewrite Qc_eq_iff in H
         | |- @eq Qc _ _ => apply Qc_eq_iff
         | |- @eq number _ _ => apply Qc_eq_iff
         | |- ~ @eq Qc _ _ => rewrite Qc_eq_iff
         | |- ~ @eq number _ _ => rewrite Qc_eq_iff
         end;
  unfold Qcle, Qclt in *;
  autorewrite with toQ in *;
  inv_consts.

Ltac qlra := toQ; lra.

Local Close Scope num_scope.
Local Close Scope Qc_scope.

Local Open Scope Qc_scope.
Local Open Scope num_scope.

(** * Decimal rounding: [toFixed] *)

Lemma Qpow_pos (x : Q) (n : nat) : (0 < x)%Q -> (0 < Qpow x n)%Q.
Proof.
  intros Hx. induction n as [|n IH]; cbn [Qpow]; [reflexivity|].
  apply Qmult_lt_0_compat; assumption.
Qed.

Lemma Qpow_nonneg (x : Q) (n : nat) : (0 <= x)%Q -> (0 <= Qpow x n)%Q.
Proof.
  intros Hx. induction n as [|n IH]; cbn [Qpow]; [discriminate|].
  apply Qmult_le_0_compat; assumption.
Qed.

Lemma pow10_pos (f : nat) : 0 < Math_pow (dec 10) f.
Proof. toQ. apply Qpow_pos. reflexivity. Qed.

Lemma pow10_1 : Math_pow (dec 10) 1 = dec 10.
Proof. apply Qc_is_canon. reflexivity. Qed.

Lemma pow10_2 : Math_pow (dec 10) 2 = dec 100.
Proof. apply Qc_is_canon. reflexivity. Qed.

Lemma pow10_4 : Math_pow (dec 10) 4 = dec 10000.
Proof. apply Qc_is_canon. reflexivity. Qed.

Lemma pow10_6 : Math_pow (dec 10) 6 = dec 1000000.
Proof. apply Qc_is_canon. reflexivity. Qed.

Lemma floor_bounds (x : number) :
  (inject_Z (floor x) <= this x /\ this x < inject_Z (floor x) + 1)%Q.
Proof.
  unfold floor. split; [apply Qfloor_le|].
  pose proof (Qlt_floor x) as H. rewrite inject_Z_plus in H. exact H.
Qed.

(** The rounded magnitude of a non-negative number below 10^21. *)
Lemma toFixed_small_nonneg (x : number) (f : nat) :
  0 <= x -> x < dec 1000000000000000000000 ->
  toFixed x f = of_Z (floor (x * Math_pow (dec 10) f + dec 0.5)) / Math_pow (dec 10) f.
Proof.
  intros H0 H1. rewrite toFixed_eq.
  replace (x <? 0) with false by (symmetry; apply ltb_false; assumption).
  replace (dec 1000000000000000000000 <=? x) with false
    by (symmetry; apply leb_false; assumption).
  reflexivity.
Qed.

Lemma toFixed_opp (x : number) (f : nat) : toFixed (- x) f = - toFixed x f.
Proof.
  rewrite !toFixed_eq.
  destruct (x <? 0) eqn:E1; destruct (- x <? 0) eqn:E2;
    rewrite ?ltb_true, ?ltb_false in *.
  - exfalso. qlra.
  - rewrite Qcopp_involutive. reflexivity.
  - rewrite Qcopp_involutive. reflexivity.
  - assert (x = 0) as -> by qlra.
    replace (- 0) with 0 by (apply Qc_is_canon; reflexivity).
    destruct (dec 1000000000000000000000 <=? 0) eqn:E3.
    + apply leb_true in E3. exfalso. qlra.
    + apply Qc_is_canon. autorewrite with toQ.
      assert (Hfl : floor (0 * Math_pow (dec 10) f + dec 0.5) = 0%Z).
      { unfold floor. 
        assert (E : (this (0 * Math_pow (dec 10) f + dec 0.5) == 0.5)%Q)
          by (autorewrite with toQ; lra).
        rewrite E. reflexivity. }
      rewrite Hfl. change (inject_Z 0) with 0%Q. unfold Qdiv.
      rewrite Qmult_0_l. reflexivity.
Qed.

(** In every case the result is within half a unit of the last printed
    decimal: [(toFixed x f - x) * 10^f] lies in [-1/2, 1/2]. *)
Lemma toFixed_error (x : number) (f : nat) :
  - dec 0.5 <= (toFixed x f - x) * Math_pow (dec 10) f <= dec 0.5.
Proof.
  assert (Hpos : forall y, 0 <= y ->
            - dec 0.5 <= (toFixed y f - y) * Math_pow (dec 10) f <= dec 0.5).
  { intros y Hy. rewrite toFixed_eq.
    replace (y <? 0) with false by (symmetry; apply ltb_false; assumption).
    pose proof (pow10_pos f) as HP.
    destruct (dec 1000000000000000000000 <=? y) eqn:E.
    - replace (y - y) with 0 by (apply Qc_is_canon; autorewrite with toQ; lra).
      rewrite Qcmult_0_l. split; toQ; lra.
    - set (P := Math_pow (dec 10) f) in *.
      destruct (floor_bounds (y * P + dec 0.5)) as [Hl Hu].
      set (n := floor (y * P + dec 0.5)) in *.
      assert (EP : (of_Z n / P - y) * P = of_Z n - y * P).
      { field. intros E0. rewrite E0 in HP. revert HP.
        apply Qcle_not_lt, Qcle_refl. }
      rewrite EP. split; qlra. }
  destruct (x <? 0) eqn:E; [apply ltb_true in E | apply ltb_false in E].
  - specialize (Hpos (- x)). rewrite toFixed_opp in Hpos.
    assert (H0 : 0 <= - x) by qlra. specialize (Hpos H0).
    replace ((toFixed x f - x) * Math_pow (dec 10) f)
      with (- ((- toFixed x f - - x) * Math_pow (dec 10) f)) by ring.
    destruct Hpos. split; qlra.
  - apply Hpos. assumption.
Qed.

(** Below 10^21 in magnitude the result has [f] decimals: [toFixed x f * 10^f]
    is an integer. *)
Lemma toFixed_decimals (x : number) (f : nat) :
  - dec 1000000000000000000000 < x -> x < dec 1000000000000000000000 ->
  decimals f (toFixed x f).
Proof.
  assert (Hpos : forall y, 0 <= y -> y < dec 1000000000000000000000 ->
            decimals f (toFixed y f)).
  { intros y H0 H1. rewrite toFixed_small_nonneg by assumption.
    exists (floor (y * Math_pow (dec 10) f + dec 0.5)). field. intros E. pose proof (pow10_pos f) as HP. rewrite E in HP.
    revert HP. apply Qcle_not_lt, Qcle_refl. }
  intros Hl Hu.
  destruct (x <? 0) eqn:E; [apply ltb_true in E | apply ltb_false in E].
  - destruct (Hpos (- x)) as [n Hn]; [qlra | qlra |].
    rewrite toFixed_opp in Hn. exists (- n)%Z.
    replace (toFixed x f * Math_pow (dec 10) f)
      with (- (- toFixed x f * Math_pow (dec 10) f)) by ring.
    rewrite Hn. apply Qc_is_canon. autorewrite with toQ.
    rewrite inject_Z_opp. reflexivity.
  - apply Hpos; assumption.
Qed.

Local Close Scope num_scope.
Local Close Scope Qc_scope.

Local Open Scope Qc_scope.
Local Open Scope num_scope.

(** * The range validator *)


(** * The hydrometer search stays in its bracket *)

Section Bracket.

Variable C : list (nat * nat * number).

(** Whatever the comparisons decide, the running midpoint stays between the
    bounds it was started with. *)
Lemma hydro_loop_bracket (n : nat) (goal tempC : number) :
  forall low high x : number,
    low <= high -> low <= x -> x <= high ->
    low <= hydro_loop C n goal tempC low high x /\
    hydro_loop C n goal tempC low high x <= high.
Proof.
  induction n as [|n IH]; intros low high x Hlh Hlx Hxh;
    [rewrite hydro_loop_0 | rewrite hydro_loop_S].
  - split; assumption.
  - set (m := (low + high) / dec 2).
    assert (Hm : low <= m /\ m <= high) by (subst m; split; qlra).
    destruct Hm as [Hm1 Hm2].
    destruct (_ >? goal).
    + destruct (IH m high m) as [H1 H2]; try assumption; try apply Qcle_refl.
      split; [apply Qcle_trans with m|]; assumption.
    + destruct (IH low m m) as [H1 H2]; try assumption; try apply Qcle_refl.
      split; [|apply Qcle_trans with m]; assumption.
Qed.

(** The search of [getHydrometerCorrection] returns a percentage. *)
Lemma hydro_loop_percent (n : nat) (goal tempC : number) :
  0 <= hydro_loop C n goal tempC 0 (dec 100) (dec 50) /\
  hydro_loop C n goal tempC 0 (dec 100) (dec 50) <= dec 100.
Proof. apply hydro_loop_bracket; qlra. Qed.

End Bracket.

(** One-decimal rounding keeps a percentage a percentage. *)
Lemma toFixed_1_percent (x : number) :
  0 <= x -> x <= dec 100 -> 0 <= toFixed x 1 /\ toFixed x 1 <= dec 100.
Proof.
  intros H0 H1.
  rewrite toFixed_small_nonneg by (try assumption; qlra).
  rewrite pow10_1.
  destruct (floor_bounds (x * dec 10 + dec 0.5)) as [Hl Hu].
  set (n := floor (x * dec 10 + dec 0.5)) in *.
  autorewrite with toQ in Hl, Hu. clearbody n.
  assert (Hn : (0 <= n <= 1000)%Z).
  { split.
    - apply Z.lt_succ_r. rewrite <- Z.add_1_r. rewrite Zlt_Qlt.
      rewrite inject_Z_plus. toQ. change (inject_Z 1) with 1%Q.
      change (inject_Z 0) with 0%Q. lra.
    - apply Z.lt_succ_r. rewrite Zlt_Qlt. toQ.
      change (inject_Z (Z.succ 1000)) with 1001%Q. lra. }
  destruct Hn as [Hn0 Hn1]. rewrite Zle_Qle in Hn0, Hn1.
  change (inject_Z 0) with 0%Q in Hn0. change (inject_Z 1000) with 1000%Q in Hn1.
  split; qlra.
Qed.

(** C10: for every reading and every temperature the [trueAbv] returned by
    [correctHydrometerReading] lies in [0, 100]: the midpoint of the search
    stays inside the initial bracket after any number of iterations, and the
    one-decimal rounding keeps the bounds.  Both revisions. *)
Theorem trueAbv_within_0_100 (readingAbv tempC : number) :
  (forall (C : list (nat * nat * number)) (goal : number) (n : nat),
      0 <= hydro_loop C n goal tempC 0 (dec 100) (dec 50) /\
      hydro_loop C n goal tempC 0 (dec 100) (dec 50) <= dec 100) /\
  (0 <= trueAbv (result (Density.correctHydrometerReading readingAbv tempC)) /\
   trueAbv (result (Density.correctHydrometerReading readingAbv tempC)) <= dec 100) /\
  (0 <= trueAbv (result (DensityCF.correctHydrometerReading readingAbv tempC)) /\
   trueAbv (result (DensityCF.correctHydrometerReading readingAbv tempC)) <= dec 100).
Proof.
  assert (HB : forall C goal n,
             0 <= hydro_loop C n goal tempC 0 (dec 100) (dec 50) /\
             hydro_loop C n goal tempC 0 (dec 100) (dec 50) <= dec 100).
  { intros C goal n. apply hydro_loop_percent. }
  split; [exact HB|].
  split; cbn [Density.correctHydrometerReading DensityCF.correctHydrometerReading
              Density.getHydrometerCorrection DensityCF.getHydrometerCorrection
              hydrometer_result result trueAbv];
    apply toFixed_1_percent; apply HB.
Qed.

(** * Rounded fields of the hydrometer correction *)

(** A number and its offset by [r], each rounded to one decimal on its own,
    differ by [r] up to one unit of the last decimal. *)
Lemma toFixed_1_offset (x r : number) :
  Qcabs (toFixed x 1 - (r + toFixed (x - r) 1)) <= dec 0.1.
Proof.
  pose proof (toFixed_error x 1) as [H1 H2].
  pose proof (toFixed_error (x - r) 1) as [H3 H4].
  rewrite pow10_1 in *.
  apply Qcabs_Qcle_condition. split; qlra.
Qed.


(** An integer is never four tenths. *)
Lemma four_tenths_not_integer (k : Z) : ~ (inject_Z k == 0.4)%Q.
Proof.
  unfold Qeq, inject_Z. cbn. lia.
Qed.

(** Two one-decimal roundings of a percentage and of its offset by 0.04
    never differ by exactly 0.04. *)
Lemma toFixed_1_offset_004 (x : number) :
  0 <= x -> x <= dec 100 ->
  toFixed x 1 <> dec 0.04 + toFixed (x - dec 0.04) 1.
Proof.
  intros Hx0 Hx1.
  destruct (toFixed_decimals x 1) as [n Hn]; [qlra | qlra |].
  destruct (toFixed_decimals (x - dec 0.04) 1) as [m Hm]; [qlra | qlra |].
  rewrite pow10_1 in *. intros E.
  apply (four_tenths_not_integer (n + - m)).
  rewrite inject_Z_plus, inject_Z_opp. toQ. lra.
Qed.


Local Close Scope num_scope.
Local Close Scope Qc_scope.

Local Open Scope Qc_scope.
Local Open Scope num_scope.

(** * Evaluation *)

(** Equality of two closed numbers, by evaluation. *)
Ltac number_eq := apply Qc_is_canon; vm_compute; reflexivity.

(** An order between two closed numbers, by evaluation. *)
Ltac number_cmp := vm_compute; first [reflexivity | discriminate].

Lemma density_0_20 : Density.calculateDensity 0 (dec 20) = dec 0.998201.
Proof. number_eq. Qed.

Lemma density_100_20 : Density.calculateDensity (dec 100) (dec 20) = dec 0.789239.
Proof. number_eq. Qed.

(** * Decimals *)

Lemma decimals_4_0998201 : ~ decimals 4 (dec 0.998201).
Proof.
  intros [n Hn]. rewrite pow10_4 in Hn. toQ.
  revert Hn. unfold Qeq, inject_Z. cbn. lia.
Qed.


Lemma Qcabs_lt_bounds (x b : number) :
  Qcabs x < b -> - b < x /\ x < b.
Proof.
  intros H. pose proof (Qcle_Qcabs x) as H1.
  pose proof (Qcle_Qcabs (- x)) as H2. rewrite Qcabs_opp in H2.
  revert H H1 H2. generalize (Qcabs x). intros a H H1 H2. split; qlra.
Qed.

(** The correction of a reading below 10^18 in magnitude has one decimal. *)
Lemma correction_decimals (x readingAbv : number) :
  0 <= x -> x <= dec 100 ->
  - dec 1000000000000000000 < readingAbv -> readingAbv < dec 1000000000000000000 ->
  decimals 1 (toFixed (x - readingAbv) 1).
Proof.
  intros Hx0 Hx1 Hr0 Hr1. apply toFixed_decimals; qlra.
Qed.


Local Close Scope num_scope.
Local Close Scope Qc_scope.

Local Open Scope Qc_scope.
Local Open Scope num_scope.

(** * The mass fraction is a fraction *)

Section Fraction.

Variable C : list (nat * nat * number).

(** After at least one iteration the returned midpoint lies strictly
    inside the bracket the loop was entered with. *)
Lemma abv_loop_inside (n : nat) (targetV : number) :
  forall low high p : number,
    low < high ->
    low < abv_loop C (S n) targetV low high p /\
    abv_loop C (S n) targetV low high p < high.
Proof.
  induction n as [|n IH]; intros low high p Hlh; rewrite abv_loop_S.
  - rewrite !abv_loop_0. destruct (_ <? targetV); split; qlra.
  - set (m := (low + high) / dec 2).
    assert (Hm : low < m /\ m < high) by (subst m; split; qlra).
    destruct Hm as [Hm1 Hm2]. clearbody m.
    destruct (_ <? targetV).
    + destruct (IH m high m Hm2) as [H1 H2]. split; [|assumption].
      apply Qclt_trans with m; assumption.
    + destruct (IH low m m Hm1) as [H1 H2]. split; [assumption|].
      apply Qclt_trans with m; assumption.
Qed.

Lemma abvToMassFraction_range (abv : number) :
  0 <= abvToMassFraction C abv /\ abvToMassFraction C abv <= 1.
Proof.
  rewrite abvToMassFraction_eq.
  destruct (abv <=? 0); [split; qlra|].
  destruct (abv >=? dec 100); [split; qlra|].
  destruct (abv_loop_inside 39 (abv / dec 100) 0 1 (dec 0.5)) as [H1 H2];
    [qlra|]. split; apply Qclt_le_weak; assumption.
Qed.

Lemma abvToMassFraction_pos (abv : number) :
  0 < abv -> 0 < abvToMassFraction C abv.
Proof.
  intros H. rewrite abvToMassFraction_eq.
  destruct (abv <=? 0) eqn:E; [apply leb_true in E; exfalso; qlra|].
  destruct (abv >=? dec 100); [qlra|].
  apply abv_loop_inside. qlra.
Qed.

Lemma abvToMassFraction_lt_1 (abv : number) :
  abv < dec 100 -> abvToMassFraction C abv < 1.
Proof.
  intros H. rewrite abvToMassFraction_eq.
  destruct (abv <=? 0); [qlra|].
  destruct (abv >=? dec 100) eqn:E; [apply geb_true in E; exfalso; qlra|].
  apply abv_loop_inside. qlra.
Qed.

End Fraction.

(** * Dilution by weight *)

(** The arithmetic of the mass balance on rounded fields: [m2] is the final
    mass, [p1] and [p2] the two mass fractions, the primed numbers their
    rounded values. *)
Lemma mass_balance_rounded (m p1 p2 m2 E S T F W : Q) :
  (0 < m -> 0 < p1 -> p1 <= 1 -> 0 < p2 -> p2 <= 1 ->
   m2 * p2 == m * p1 ->
   -0.5 <= (E - m * p1) * 100 <= 0.5 ->
   -0.5 <= (S - p1) * 10000 <= 0.5 ->
   -0.5 <= (T - p2) * 10000 <= 0.5 ->
   -0.5 <= (F - m2) * 10 <= 0.5 ->
   -0.5 <= (W - (m2 - m)) * 10 <= 0.5 ->
   (- (0.005 + 0.00005 * m) <= E - m * S <= 0.005 + 0.00005 * m) /\
   (- (0.06 + 0.00005 * F) <= E - F * T <= 0.06 + 0.00005 * F) /\
   (- 0.1 <= W - (F - m) <= 0.1))%Q.
Proof.
  intros Hm Hp1 Hp1' Hp2 Hp2' Hbal HE HS HT HF HW.
  assert (Hm2 : (0 < m2)%Q) by nra.
  repeat split; try lra; nra.
Qed.



Local Close Scope num_scope.
Local Close Scope Qc_scope.

Local Open Scope Q_scope.

(** * Polynomials over [Q] *)

#[export] Instance peval_comp (l : poly) : Proper (Qeq ==> Qeq) (peval l).
Proof.
  intros x y E. induction l as [|a l IH]; cbn [peval]; [reflexivity|].
  rewrite IH, E. reflexivity.
Qed.

Lemma peval_padd (a b : poly) (x : Q) :
  peval (padd a b) x == peval a x + peval b x.
Proof.
  revert b. induction a as [|u a IH]; intros [|v b]; cbn [padd peval]; try lra.
  rewrite IH, Qred_correct. lra.
Qed.

Lemma peval_pscale (c : Q) (a : poly) (x : Q) :
  peval (pscale c a) x == c * peval a x.
Proof.
  induction a as [|u a IH]; cbn [pscale map peval]; [lra|].
  fold (pscale c a). rewrite IH, Qred_correct. lra.
Qed.

Lemma peval_pneg (a : poly) (x : Q) : peval (pneg a) x == - peval a x.
Proof.
  induction a as [|u a IH]; cbn [pneg map peval]; [lra|].
  fold (pneg a). rewrite IH. lra.
Qed.

Lemma peval_shift (l : poly) (c s : Q) :
  peval (shift l c) s == peval l (c + s).
Proof.
  induction l as [|a l IH]; cbn [shift peval]; [reflexivity|].
  rewrite !peval_padd, peval_pscale. cbn [peval]. rewrite IH. lra.
Qed.

Lemma dquot_spec (l : poly) (u w : Q) :
  peval l w - peval l u == (w - u) * dquot l u w.
Proof.
  induction l as [|a l IH]; cbn [peval dquot]; [lra|].
  setoid_replace (peval l u) with (peval l w - (w - u) * dquot l u w)
    by (rewrite <- IH; lra).
  ring.
Qed.

(** ** Bounds around the centre *)

Lemma pabs_nonneg (l : poly) (r : Q) : 0 <= r -> 0 <= pabs l r.
Proof.
  intros Hr. induction l as [|a l IH]; cbn [pabs]; [lra|].
  rewrite Qred_correct. pose proof (Qabs_nonneg a). nra.
Qed.

Lemma Qabs_bound (x r : Q) : Qabs x <= r <-> - r <= x /\ x <= r.
Proof. apply Qabs_Qle_condition. Qed.

Lemma pabs_bound (l : poly) (r x : Q) :
  Qabs x <= r -> Qabs (peval l x) <= pabs l r.
Proof.
  intros Hx. assert (Hr : 0 <= r) by (pose proof (Qabs_nonneg x); lra).
  induction l as [|a l IH]; cbn [pabs peval].
  - cbn. lra.
  - rewrite Qred_correct.
    eapply Qle_trans; [apply Qabs_triangle|].
    rewrite Qabs_Qmult.
    pose proof (Qabs_nonneg x). pose proof (Qabs_nonneg (peval l x)).
    pose proof (pabs_nonneg l r Hr). nra.
Qed.

Lemma dqabs_nonneg (l : poly) (r : Q) : 0 <= r -> 0 <= dqabs l r.
Proof.
  intros Hr. induction l as [|a l IH]; cbn [dqabs]; [lra|].
  rewrite Qred_correct. pose proof (pabs_nonneg l r Hr). nra.
Qed.

Lemma dqabs_bound (l : poly) (r u w : Q) :
  Qabs u <= r -> Qabs w <= r -> Qabs (dquot l u w) <= dqabs l r.
Proof.
  intros Hu Hw. assert (Hr : 0 <= r) by (pose proof (Qabs_nonneg u); lra).
  induction l as [|a l IH]; cbn [dqabs dquot].
  - cbn. lra.
  - rewrite Qred_correct.
    eapply Qle_trans; [apply Qabs_triangle|].
    rewrite Qabs_Qmult.
    pose proof (pabs_bound l r w Hw).
    pose proof (Qabs_nonneg u). pose proof (Qabs_nonneg (dquot l u w)).
    pose proof (dqabs_nonneg l r Hr). nra.
Qed.

Lemma slope_ub_bound (l : poly) (r u w : Q) :
  Qabs u <= r -> Qabs w <= r -> dquot l u w <= slope_ub l r.
Proof.
  intros Hu Hw. assert (Hr : 0 <= r) by (pose proof (Qabs_nonneg u); lra).
  unfold slope_ub, slope_mid, slope_err.
  destruct l as [|a0 [|a1 l]].
  - cbn. lra.
  - cbn. lra.
  - cbn [dquot peval tl].
    pose proof (pabs_bound l r w Hw) as H1.
    pose proof (dqabs_bound (a1 :: l) r u w Hu Hw) as H2.
    cbn [dquot] in H2.
    apply Qabs_bound in H1, H2, Hu, Hw.
    pose proof (pabs_nonneg l r Hr). pose proof (dqabs_nonneg (a1 :: l) r Hr).
    revert H1 H2 H H0.
    generalize (peval l w) (peval l w + u * dquot l u w) (pabs l r) (dqabs (a1 :: l) r).
    intros P D bp bd H1 H2 H3 H4. nra.
Qed.

(** ** Slopes on cells *)

Lemma slope_le_glue (f : Q -> Q) (U a b c : Q) :
  slope_le f U a b -> slope_le f U b c -> slope_le f U a c.
Proof.
  intros H1 H2 x y Hax Hxy Hyc.
  destruct (Qlt_le_dec y b) as [Hyb | Hby].
  - apply H1; lra.
  - destruct (Qlt_le_dec x b) as [Hxb | Hbx].
    + pose proof (H1 x b Hax ltac:(lra) ltac:(lra)).
      pose proof (H2 b y ltac:(lra) Hby Hyc). nra.
    + apply H2; lra.
Qed.

Lemma cell_slope_le_sound (l : poly) (U a b : Q) :
  cell_slope_le l U a b = true -> slope_le (peval l) U a b.
Proof.
  unfold cell_slope_le. intros H. apply Qle_bool_iff in H.
  intros x y Hax Hxy Hyb.
  set (c := Qred ((a + b) / 2)) in *. set (r := Qred ((b - a) / 2)) in *.
  assert (Ec : c == (a + b) / 2) by apply Qred_correct.
  assert (Er : r == (b - a) / 2) by apply Qred_correct.
  clearbody c r. inv_consts.
  assert (Ex : x == c + (x - c)) by lra.
  assert (Ey : y == c + (y - c)) by lra.
  rewrite Ey at 1. rewrite Ex at 1.
  rewrite <- !peval_shift, dquot_spec.
  assert (Hu : Qabs (x - c) <= r) by (apply Qabs_bound; split; lra).
  assert (Hw : Qabs (y - c) <= r) by (apply Qabs_bound; split; lra).
  pose proof (slope_ub_bound (shift l c) r (x - c) (y - c) Hu Hw) as HD.
  revert H HD. generalize (dquot (shift l c) (x - c) (y - c)) (slope_ub (shift l c) r).
  intros D S H HD. nra.
Qed.

Lemma last_cons (bs : list Q) (b a : Q) : last (b :: bs) a = last bs b.
Proof.
  revert b a. induction bs as [|c bs IH]; intros b a; [reflexivity|].
  change (last (b :: c :: bs) a) with (last (c :: bs) a).
  rewrite (IH c a), (IH c b). reflexivity.
Qed.

Lemma cells_all_slope_le (l : poly) (U : Q) (bs : list Q) (a : Q) :
  check_slope_le l U (a :: bs) = true ->
  slope_le (peval l) U a (last bs a).
Proof.
  unfold check_slope_le. revert a.
  induction bs as [|b bs IH]; intros a H.
  - cbn. intros x y Hax Hxy Hya.
    assert (E : y == x) by lra. rewrite E. lra.
  - cbn [cells_all] in H. apply andb_true_iff in H as [H H3].
    apply andb_true_iff in H as [H1 H2].
    apply slope_le_glue with b.
    + apply cell_slope_le_sound. assumption.
    + rewrite last_cons. apply IH. assumption.
Qed.

(** The checker is sound: if every cell passes, the difference quotient of
    the polynomial is at most [U] between the first and the last
    breakpoint. *)
Lemma check_slope_le_sound (l : poly) (U : Q) (bs : list Q) (a b : Q) :
  check_slope_le l U bs = true ->
  hd_error bs = Some a -> last bs a = b ->
  slope_le (peval l) U a b.
Proof.
  intros H Ha Hb. destruct bs as [|a' bs]; [discriminate|].
  injection Ha as ->. subst b.
  rewrite last_cons. apply cells_all_slope_le. assumption.
Qed.

(** The difference quotient of [f] over [a, b] is at least [L]. *)
Lemma slope_ge_of_neg (l : poly) (L a b : Q) :
  slope_le (peval (pneg l)) (- L) a b ->
  forall x y : Q, a <= x -> x <= y -> y <= b ->
    L * (y - x) <= peval l y - peval l x.
Proof.
  intros H x y Hax Hxy Hyb. specialize (H x y Hax Hxy Hyb).
  rewrite !peval_pneg in H. lra.
Qed.

(** ** Stretched coordinates *)

Lemma peval_pdil (l : poly) (k x : Q) : peval (pdil l k) x == peval l (k * x).
Proof.
  induction l as [|a l IH]; cbn [pdil peval]; [reflexivity|].
  rewrite peval_pscale, IH. ring.
Qed.

Lemma peval_scale1 (l : poly) (k sg x : Q) :
  peval (scale1 l k sg) x == sg * peval l (k * x).
Proof. unfold scale1. rewrite peval_pscale, peval_pdil. reflexivity. Qed.

Lemma slope_le_sub (f : Q -> Q) (U a b a' b' : Q) :
  a <= a' -> b' <= b -> slope_le f U a b -> slope_le f U a' b'.
Proof. intros Ha Hb H x y Hx Hxy Hy. apply H; lra. Qed.

(** A slope in stretched coordinates is a slope in the original ones. *)
Lemma slope_le_scaled (f g : Q -> Q) (U U' k sg a b : Q) :
  Proper (Qeq ==> Qeq) f ->
  0 < k -> 0 < sg -> U' == U * k * sg ->
  (forall x, g x == sg * f (k * x)) ->
  slope_le g U' a b -> slope_le f U (k * a) (k * b).
Proof.
  intros Hf Hk Hsg EU Hg H x y Hax Hxy Hyb.
  assert (Ex : x == k * (x / k)) by (field; lra).
  assert (Ey : y == k * (y / k)) by (field; lra).
  revert Ex Ey. generalize (x / k) (y / k). intros x' y' Ex Ey.
  specialize (H x' y' ltac:(nra) ltac:(nra) ltac:(nra)).
  rewrite !Hg, <- Ex, <- Ey, EU in H.
  revert H. generalize (f x) (f y). intros u v H.
  assert (E : U * k * sg * (y' - x') == sg * (U * (y - x)))
    by (rewrite Ex, Ey; ring).
  rewrite E in H. nra.
Qed.

Lemma check_slope_scaled_sound (l : poly) (U k sg : Q) (bs : list Q) (a b : Q) :
  0 < k -> 0 < sg ->
  check_slope_scaled l U k sg bs = true ->
  hd_error bs = Some a -> last bs a = b ->
  slope_le (peval l) U (k * a) (k * b).
Proof.
  intros Hk Hsg H Ha Hb.
  apply slope_le_scaled with (peval (scale1 l k sg)) (Qred (U * k * sg)) sg;
    try assumption.
  - apply peval_comp.
  - apply Qred_correct.
  - intros x. apply peval_scale1.
  - apply check_slope_le_sound with bs; assumption.
Qed.

Local Close Scope Q_scope.

Local Open Scope Q_scope.

(** * The density polynomial, seen over [Q] *)

Lemma Qpow_0 (n : nat) : n <> O -> Qpow 0 n == 0.
Proof. destruct n; [congruence|]. intros _. cbn [Qpow]. lra. Qed.

Lemma sum_pow_Q (l : list number) (k : nat) (x rho : number) :
  this (sum_pow l k x rho)
  == this rho + Qpow (this x) k * peval (map this l) (this x).
Proof.
  revert k rho. induction l as [|a l IH]; intros k rho; cbn [sum_pow map peval].
  - lra.
  - rewrite IH. autorewrite with toQ. cbn [Qpow]. ring.
Qed.

Lemma map_tl {X Y : Type} (f : X -> Y) (l : list X) : map f (tl l) = tl (map f l).
Proof. destruct l; reflexivity. Qed.

#[export] Instance cross_Q_comp (C : list (nat * nat * number)) :
  Proper (Qeq ==> Qeq ==> Qeq) (cross_Q C).
Proof.
  intros p p' Ep d d' Ed. induction C as [|[[i j] v] C' IH]; cbn [cross_Q];
    [reflexivity|].
  rewrite IH, Ep, Ed. reflexivity.
Qed.

Section Cross.

Variable C : list (nat * nat * number).

Lemma cross_fold_Q (p dt rho : number) :
  this (fold_left (fun rho '(i, j, val) =>
                     (rho + val * Math_pow p i * Math_pow dt j)%Qc) C rho)
  == this rho + cross_Q C (this p) (this dt).
Proof.
  revert rho. induction C as [|[[i j] v] C' IH]; intros rho;
    cbn [fold_left cross_Q].
  - lra.
  - rewrite IH. autorewrite with toQ. ring.
Qed.

(** The density polynomial in [Q]: the [A] terms, the [B] terms from index
    1, the cross terms. *)
Lemma rho_p_t_Q (p t : number) :
  this (rho_p_t C p t)
  == peval A_Q (this p)
     + (this t - 20) * peval (tl B_Q) (this t - 20)
     + cross_Q C (this p) (this t - 20).
Proof.
  rewrite rho_p_t_eq, cross_fold_Q, !sum_pow_Q.
  rewrite this_minus, this_dec. cbn [Qpow]. unfold A_Q, B_Q.
  rewrite map_tl, this_0. ring.
Qed.

Lemma cross_Q_20 (p : Q) : cross_ok C = true -> cross_Q C p 0 == 0.
Proof.
  unfold cross_ok. induction C as [|[[i j] v] C' IH]; cbn [forallb cross_Q];
    intros H; [reflexivity|].
  apply andb_true_iff in H as [Hj H]. rewrite IH by assumption.
  rewrite Qpow_0; [ring|].
  destruct j; [discriminate | congruence].
Qed.

(** At the reference temperature only the [A] terms are left. *)
Lemma rho_p_20_Q (p : number) :
  cross_ok C = true -> this (rho_p_t C p (dec 20)) == peval A_Q (this p).
Proof.
  intros H. rewrite rho_p_t_Q, this_dec.
  setoid_replace (20 - 20) with 0 by ring.
  rewrite cross_Q_20 by assumption. ring.
Qed.

End Cross.

(** ** Monotonicity at 20 C, cell by cell *)

(** [rho(., 20)] falls by at least 100 kg/m3 per unit of mass fraction. *)
Lemma A_slope : slope_le (peval A_Q) (-100) 0 1.
Proof.
  apply slope_le_sub with ((1 # 16) * 0) ((1 # 16) * 16); [lra | lra |].
  apply check_slope_scaled_sound with sg_univariate p_cells_8;
    [reflexivity | reflexivity | vm_cast_no_check (eq_refl true)
    | reflexivity | reflexivity].
Qed.

(** [v] rises, by at least 0.6 and at most 1.3 per unit of mass fraction. *)
Lemma V_slope_ub : slope_le (peval V_Q) 1.3 0 1.
Proof.
  apply slope_le_sub with ((1 # 16) * 0) ((1 # 16) * 16); [lra | lra |].
  apply check_slope_scaled_sound with (sg_univariate * 78924) p_cells_8;
    [reflexivity | reflexivity | vm_cast_no_check (eq_refl true)
    | reflexivity | reflexivity].
Qed.

Lemma V_slope_lb : slope_le (peval (pneg V_Q)) (-0.6) 0 1.
Proof.
  apply slope_le_sub with ((1 # 16) * 0) ((1 # 16) * 16); [lra | lra |].
  apply check_slope_scaled_sound with (sg_univariate * 78924) p_cells_8;
    [reflexivity | reflexivity | vm_cast_no_check (eq_refl true)
    | reflexivity | reflexivity].
Qed.

Local Close Scope Q_scope.

Local Open Scope Qc_scope.
Local Open Scope num_scope.

(** * The two solvers at the reference temperature *)

Section Solvers.

Variable C : list (nat * nat * number).
Hypothesis HC : cross_ok C = true.

Lemma vol_Q (p : number) : (this (vol C p) == peval V_Q (this p))%Q.
Proof.
  unfold vol, V_Q. rewrite peval_pscale. cbn [peval].
  rewrite this_div, this_mult, rho_p_20_Q by exact HC.
  unfold Qdiv. ring.
Qed.

Lemma vol_0 : vol C 0 = 0.
Proof.
  apply Qc_is_canon. rewrite vol_Q. change (this 0) with 0%Q.
  unfold V_Q. rewrite peval_pscale. cbn [peval]. ring.
Qed.

Lemma vol_slope (x y : number) :
  0 <= x -> x <= y -> y <= 1 ->
  dec 0.6 * (y - x) <= vol C y - vol C x /\ vol C y - vol C x <= dec 1.3 * (y - x).
Proof.
  intros H0 Hxy H1.
  pose proof (slope_ge_of_neg V_Q 0.6 0 1 V_slope_lb (this x) (this y)) as Hl.
  pose proof (V_slope_ub (this x) (this y)) as Hu.
  rewrite <- !vol_Q in Hl, Hu.
  revert Hl Hu. generalize (vol C x) (vol C y). intros vx vy Hl Hu.
  toQ. split; [apply Hl | apply Hu]; assumption.
Qed.

Lemma vol_mono (x y : number) :
  0 <= x -> x <= y -> y <= 1 -> vol C x <= vol C y.
Proof.
  intros H0 Hxy H1. destruct (vol_slope x y H0 Hxy H1) as [Hl _].
  revert Hl. generalize (vol C x) (vol C y). intros vx vy Hl. toQ. nra.
Qed.

(** [rho(., 20)] is strictly decreasing on mass fractions. *)
Lemma rho20_decreasing (x y : number) :
  0 <= x -> x < y -> y <= 1 -> rho_p_t C y (dec 20) < rho_p_t C x (dec 20).
Proof.
  intros H0 Hxy H1.
  pose proof (A_slope (this x) (this y)) as H.
  rewrite <- !rho_p_20_Q in H by exact HC.
  revert H. generalize (rho_p_t C x (dec 20)) (rho_p_t C y (dec 20)).
  intros rx ry H. toQ.
  specialize (H H0 ltac:(lra) H1). nra.
Qed.

Lemma rho20_gt_iff (x y : number) :
  0 <= x -> x <= 1 -> 0 <= y -> y <= 1 ->
  (rho_p_t C x (dec 20) >? rho_p_t C y (dec 20)) = true <-> x < y.
Proof.
  intros Hx0 Hx1 Hy0 Hy1. rewrite gtb_true. split; intros H.
  - apply Qcnot_le_lt. intros Hyx.
    apply Qcle_lt_or_eq in Hyx as [Hyx | ->].
    + apply (Qclt_not_le _ _ H). apply Qclt_le_weak.
      apply rho20_decreasing; assumption.
    + revert H. apply Qcle_not_lt, Qcle_refl.
  - apply rho20_decreasing; assumption.
Qed.

(** ** The loop of [abvToMassFraction] *)

Lemma abv_loop_bracket (n : nat) (targetV : number) :
  forall low high p : number,
    low <= high -> low <= p -> p <= high ->
    low <= abv_loop C n targetV low high p /\
    abv_loop C n targetV low high p <= high.
Proof.
  induction n as [|n IH]; intros low high p Hlh Hlp Hph;
    [rewrite abv_loop_0 | rewrite abv_loop_S].
  - split; assumption.
  - set (m := (low + high) / dec 2).
    assert (Hm : low <= m /\ m <= high) by (subst m; split; qlra).
    destruct Hm as [Hm1 Hm2]. clearbody m.
    destruct (_ <? targetV).
    + destruct (IH m high m) as [H1 H2]; try assumption; try apply Qcle_refl.
      split; [apply Qcle_trans with m|]; assumption.
    + destruct (IH low m m) as [H1 H2]; try assumption; try apply Qcle_refl.
      split; [|apply Qcle_trans with m]; assumption.
Qed.

(** The bracket the loop ends with: it has the width of the initial one
    halved [n] times, it holds the returned midpoint, the volume fraction
    at its lower end is below the target, and its upper end either never
    moved or has a volume fraction that reaches the target. *)
Lemma abv_loop_spec (n : nat) (targetV : number) :
  forall low high p : number,
    low <= high -> low <= p -> p <= high ->
    vol C low < targetV ->
    exists lo hi : number,
      low <= lo /\ hi <= high /\
      lo <= abv_loop C n targetV low high p /\
      abv_loop C n targetV low high p <= hi /\
      (hi - lo) * Math_pow (dec 2) n = high - low /\
      vol C lo < targetV /\
      (hi = high \/ targetV <= vol C hi).
Proof.
  induction n as [|n IH]; intros low high p Hlh Hlp Hph Hlo;
    [rewrite abv_loop_0 | rewrite abv_loop_S].
  - exists low, high. repeat split; try assumption; try apply Qcle_refl.
    + unfold Math_pow. cbn [Qcpower]. ring.
    + left. reflexivity.
  - fold (vol C ((low + high) / dec 2)).
    set (m := (low + high) / dec 2).
    assert (Hm : low <= m /\ m <= high) by (subst m; split; qlra).
    assert (Em : high - m = m - low /\ (high - low) = dec 2 * (m - low))
      by (subst m; split; qlra).
    destruct Hm as [Hm1 Hm2]. destruct Em as [Em1 Em2]. clearbody m.
    destruct (vol C m <? targetV) eqn:E;
      [apply ltb_true in E | apply ltb_false in E].
    + destruct (IH m high m Hm2 (Qcle_refl _) Hm2 E)
        as (lo & hi & H1 & H2 & H3 & H4 & H5 & H6 & H7).
      exists lo, hi. repeat split; try assumption.
      * apply Qcle_trans with m; assumption.
      * unfold Math_pow in *. cbn [Qcpower].
        rewrite Em2, <- Em1, <- H5. ring.
    + destruct (IH low m m Hm1 Hm1 (Qcle_refl _) Hlo)
        as (lo & hi & H1 & H2 & H3 & H4 & H5 & H6 & H7).
      exists lo, hi. repeat split; try assumption.
      * apply Qcle_trans with m; assumption.
      * unfold Math_pow in *. cbn [Qcpower].
        rewrite Em2, <- H5. ring.
      * right. destruct H7 as [-> | H7]; assumption.
Qed.

(** A larger target never yields a smaller mass fraction, whatever the
    polynomial is. *)
Lemma abv_loop_mono (n : nat) (T1 T2 : number) :
  T1 <= T2 ->
  forall low high p : number,
    low <= high -> low <= p -> p <= high ->
    abv_loop C n T1 low high p <= abv_loop C n T2 low high p.
Proof.
  intros HT. induction n as [|n IH]; intros low high p Hlh Hlp Hph;
    [rewrite !abv_loop_0; apply Qcle_refl | rewrite !abv_loop_S].
  fold (vol C ((low + high) / dec 2)).
  set (m := (low + high) / dec 2).
  assert (Hm : low <= m /\ m <= high) by (subst m; split; qlra).
  destruct Hm as [Hm1 Hm2]. clearbody m.
  destruct (vol C m <? T1) eqn:E1; destruct (vol C m <? T2) eqn:E2;
    rewrite ?ltb_true, ?ltb_false in *.
  - apply IH; try assumption; apply Qcle_refl.
  - exfalso. revert E1 E2 HT. generalize (vol C m). intros v E1 E2 HT. qlra.
  - destruct (abv_loop_bracket n T1 low m m Hm1 Hm1 (Qcle_refl _)) as [_ H1].
    destruct (abv_loop_bracket n T2 m high m Hm2 (Qcle_refl _) Hm2) as [H2 _].
    apply Qcle_trans with m; assumption.
  - apply IH; try assumption; apply Qcle_refl.
Qed.

Lemma abvToMassFraction_mono (x y : number) :
  x <= y -> abvToMassFraction C x <= abvToMassFraction C y.
Proof.
  intros Hxy. rewrite (abvToMassFraction_eq C x).
  destruct (x <=? 0) eqn:E1; [apply abvToMassFraction_range|].
  apply leb_false in E1.
  rewrite (abvToMassFraction_eq C y).
  destruct (y <=? 0) eqn:E2; [apply leb_true in E2; exfalso; qlra|].
  destruct (y >=? dec 100) eqn:E3.
  - destruct (x >=? dec 100); [apply Qcle_refl|].
    apply abv_loop_bracket; qlra.
  - apply geb_false in E3.
    destruct (x >=? dec 100) eqn:E4; [apply geb_true in E4; exfalso; qlra|].
    apply abv_loop_mono; qlra.
Qed.

End Solvers.

Local Close Scope num_scope.
Local Close Scope Qc_scope.

Local Open Scope Qc_scope.
Local Open Scope num_scope.

(** * The round trip of the fraction converter *)

Lemma pow2_40 : Math_pow (dec 2) 40 = dec 1099511627776.
Proof. number_eq. Qed.

Lemma pow2_30 : Math_pow (dec 2) 30 = dec 1073741824.
Proof. number_eq. Qed.

Section RoundTrip.

Variable C : list (nat * nat * number).
Hypothesis HC : cross_ok C = true.

Lemma massFractionToAbv_vol (p : number) :
  massFractionToAbv C p = vol C p * dec 100.
Proof. reflexivity. Qed.

(** The volume fraction of pure ethanol is a little less than 1: the [A]
    coefficients sum to 789.2391233, not to [RHO_ETH_20]. *)
Lemma vol_1 : vol C 1 = dec (7892391233 # 7892400000).
Proof.
  apply Qc_is_canon. rewrite (vol_Q C HC). vm_compute. reflexivity.
Qed.

(** What the bracket of [abv_loop_spec] gives for the volume fraction of
    the returned mass fraction, for a target in (0, 1). *)
Lemma abv_loop_vol (targetV : number) :
  0 < targetV -> targetV < 1 ->
  let p := abv_loop C 40 targetV 0 1 (dec 0.5) in
  vol C p - targetV <= dec 1.3 / dec 1099511627776 /\
  targetV - vol C p <= dec 0.0000011109 + dec 1.3 / dec 1099511627776 /\
  (targetV <= vol C 1 -> targetV - vol C p <= dec 1.3 / dec 1099511627776).
Proof.
  intros HT0 HT1. cbn zeta.
  destruct (abv_loop_spec C 40 targetV 0 1 (dec 0.5))
    as (lo & hi & H1 & H2 & H3 & H4 & H5 & H6 & H7);
    try solve [qlra | rewrite (vol_0 C HC); assumption].
  revert H3 H4. generalize (abv_loop C 40 targetV 0 1 (dec 0.5)). intros p H3 H4.
  rewrite pow2_40 in H5.
  assert (Hlh : lo <= hi) by (apply Qcle_trans with p; assumption).
  destruct (vol_slope C HC lo hi H1 Hlh H2) as [_ Hs].
  pose proof (vol_mono C HC lo p H1 H3 (Qcle_trans _ _ _ H4 H2)) as Hm1.
  pose proof (vol_mono C HC p hi (Qcle_trans _ _ _ H1 H3) H4 H2) as Hm2.
  pose proof (vol_mono C HC hi 1 (Qcle_trans _ _ _ H1 Hlh) H2 (Qcle_refl _)) as Hm3.
  pose proof vol_1 as E1.
  destruct H7 as [-> | H7].
  - revert Hs Hm1 Hm2 H6 E1. clear Hm3.
    generalize (vol C lo) (vol C p) (vol C 1).
    intros vlo vp v1 Hs Hm1 Hm2 H6 E1.
    split; [|split]; [| |intros Hv1]; qlra.
  - revert Hs Hm1 Hm2 Hm3 H6 H7 E1.
    generalize (vol C lo) (vol C p) (vol C hi) (vol C 1).
    intros vlo vp vhi v1 Hs Hm1 Hm2 Hm3 H6 H7 E1.
    split; [|split]; [| |intros Hv1]; qlra.
Qed.

(** The round trip on [0, 100]: within 0.00012 everywhere, and within
    130 / 2^40 up to 99.9998. *)
Lemma round_trip (abv : number) :
  0 <= abv -> abv <= dec 100 ->
  Qcabs (massFractionToAbv C (abvToMassFraction C abv) - abv) <= dec 0.00012 /\
  (abv <= dec 99.9998 ->
   Qcabs (massFractionToAbv C (abvToMassFraction C abv) - abv)
     <= dec 130 / Math_pow (dec 2) 40).
Proof.
  intros H0 H1. rewrite pow2_40, massFractionToAbv_vol, abvToMassFraction_eq.
  rewrite !Qcabs_Qcle_condition.
  destruct (abv <=? 0) eqn:E1; [apply leb_true in E1 | apply leb_false in E1].
  { rewrite (vol_0 C HC). split; [split|intros _; split]; qlra. }
  destruct (abv >=? dec 100) eqn:E2; [apply geb_true in E2 | apply geb_false in E2].
  { rewrite vol_1. split; [split|intros ?; split]; qlra. }
  destruct (abv_loop_vol (abv / dec 100)) as (Ha & Hb & Hc); [qlra | qlra |].
  cbn zeta in Ha, Hb, Hc. rewrite vol_1 in Hc.
  revert Ha Hb Hc.
  generalize (vol C (abv_loop C 40 (abv / dec 100) 0 1 (dec 0.5))).
  intros v Ha Hb Hc.
  split; [split; qlra|]. intros H99.
  assert (Hc' : abv / dec 100 - v <= dec 1.3 / dec 1099511627776)
    by (apply Hc; qlra).
  clear Hc. split; qlra.
Qed.

End RoundTrip.

(** C3, as the code has it: for every ABV in [0, 100] the round trip returns
    the ABV within 0.00012, and within 130 / 2^40 when the ABV is at most
    99.9998.  The larger bound is the gap between [RHO_ETH_20] and the
    density the polynomial gives to pure ethanol. *)
Theorem fraction_round_trip (abv : number)
    (Hlow : 0 <= abv) (Hhigh : abv <= dec 100) :
  Qcabs (Density.massFractionToAbv (Density.abvToMassFraction abv) - abv)
    <= dec 0.00012 /\
  (abv <= dec 99.9998 ->
   Qcabs (Density.massFractionToAbv (Density.abvToMassFraction abv) - abv)
     <= dec 130 / Math_pow (dec 2) 40).
Proof.
  apply (round_trip Density.C); [reflexivity | assumption | assumption].
Qed.

Lemma fraction_round_trip_witness :
  (0 <= dec 40 /\ dec 40 <= dec 100) /\
  Qcabs (Density.massFractionToAbv (Density.abvToMassFraction (dec 40)) - dec 40)
    <= dec 0.00012 /\
  (dec 40 <= dec 99.9998 ->
   Qcabs (Density.massFractionToAbv (Density.abvToMassFraction (dec 40)) - dec 40)
     <= dec 130 / Math_pow (dec 2) 40).
Proof.
  assert (Hlow : 0 <= dec 40) by number_cmp.
  assert (Hhigh : dec 40 <= dec 100) by number_cmp.
  exact (conj (conj Hlow Hhigh) (fraction_round_trip (dec 40) Hlow Hhigh)).
Defined.

(** C3, as stated, fails at 100 % ABV: the round trip returns 99.99988...,
    off by more than a thousand times 100 / 2^40. *)
Lemma round_trip_100_off :
  dec 1000 * (dec 100 / Math_pow (dec 2) 40)
  < Qcabs (Density.massFractionToAbv (Density.abvToMassFraction (dec 100)) - dec 100).
Proof. number_cmp. Qed.

Local Close Scope num_scope.
Local Close Scope Qc_scope.

Local Open Scope Qc_scope.
Local Open Scope num_scope.

(** * The hydrometer corrector at the reference temperature *)

Section Reference.

Variable C : list (nat * nat * number).
Hypothesis HC : cross_ok C = true.

(** Two readings 0.0002 apart get different mass fractions. *)
Lemma abvToMassFraction_strict (x y : number) :
  0 <= x -> x + dec 0.0002 <= y -> y <= dec 100 ->
  abvToMassFraction C x < abvToMassFraction C y.
Proof.
  intros Hx Hxy Hy.
  rewrite (abvToMassFraction_eq C x).
  destruct (x <=? 0) eqn:E1; [apply leb_true in E1 | apply leb_false in E1].
  { apply abvToMassFraction_pos. qlra. }
  destruct (x >=? dec 100) eqn:E2; [apply geb_true in E2; exfalso; qlra|].
  apply geb_false in E2.
  rewrite (abvToMassFraction_eq C y).
  destruct (y <=? 0) eqn:E3; [apply leb_true in E3; exfalso; qlra|].
  apply leb_false in E3.
  destruct (y >=? dec 100) eqn:E4; [apply geb_true in E4 | apply geb_false in E4].
  { apply abv_loop_inside. qlra. }
  destruct (abv_loop_spec C 40 (x / dec 100) 0 1 (dec 0.5))
    as (lo1 & hi1 & A1 & A2 & A3 & A4 & A5 & A6 & _);
    try solve [qlra | rewrite (vol_0 C HC); qlra].
  destruct (abv_loop_spec C 40 (y / dec 100) 0 1 (dec 0.5))
    as (lo2 & hi2 & B1 & B2 & B3 & B4 & B5 & _ & B7);
    try solve [qlra | rewrite (vol_0 C HC); qlra].
  revert A3 A4 B3 B4.
  generalize (abv_loop C 40 (x / dec 100) 0 1 (dec 0.5))
             (abv_loop C 40 (y / dec 100) 0 1 (dec 0.5)).
  intros p1 p2 A3 A4 B3 B4.
  rewrite pow2_40 in A5, B5.
  apply Qcnot_le_lt. intros Hp.
  assert (L1 : lo1 <= hi1) by (apply Qcle_trans with p1; assumption).
  assert (L2 : lo2 <= hi2) by (apply Qcle_trans with p2; assumption).
  destruct (vol_slope C HC lo1 hi1 A1 L1 A2) as [_ S1].
  destruct (vol_slope C HC lo2 hi2 B1 L2 B2) as [_ S2].
  destruct (vol_slope C HC lo1 1 A1 ltac:(qlra) (Qcle_refl _)) as [_ S3].
  assert (M : vol C lo2 <= vol C hi1)
    by (apply (vol_mono C HC); try assumption; qlra).
  pose proof (vol_1 C HC) as E1'.
  destruct B7 as [-> | B7].
  - revert S1 S3 M A6 E1'.
    generalize (vol C lo1) (vol C hi1) (vol C lo2) (vol C 1).
    intros v1 w1 v2 vone S1 S3 M A6 E1'. qlra.
  - revert S1 S2 M A6 B7.
    generalize (vol C lo1) (vol C hi1) (vol C lo2) (vol C hi2).
    intros v1 w1 v2 w2 S1 S2 M A6 B7. qlra.
Qed.

Variable readingAbv : number.
Hypothesis Hread0 : 0 <= readingAbv.
Hypothesis Hread1 : readingAbv <= dec 100.

(** At 20 C the comparison of the search is a comparison of mass
    fractions. *)
Lemma hydro_decision_20 (m : number) :
  (rho_p_t C (abvToMassFraction C m) (dec 20)
   >? rho_p_t C (abvToMassFraction C readingAbv) (dec 20)) = true
  <-> abvToMassFraction C m < abvToMassFraction C readingAbv.
Proof.
  apply (rho20_gt_iff C HC); apply abvToMassFraction_range.
Qed.

(** The bracket the search ends with holds the reading, up to 0.0002 on
    the upper side. *)
Lemma hydro_loop_20_spec (n : nat) :
  forall low high x : number,
    0 <= low -> low <= high -> low <= x -> x <= high ->
    low <= readingAbv -> readingAbv <= high + dec 0.0002 ->
    exists lo hi : number,
      lo <= hydro_loop C n (rho_p_t C (abvToMassFraction C readingAbv) (dec 20))
              (dec 20) low high x /\
      hydro_loop C n (rho_p_t C (abvToMassFraction C readingAbv) (dec 20))
        (dec 20) low high x <= hi /\
      (hi - lo) * Math_pow (dec 2) n = high - low /\
      lo <= readingAbv /\ readingAbv <= hi + dec 0.0002.
Proof.
  induction n as [|n IH]; intros low high x H0 Hlh Hlx Hxh Hl Hh;
    [rewrite hydro_loop_0 | rewrite hydro_loop_S].
  - exists low, high. repeat split; try assumption.
    unfold Math_pow. cbn [Qcpower]. ring.
  - set (m := (low + high) / dec 2).
    assert (Hm : low <= m /\ m <= high) by (subst m; split; qlra).
    assert (Em : high - m = m - low /\ (high - low) = dec 2 * (m - low))
      by (subst m; split; qlra).
    destruct Hm as [Hm1 Hm2]. destruct Em as [Em1 Em2]. clearbody m.
    destruct (_ >? _) eqn:E.
    + apply hydro_decision_20 in E.
      assert (Hmr : m <= readingAbv).
      { apply Qclt_le_weak, Qcnot_le_lt. intros Hrm.
        apply (Qclt_not_le _ _ E). apply abvToMassFraction_mono. assumption. }
      destruct (IH m high m) as (lo & hi & H1 & H2 & H3 & H4 & H5);
        try assumption; try apply Qcle_refl; [qlra|].
      exists lo, hi. repeat split; try assumption.
      unfold Math_pow in *. cbn [Qcpower]. rewrite Em2, <- Em1, <- H3. ring.
    + assert (E' : ~ abvToMassFraction C m < abvToMassFraction C readingAbv).
      { intros Hlt. apply hydro_decision_20 in Hlt. congruence. }
      assert (Hrm : readingAbv <= m + dec 0.0002).
      { apply Qcnot_lt_le. intros Hlt. apply E'.
        apply abvToMassFraction_strict; [qlra | qlra | assumption]. }
      destruct (IH low m m) as (lo & hi & H1 & H2 & H3 & H4 & H5);
        try assumption; try apply Qcle_refl.
      exists lo, hi. repeat split; try assumption.
      unfold Math_pow in *. cbn [Qcpower]. rewrite Em2, <- H3. ring.
Qed.

(** The search of [getHydrometerCorrection] ends within 0.0003 of the
    reading. *)
Lemma hydro_loop_20_close :
  let x := hydro_loop C 30 (rho_p_t C (abvToMassFraction C readingAbv) (dec 20))
             (dec 20) 0 (dec 100) (dec 50) in
  - dec 0.0003 < x - readingAbv /\ x - readingAbv < dec 0.0003.
Proof.
  cbn zeta.
  destruct (hydro_loop_20_spec 30 0 (dec 100) (dec 50))
    as (lo & hi & H1 & H2 & H3 & H4 & H5); try qlra.
  revert H1 H2. generalize (hydro_loop C 30
    (rho_p_t C (abvToMassFraction C readingAbv) (dec 20)) (dec 20) 0 (dec 100) (dec 50)).
  intros x H1 H2. rewrite pow2_30 in H3. split; qlra.
Qed.

End Reference.

(** A difference below 0.05 in magnitude is printed as 0.0. *)
Lemma toFixed_1_zero (d : number) :
  - dec 0.05 < d -> d < dec 0.05 -> toFixed d 1 = 0.
Proof.
  assert (Hpos : forall y, 0 <= y -> y < dec 0.05 -> toFixed y 1 = 0).
  { intros y H0 H1. rewrite toFixed_small_nonneg by (try assumption; qlra).
    rewrite pow10_1.
    assert (Hfl : floor (y * dec 10 + dec 0.5) = 0%Z).
    { destruct (floor_bounds (y * dec 10 + dec 0.5)) as [Hl Hu].
      revert Hl Hu. generalize (floor (y * dec 10 + dec 0.5)). intros n Hl Hu.
      autorewrite with toQ in Hl, Hu.
      assert (Hn : (-1 < n < 1)%Z).
      { split; rewrite Zlt_Qlt; toQ;
          [change (inject_Z (-1)) with (-1)%Q | change (inject_Z 1) with 1%Q]; lra. }
      lia. }
    rewrite Hfl. apply Qc_is_canon. reflexivity. }
  intros Hl Hu.
  destruct (d <? 0) eqn:E; [apply ltb_true in E | apply ltb_false in E].
  - assert (H : toFixed (- d) 1 = 0) by (apply Hpos; qlra).
    rewrite toFixed_opp in H. toQ. lra.
  - apply Hpos; assumption.
Qed.

Lemma ALPHA_at_20 (x : number) :
  x / (1 - DensityCF.ALPHA * (dec 20 - dec 20)) = x.
Proof.
  replace (1 - DensityCF.ALPHA * (dec 20 - dec 20)) with 1 by number_eq.
  field. intros E. discriminate E.
Qed.

(** C6: at 20 C the correction of every reading in [0, 100] is zero, in both
    revisions: the search ends within 100 / 2^30 + 0.0002 of the reading,
    and the one-decimal rounding prints any difference below 0.05 as 0.0. *)
Theorem correction_zero_at_20 (readingAbv : number)
    (Hlow : 0 <= readingAbv) (Hhigh : readingAbv <= dec 100) :
  correction (result (Density.correctHydrometerReading readingAbv (dec 20))) = 0 /\
  correction (result (DensityCF.correctHydrometerReading readingAbv (dec 20))) = 0.
Proof.
  split.
  - cbn [Density.correctHydrometerReading Density.getHydrometerCorrection
         hydrometer_result result correction].
    destruct (hydro_loop_20_close Density.C eq_refl readingAbv Hlow Hhigh) as [H1 H2].
    apply toFixed_1_zero.
    + eapply Qclt_trans; [|exact H1]. number_cmp.
    + eapply Qclt_trans; [exact H2|]. number_cmp.
  - cbn [DensityCF.correctHydrometerReading DensityCF.getHydrometerCorrection
         hydrometer_result result correction].
    rewrite ALPHA_at_20.
    destruct (hydro_loop_20_close DensityCF.C eq_refl readingAbv Hlow Hhigh) as [H1 H2].
    apply toFixed_1_zero.
    + eapply Qclt_trans; [|exact H1]. number_cmp.
    + eapply Qclt_trans; [exact H2|]. number_cmp.
Qed.

Lemma correction_zero_at_20_witness :
  (0 <= dec 40 /\ dec 40 <= dec 100) /\
  correction (result (Density.correctHydrometerReading (dec 40) (dec 20))) = 0 /\
  correction (result (DensityCF.correctHydrometerReading (dec 40) (dec 20))) = 0.
Proof.
  assert (Hlow : 0 <= dec 40) by number_cmp.
  assert (Hhigh : dec 40 <= dec 100) by number_cmp.
  exact (conj (conj Hlow Hhigh) (correction_zero_at_20 (dec 40) Hlow Hhigh)).
Defined.

Local Close Scope num_scope.
Local Close Scope Qc_scope.

Local Open Scope Q_scope.

(** * Polynomials in two variables *)

#[export] Instance eval2_comp (M : poly2) : Proper (Qeq ==> Qeq ==> Qeq) (eval2 M).
Proof.
  intros x x' Ex y y' Ey. induction M as [|row M IH]; cbn [eval2]; [reflexivity|].
  rewrite IH, Ex, Ey. reflexivity.
Qed.

Lemma eval2_coeffs (M : poly2) (x y : Q) : eval2 M x y == peval (coeffs M y) x.
Proof.
  induction M as [|row M IH]; cbn [eval2 coeffs map peval]; [reflexivity|].
  fold (coeffs M y). rewrite IH. reflexivity.
Qed.

Lemma eval2_padd2 (a b : poly2) (x y : Q) :
  eval2 (padd2 a b) x y == eval2 a x y + eval2 b x y.
Proof.
  revert b. induction a as [|r a IH]; intros [|s b]; cbn [padd2 eval2]; try lra.
  rewrite IH, peval_padd. lra.
Qed.

Lemma eval2_pscale2 (c : Q) (a : poly2) (x y : Q) :
  eval2 (pscale2 c a) x y == c * eval2 a x y.
Proof.
  induction a as [|r a IH]; cbn [pscale2 map eval2]; [lra|].
  fold (pscale2 c a). rewrite IH, peval_pscale. lra.
Qed.

Lemma eval2_shiftx (M : poly2) (c s y : Q) :
  eval2 (shiftx M c) s y == eval2 M (c + s) y.
Proof.
  induction M as [|row M IH]; cbn [shiftx eval2]; [reflexivity|].
  rewrite !eval2_padd2, eval2_pscale2. cbn [eval2 peval]. rewrite IH. lra.
Qed.

Lemma eval2_shift_rows (M : poly2) (d x e : Q) :
  eval2 (map (fun row => shift row d) M) x e == eval2 M x (d + e).
Proof.
  induction M as [|row M IH]; cbn [map eval2]; [reflexivity|].
  rewrite IH, peval_shift. reflexivity.
Qed.

Lemma eval2_shift2 (M : poly2) (c d s e : Q) :
  eval2 (shift2 M c d) s e == eval2 M (c + s) (d + e).
Proof.
  unfold shift2. rewrite eval2_shiftx, eval2_shift_rows. reflexivity.
Qed.

(** ** Bounds from bounds on the coefficients *)

Lemma coeffs_dominated (T : poly2) (e dl : Q) :
  Qabs e <= dl -> dominated (coeffs T e) (rows_abs T dl).
Proof.
  intros He. induction T as [|row T IH]; cbn [coeffs rows_abs map];
    constructor; [apply pabs_bound; assumption | exact IH].
Qed.

Lemma pabs_dom (q b : poly) (r x : Q) :
  dominated q b -> Qabs x <= r -> Qabs (peval q x) <= pabs b r.
Proof.
  intros Hd Hx. assert (Hr : 0 <= r) by (pose proof (Qabs_nonneg x); lra).
  induction Hd as [|a c q b Hac Hd IH]; cbn [pabs peval].
  - cbn. lra.
  - rewrite Qred_correct.
    eapply Qle_trans; [apply Qabs_triangle|].
    rewrite Qabs_Qmult.
    pose proof (Qabs_nonneg x). pose proof (Qabs_nonneg (peval q x)).
    pose proof (pabs_nonneg b r Hr). pose proof (Qle_Qabs c). nra.
Qed.

Lemma dqabs_dom (q b : poly) (r u w : Q) :
  dominated q b -> Qabs u <= r -> Qabs w <= r ->
  Qabs (dquot q u w) <= dqabs b r.
Proof.
  intros Hd Hu Hw. assert (Hr : 0 <= r) by (pose proof (Qabs_nonneg u); lra).
  induction Hd as [|a c q b Hac Hd IH]; cbn [dqabs dquot].
  - cbn. lra.
  - rewrite Qred_correct.
    eapply Qle_trans; [apply Qabs_triangle|].
    rewrite Qabs_Qmult.
    pose proof (pabs_dom q b r w Hd Hw).
    pose proof (Qabs_nonneg u). pose proof (Qabs_nonneg (dquot q u w)).
    pose proof (dqabs_nonneg b r Hr). nra.
Qed.

Lemma slope_err_dom (q b : poly) (r u w : Q) :
  dominated q b -> Qabs u <= r -> Qabs w <= r ->
  dquot q u w <= slope_mid q + slope_err b r.
Proof.
  intros Hd Hu Hw. assert (Hr : 0 <= r) by (pose proof (Qabs_nonneg u); lra).
  unfold slope_mid, slope_err.
  destruct Hd as [|a0 c0 q b H0 Hd]; [cbn; lra|].
  destruct Hd as [|a1 c1 q b H1 Hd]; [cbn; lra|].
  cbn [dquot peval tl].
  pose proof (pabs_dom q b r w Hd Hw) as HP.
  assert (Hd1 : dominated (a1 :: q) (c1 :: b)) by (constructor; assumption).
  pose proof (dqabs_dom (a1 :: q) (c1 :: b) r u w Hd1 Hu Hw) as HD.
  cbn [dquot] in HD.
  apply Qabs_bound in HP, HD, Hu, Hw.
  pose proof (pabs_nonneg b r Hr). pose proof (dqabs_nonneg (c1 :: b) r Hr).
  revert HP HD H H2.
  generalize (peval q w) (peval q w + u * dquot q u w) (pabs b r) (dqabs (c1 :: b) r).
  intros P D bp bd HP HD H3 H4. nra.
Qed.

Lemma peval_le_hd (row : poly) (e dl : Q) :
  Qabs e <= dl ->
  hd 0 row - dl * pabs (tl row) dl <= peval row e /\
  peval row e <= hd 0 row + dl * pabs (tl row) dl.
Proof.
  intros He. assert (Hr : 0 <= dl) by (pose proof (Qabs_nonneg e); lra).
  destruct row as [|a l]; cbn [hd tl peval pabs]; [split; nra|].
  pose proof (pabs_bound l dl e He) as H. apply Qabs_bound in H, He.
  pose proof (pabs_nonneg l dl Hr).
  revert H H0. generalize (peval l e) (pabs l dl). intros P b H H0. split; nra.
Qed.

Lemma slope2_ub_bound (T : poly2) (r dl u w e : Q) :
  Qabs u <= r -> Qabs w <= r -> Qabs e <= dl ->
  dquot (coeffs T e) u w <= slope2_ub T r dl.
Proof.
  intros Hu Hw He.
  pose proof (slope_err_dom _ _ r u w (coeffs_dominated T e dl He) Hu Hw) as H.
  unfold slope2_ub. destruct T as [|row0 [|row1 T]].
  - cbn. lra.
  - cbn. nra.
  - change (slope_mid (coeffs (row0 :: row1 :: T) e)) with (peval row1 e) in H.
    destruct (peval_le_hd row1 e dl He) as [_ H1].
    revert H. generalize (slope_err (rows_abs (row0 :: row1 :: T) dl) r)
                         (dquot (coeffs (row0 :: row1 :: T) e) u w).
    intros E D H. lra.
Qed.

(** ** Cells *)

Lemma mid_rad (a b x : Q) :
  a <= x -> x <= b -> Qabs (x - mid a b) <= rad a b /\ x == mid a b + (x - mid a b).
Proof.
  intros Ha Hb. unfold mid, rad. rewrite !Qred_correct.
  split; [apply Qabs_bound; split|]; inv_consts; lra.
Qed.

(** Every cell passes, so every point between the first and the last
    breakpoint is in a cell that passes. *)
Lemma cells_all_cover (chk : Q -> Q -> bool) (P : Q -> Prop) (bs : list Q) :
  (forall lo hi, chk lo hi = true -> forall y, lo <= y -> y <= hi -> P y) ->
  forall a b : Q,
    cells_all chk (a :: b :: bs) = true ->
    forall y, a <= y -> y <= last bs b -> P y.
Proof.
  intros Hchk. induction bs as [|c bs IH]; intros a b H y Hay Hyl;
    cbn [cells_all] in H; apply andb_true_iff in H as [H H3];
    apply andb_true_iff in H as [H1 H2].
  - cbn [last] in Hyl. apply (Hchk a b H2); assumption.
  - rewrite last_cons in Hyl.
    destruct (Qlt_le_dec y b) as [Hyb | Hby].
    + apply (Hchk a b H2); lra.
    + apply (IH b c H3); assumption.
Qed.

(** Every cell has slope at most [U], so the whole interval has. *)
Lemma cells_all_glue (chk : Q -> Q -> bool) (f : Q -> Q) (U : Q) (bs : list Q) :
  (forall lo hi, chk lo hi = true -> slope_le f U lo hi) ->
  forall a b : Q,
    cells_all chk (a :: b :: bs) = true ->
    slope_le f U a (last bs b).
Proof.
  intros Hchk. induction bs as [|c bs IH]; intros a b H;
    cbn [cells_all] in H; apply andb_true_iff in H as [H H3];
    apply andb_true_iff in H as [H1 H2].
  - cbn [last]. apply Hchk. assumption.
  - rewrite last_cons. apply slope_le_glue with b.
    + apply Hchk. assumption.
    + apply (IH b c H3).
Qed.

Lemma cell2_slope_le_sound (M : poly2) (U ylo yhi a b : Q) :
  cell2_slope_le M U ylo yhi a b = true ->
  forall y, ylo <= y -> y <= yhi -> slope_le (fun x => eval2 M x y) U a b.
Proof.
  unfold cell2_slope_le. intros H y Hy1 Hy2 x x' Hax Hxx' Hx'b.
  apply Qle_bool_iff in H.
  destruct (mid_rad ylo yhi y Hy1 Hy2) as [He Ey].
  destruct (mid_rad a b x Hax ltac:(lra)) as [Hu Ex].
  destruct (mid_rad a b x' ltac:(lra) Hx'b) as [Hw Ex'].
  revert H He Ey Hu Ex Hw Ex'.
  generalize (mid a b) (rad a b) (mid ylo yhi) (rad ylo yhi).
  intros c r d dl H He Ey Hu Ex Hw Ex'. cbv beta.
  assert (E1 : eval2 M x' y == peval (coeffs (shift2 M c d) (y - d)) (x' - c))
    by (rewrite <- eval2_coeffs, eval2_shift2, <- Ex', <- Ey; reflexivity).
  assert (E2 : eval2 M x y == peval (coeffs (shift2 M c d) (y - d)) (x - c))
    by (rewrite <- eval2_coeffs, eval2_shift2, <- Ex, <- Ey; reflexivity).
  rewrite E1, E2, dquot_spec.
  pose proof (slope2_ub_bound (shift2 M c d) r dl (x - c) (x' - c) (y - d) Hu Hw He)
    as HD.
  revert H HD.
  generalize (dquot (coeffs (shift2 M c d) (y - d)) (x - c) (x' - c))
             (slope2_ub (shift2 M c d) r dl).
  intros D S H HD. nra.
Qed.

(** The checker in two variables is sound: if every cell passes, the
    difference quotient in the first variable is at most [U] on the whole
    box. *)
Lemma check2_slope_le_sound (M : poly2) (U : Q) (bs cs : list Q) (a a' b ylo ylo' yhi : Q) :
  check2_slope_le M U (a :: a' :: bs) (ylo :: ylo' :: cs) = true ->
  last bs a' = b -> last cs ylo' = yhi ->
  forall y, ylo <= y -> y <= yhi -> slope_le (fun x => eval2 M x y) U a b.
Proof.
  unfold check2_slope_le. intros H <- <-.
  apply (cells_all_cover _ (fun y => slope_le (fun x => eval2 M x y) U a (last bs a'))
           cs) with (2 := H).
  intros lo hi Hc y Hy1 Hy2.
  apply (cells_all_glue _ _ U bs) with (2 := Hc).
  intros p p' Hp. apply (cell2_slope_le_sound M U lo hi p p' Hp y Hy1 Hy2).
Qed.

(** ** Values on cells *)

Lemma val2_bound (T : poly2) (r dl s e : Q) :
  Qabs s <= r -> Qabs e <= dl ->
  val2_mid T - val2_err T r dl <= eval2 T s e /\
  eval2 T s e <= val2_mid T + val2_err T r dl.
Proof.
  intros Hs He. assert (Hr : 0 <= r) by (pose proof (Qabs_nonneg s); lra).
  destruct T as [|row0 T];
    [unfold val2_mid, val2_err, eval2; cbn [hd]; split; lra|].
  unfold val2_mid, val2_err. cbn [hd eval2].
  destruct (peval_le_hd row0 e dl He) as [H1 H2].
  pose proof (pabs_dom _ _ r s (coeffs_dominated T e dl He) Hs) as H3.
  rewrite <- eval2_coeffs in H3. apply Qabs_bound in H3, Hs.
  pose proof (pabs_nonneg (rows_abs T dl) r Hr) as H4.
  revert H1 H2 H3 H4.
  generalize (peval row0 e) (eval2 T s e) (hd 0 row0) (dl * pabs (tl row0) dl)
             (pabs (rows_abs T dl) r).
  intros v0 v1 m0 e0 b H1 H2 H3 H4. split; nra.
Qed.

Lemma itv2_sound (M : poly2) (ylo yhi a b x y : Q) :
  a <= x -> x <= b -> ylo <= y -> y <= yhi ->
  fst (itv2 M ylo yhi a b) <= eval2 M x y /\ eval2 M x y <= snd (itv2 M ylo yhi a b).
Proof.
  intros Hx1 Hx2 Hy1 Hy2. unfold itv2, itv_around. cbn [fst snd].
  rewrite !Qred_correct.
  destruct (mid_rad ylo yhi y Hy1 Hy2) as [He Ey].
  destruct (mid_rad a b x Hx1 Hx2) as [Hs Ex].
  assert (E : eval2 M x y
              == eval2 (shift2 M (mid a b) (mid ylo yhi)) (x - mid a b) (y - mid ylo yhi))
    by (rewrite eval2_shift2, <- Ex, <- Ey; reflexivity).
  rewrite E.
  destruct (val2_bound (shift2 M (mid a b) (mid ylo yhi)) _ _ _ _ Hs He) as [H1 H2].
  split; lra.
Qed.

Lemma itv1_sound (l : poly) (ylo yhi y : Q) :
  ylo <= y -> y <= yhi ->
  fst (itv1 l ylo yhi) <= peval l y /\ peval l y <= snd (itv1 l ylo yhi).
Proof.
  intros Hy1 Hy2. unfold itv1, itv_around. cbn [fst snd].
  rewrite !Qred_correct.
  destruct (mid_rad ylo yhi y Hy1 Hy2) as [He Ey].
  assert (E : peval l y == peval (shift l (mid ylo yhi)) (y - mid ylo yhi))
    by (rewrite peval_shift, <- Ey; reflexivity).
  rewrite E.
  destruct (peval_le_hd (shift l (mid ylo yhi)) _ _ He) as [H1 H2]. split; lra.
Qed.

(** ** Stretched coordinates *)

Lemma eval2_dilx (M : poly2) (k x y : Q) : eval2 (dilx M k) x y == eval2 M (k * x) y.
Proof.
  induction M as [|row M IH]; cbn [dilx eval2]; [reflexivity|].
  rewrite eval2_pscale2, IH. ring.
Qed.

Lemma eval2_pdil_rows (M : poly2) (k x y : Q) :
  eval2 (map (fun row => pdil row k) M) x y == eval2 M x (k * y).
Proof.
  induction M as [|row M IH]; cbn [map eval2]; [reflexivity|].
  rewrite peval_pdil, IH. reflexivity.
Qed.

Lemma eval2_scale2 (M : poly2) (kx ky sg x y : Q) :
  eval2 (scale2 M kx ky sg) x y == sg * eval2 M (kx * x) (ky * y).
Proof.
  unfold scale2. rewrite eval2_pscale2, eval2_dilx, eval2_pdil_rows. reflexivity.
Qed.

(** The check of the slope in stretched coordinates is sound on the box in
    the original ones. *)
Lemma check2_slope_scaled_sound (M : poly2) (U kx ky sg : Q) (bs cs : list Q)
    (a a' b ylo ylo' yhi : Q) :
  0 < kx -> 0 < ky -> 0 < sg ->
  check2_slope_scaled M U kx ky sg (a :: a' :: bs) (ylo :: ylo' :: cs) = true ->
  last bs a' = b -> last cs ylo' = yhi ->
  forall y, ky * ylo <= y -> y <= ky * yhi ->
    slope_le (fun x => eval2 M x y) U (kx * a) (kx * b).
Proof.
  intros Hkx Hky Hsg H Hb Hy y Hy1 Hy2.
  assert (Ey : y == ky * (y / ky)) by (field; lra).
  apply slope_le_scaled
    with (fun x => eval2 (scale2 M kx ky sg) x (y / ky)) (Qred (U * kx * sg)) sg;
    try assumption.
  - intros x x' E. rewrite E. reflexivity.
  - apply Qred_correct.
  - intros x. cbv beta. rewrite eval2_scale2, <- Ey. reflexivity.
  - apply (check2_slope_le_sound _ _ _ _ _ _ _ _ _ _ H Hb Hy).
    + apply Qmult_le_l with ky; [assumption | lra].
    + apply Qmult_le_l with ky; [assumption | lra].
Qed.

Lemma itv_div_sound (i : itv) (sg v : Q) :
  0 < sg -> fst i <= sg * v -> sg * v <= snd i ->
  fst (itv_div i sg) <= v /\ v <= snd (itv_div i sg).
Proof.
  intros Hsg H1 H2. unfold itv_div. cbn [fst snd]. split.
  - apply Qle_shift_div_r; [assumption | lra].
  - apply Qle_shift_div_l; [assumption | lra].
Qed.

Lemma itv2_scaled_sound (M : poly2) (kx ky sg ylo yhi a b x y : Q) :
  0 < sg -> a <= x -> x <= b -> ylo <= y -> y <= yhi ->
  fst (itv_div (itv2 (scale2 M kx ky sg) ylo yhi a b) sg) <= eval2 M (kx * x) (ky * y) /\
  eval2 M (kx * x) (ky * y) <= snd (itv_div (itv2 (scale2 M kx ky sg) ylo yhi a b) sg).
Proof.
  intros Hsg Hx1 Hx2 Hy1 Hy2.
  destruct (itv2_sound (scale2 M kx ky sg) ylo yhi a b x y Hx1 Hx2 Hy1 Hy2) as [H1 H2].
  rewrite eval2_scale2 in H1, H2. apply itv_div_sound; assumption.
Qed.

Lemma itv1_scaled_sound (l : poly) (k sg ylo yhi y : Q) :
  0 < sg -> ylo <= y -> y <= yhi ->
  fst (itv_div (itv1 (scale1 l k sg) ylo yhi) sg) <= peval l (k * y) /\
  peval l (k * y) <= snd (itv_div (itv1 (scale1 l k sg) ylo yhi) sg).
Proof.
  intros Hsg Hy1 Hy2.
  destruct (itv1_sound (scale1 l k sg) ylo yhi y Hy1 Hy2) as [H1 H2].
  rewrite peval_scale1 in H1, H2. apply itv_div_sound; assumption.
Qed.

Local Close Scope Q_scope.

Local Open Scope Q_scope.

(** * The density polynomial in two variables *)

Lemma peval_monomial (j : nat) (v y : Q) :
  peval (repeat 0 j ++ [v]) y == v * Qpow y j.
Proof.
  induction j as [|j IH]; cbn [repeat app peval Qpow]; [ring|].
  rewrite IH. ring.
Qed.

Lemma eval2_mono2 (i j : nat) (v x y : Q) :
  eval2 (mono2 i j v) x y == v * Qpow x i * Qpow y j.
Proof.
  unfold mono2. induction i as [|i IH]; cbn [repeat app eval2 peval Qpow].
  - rewrite peval_monomial. ring.
  - rewrite IH. ring.
Qed.

Lemma eval2_const_rows (l : poly) (x y : Q) :
  eval2 (map (fun a => [a]) l) x y == peval l x.
Proof.
  induction l as [|a l IH]; cbn [map eval2 peval]; [reflexivity|].
  rewrite IH. ring.
Qed.

Lemma peval_A_Q (p : Q) : peval A_Q p == hd 0 A_Q + p * peval (tl A_Q) p.
Proof. reflexivity. Qed.

Section Matrix.

Variable C : list (nat * nat * number).

Lemma eval2_rho_P (p dt : Q) :
  eval2 (rho_P C) p dt
  == peval A_Q p + dt * peval (tl B_Q) dt + cross_Q C p dt.
Proof.
  unfold rho_P. induction C as [|[[i j] v] C' IH]; cbn [fold_right cross_Q].
  - cbn [eval2 peval]. rewrite eval2_const_rows, peval_A_Q. ring.
  - rewrite eval2_padd2, eval2_mono2, IH. ring.
Qed.

Lemma eval2_rho_T (dt p : Q) :
  eval2 (rho_T C) dt p
  == peval A_Q p + dt * peval (tl B_Q) dt + cross_Q C p dt.
Proof.
  unfold rho_T. induction C as [|[[i j] v] C' IH]; cbn [fold_right cross_Q].
  - cbn [eval2]. rewrite eval2_const_rows. ring.
  - rewrite eval2_padd2, eval2_mono2, IH. ring.
Qed.

Lemma rho_p_t_P (p t : number) :
  this (rho_p_t C p t) == eval2 (rho_P C) (this p) (this t - 20).
Proof. rewrite rho_p_t_Q, eval2_rho_P. reflexivity. Qed.

Lemma rho_p_t_T (p t : number) :
  this (rho_p_t C p t) == eval2 (rho_T C) (this t - 20) (this p).
Proof. rewrite rho_p_t_Q, eval2_rho_T. reflexivity. Qed.

(** From the checks to the engine: if the slope in the mass fraction is
    non-positive on [0, 1] x [-30, 30], the density does not increase with
    the mass fraction at any temperature in [-10, 50]. *)
Lemma rho_decreasing_in_p (p p' t : number) :
  check2_slope_scaled (rho_P C) 0 (1 # 8) (1 # 2) sg_P p_cells_4 dt_cells_4 = true ->
  (0 <= p)%Qc -> (p <= p')%Qc -> (p' <= 1)%Qc ->
  (- dec 10 <= t)%Qc -> (t <= dec 50)%Qc ->
  (rho_p_t C p' t <= rho_p_t C p t)%Qc.
Proof.
  intros Hchk Hp Hpp' Hp' Ht Ht'.
  pose proof (check2_slope_scaled_sound (rho_P C) 0 (1 # 8) (1 # 2) sg_P
                _ _ _ _ 8 _ _ 60 eq_refl eq_refl eq_refl Hchk
                eq_refl eq_refl (this t - 20)) as H.
  unfold Qcle in *. rewrite !rho_p_t_P.
  autorewrite with toQ in Hp, Hpp', Hp', Ht, Ht'.
  specialize (H ltac:(lra) ltac:(lra) (this p) (this p')
                ltac:(lra) Hpp' ltac:(lra)).
  cbv beta in H. lra.
Qed.

Lemma rho_decreasing_in_t (p t t' : number) :
  check2_slope_scaled (rho_T C) 0 (1 # 2) (1 # 16) sg_T dt_cells_10 p_cells_8 = true ->
  (0 <= p)%Qc -> (p <= 1)%Qc ->
  (dec 10 <= t)%Qc -> (t <= t')%Qc -> (t' <= dec 40)%Qc ->
  (rho_p_t C p t' <= rho_p_t C p t)%Qc.
Proof.
  intros Hchk Hp Hp' Ht Htt' Ht'.
  pose proof (check2_slope_scaled_sound (rho_T C) 0 (1 # 2) (1 # 16) sg_T
                _ _ _ _ 40 _ _ 16 eq_refl eq_refl eq_refl Hchk
                eq_refl eq_refl (this p)) as H.
  unfold Qcle in *. rewrite !rho_p_t_T.
  autorewrite with toQ in Hp, Hp', Ht, Htt', Ht'.
  specialize (H ltac:(lra) ltac:(lra) (this t - 20) (this t' - 20)
                ltac:(lra) ltac:(lra) ltac:(lra)).
  cbv beta in H. lra.
Qed.

(** With a bound [U] on the slope in the temperature between 10 and
    40 C. *)
Lemma rho_slope_in_t (U : Q) (p t t' : number) :
  check2_slope_scaled (rho_T C) U (1 # 2) (1 # 16) sg_T dt_cells_10 p_cells_8 = true ->
  (0 <= p)%Qc -> (p <= 1)%Qc ->
  (dec 10 <= t)%Qc -> (t <= t')%Qc -> (t' <= dec 40)%Qc ->
  this (rho_p_t C p t') - this (rho_p_t C p t) <= U * (this t' - this t).
Proof.
  intros Hchk Hp Hp' Ht Htt' Ht'.
  pose proof (check2_slope_scaled_sound (rho_T C) U (1 # 2) (1 # 16) sg_T
                _ _ _ _ 40 _ _ 16 eq_refl eq_refl eq_refl Hchk
                eq_refl eq_refl (this p)) as H.
  unfold Qcle in *. rewrite !rho_p_t_T.
  autorewrite with toQ in Hp, Hp', Ht, Htt', Ht'.
  specialize (H ltac:(lra) ltac:(lra) (this t - 20) (this t' - 20)
                ltac:(lra) ltac:(lra) ltac:(lra)).
  cbv beta in H. lra.
Qed.

Lemma rho_falls_in_t (U : Q) (p t t' : number) :
  U <= 0 ->
  check2_slope_scaled (rho_T C) U (1 # 2) (1 # 16) sg_T dt_cells_10 p_cells_8 = true ->
  (0 <= p)%Qc -> (p <= 1)%Qc ->
  (dec 10 <= t)%Qc -> (t <= t')%Qc -> (t' <= dec 40)%Qc ->
  (rho_p_t C p t' <= rho_p_t C p t)%Qc.
Proof.
  intros HU Hchk Hp Hp' Ht Htt' Ht'.
  pose proof (rho_slope_in_t U p t t' Hchk Hp Hp' Ht Htt' Ht') as H.
  revert H. generalize (rho_p_t C p t') (rho_p_t C p t). intros r' r H.
  unfold Qcle in *. nra.
Qed.

Lemma rho_strict_in_t (U : Q) (p t t' : number) :
  U < 0 ->
  check2_slope_scaled (rho_T C) U (1 # 2) (1 # 16) sg_T dt_cells_10 p_cells_8 = true ->
  (0 <= p)%Qc -> (p <= 1)%Qc ->
  (dec 10 <= t)%Qc -> (t < t')%Qc -> (t' <= dec 40)%Qc ->
  (rho_p_t C p t' < rho_p_t C p t)%Qc.
Proof.
  intros HU Hchk Hp Hp' Ht Htt' Ht'.
  pose proof (rho_slope_in_t U p t t' Hchk Hp Hp' Ht (Qclt_le_weak _ _ Htt') Ht') as H.
  revert H. generalize (rho_p_t C p t') (rho_p_t C p t). intros r' r H.
  unfold Qcle, Qclt in *. nra.
Qed.

End Matrix.

Lemma check_P_Density :
  check2_slope_scaled (rho_P Density.C) 0 (1 # 8) (1 # 2) sg_P p_cells_4 dt_cells_4 = true.
Proof. vm_cast_no_check (eq_refl true). Qed.

Lemma check_P_DensityCF :
  check2_slope_scaled (rho_P DensityCF.C) 0 (1 # 8) (1 # 2) sg_P p_cells_4 dt_cells_4 = true.
Proof. vm_cast_no_check (eq_refl true). Qed.

Lemma check_T_Density :
  check2_slope_scaled (rho_T Density.C) 0 (1 # 2) (1 # 16) sg_T dt_cells_10 p_cells_8 = true.
Proof. vm_cast_no_check (eq_refl true). Qed.

Lemma check_T_DensityCF :
  check2_slope_scaled (rho_T DensityCF.C) 0 (1 # 2) (1 # 16) sg_T dt_cells_10 p_cells_8 = true.
Proof. vm_cast_no_check (eq_refl true). Qed.

(** With the coefficients of [Density] the density falls by at least 0.001 kg/m3 per
    degree between 10 and 40 C. *)
Lemma check_T_Density_strict :
  check2_slope_scaled (rho_T Density.C) (- (1 # 1000)) (1 # 2) (1 # 16) sg_T
    dt_cells_10 p_cells_8 = true.
Proof. vm_cast_no_check (eq_refl true). Qed.

Local Open Scope Qc_scope.




(** The same happens in the other revision; there the density also rises
    again above 40 C (pure ethanol between 45 and 50 C), and in the first
    one it still rises between 5 and 8 C at a mass fraction of one half. *)
Lemma density_increases_elsewhere :
  DensityCF.rho_p_t 0 (dec 0) < DensityCF.rho_p_t 0 (dec 4) /\
  DensityCF.rho_p_t 1 (dec 45) < DensityCF.rho_p_t 1 (dec 50) /\
  Density.rho_p_t (dec 0.5) (dec 5) < Density.rho_p_t (dec 0.5) (dec 8).
Proof. repeat split; number_cmp. Qed.

Local Close Scope Qc_scope.
Local Close Scope Q_scope.

Local Open Scope Q_scope.

(** * The contraction of the mixture *)

Lemma rows_sum_eval (M : poly2) (y : Q) : peval (rows_sum M) y == eval2 M 1 y.
Proof.
  induction M as [|row M IH]; cbn [rows_sum eval2 peval]; [reflexivity|].
  rewrite peval_padd, IH. ring.
Qed.

Lemma quot1_spec (M : poly2) (x y : Q) :
  eval2 M 1 y - eval2 M x y == (1 - x) * eval2 (quot1 M) x y.
Proof.
  induction M as [|row M IH]; cbn [quot1 eval2]; [ring|].
  rewrite rows_sum_eval.
  setoid_replace (eval2 M x y) with (eval2 M 1 y - (1 - x) * eval2 (quot1 M) x y)
    by (rewrite <- IH; ring).
  ring.
Qed.

(** The algebra behind the check. *)
Lemma contraction_identity (p R0 S S1 D : Q) :
  S1 - S == (1 - p) * D ->
  (R0 + p * S) * (p * R0 + (1 - p) * (R0 + S1)) - R0 * (R0 + S1)
  == p * (1 - p) * (S * S1 - R0 * D).
Proof.
  intros E.
  setoid_replace S1 with (S + (1 - p) * D) by (rewrite <- E; ring).
  ring.
Qed.

Lemma pospart_spec (x : Q) : 0 <= pospart x /\ x <= pospart x.
Proof.
  unfold pospart. destruct (Qle_bool 0 x) eqn:E.
  - apply Qle_bool_iff in E. split; lra.
  - assert (~ 0 <= x) by (rewrite <- Qle_bool_iff; congruence). split; lra.
Qed.

Section Contraction.

Variable C : list (nat * nat * number).
Variable K : Q.

Lemma ends_at_comp (y y' : Q) : y == y' -> ends_at C y -> ends_at C y'.
Proof. unfold ends_at. intros Ey. rewrite Ey. tauto. Qed.

Lemma contraction_at_comp (x x' y y' : Q) :
  x == x' -> y == y' -> contraction_at C K x y -> contraction_at C K x' y'.
Proof. unfold contraction_at, ends_at. intros Ex Ey. rewrite Ex, Ey. tauto. Qed.

Lemma cell_ends_sound (ylo yhi : Q) :
  cell_ends (scale1 (S1_P C) 1 ten18) (scale1 (rho0_P C) 1 ten18) ylo yhi = true ->
  forall y, ylo <= y -> y <= yhi -> ends_at C (1 * y).
Proof.
  unfold cell_ends. intros H y Hy1 Hy2.
  pose proof (itv1_scaled_sound (S1_P C) 1 ten18 ylo yhi y eq_refl Hy1 Hy2)
    as [HS1l HS1u].
  pose proof (itv1_scaled_sound (rho0_P C) 1 ten18 ylo yhi y eq_refl Hy1 Hy2)
    as [HR0l HR0u].
  destruct (itv_div (itv1 (scale1 (S1_P C) 1 ten18) ylo yhi) ten18) as [S1lo S1hi].
  destruct (itv_div (itv1 (scale1 (rho0_P C) 1 ten18) ylo yhi) ten18) as [r0lo r0hi].
  cbn [fst snd] in *.
  repeat (apply andb_true_iff in H; destruct H as [H ?]).
  repeat match goal with
         | H : Qle_bool _ _ = true |- _ => apply Qle_bool_iff in H
         end.
  unfold ends_at. repeat split; lra.
Qed.

Lemma check_ends_sound (cs : list Q) (ylo ylo' yhi : Q) :
  check_ends C (ylo :: ylo' :: cs) = true -> last cs ylo' = yhi ->
  forall y, ylo <= y -> y <= yhi -> ends_at C y.
Proof.
  unfold check_ends. cbv zeta. intros H <- y Hy1 Hy2.
  apply ends_at_comp with (1 * y); [ring|].
  revert y Hy1 Hy2.
  apply (cells_all_cover _ (fun y => ends_at C (1 * y)) cs) with (2 := H).
  intros lo hi Hc y Hy1 Hy2. apply (cell_ends_sound lo hi Hc); assumption.
Qed.

(** Cells are in sixteenths of mass fraction. *)
Lemma cell_contraction_sound (ylo yhi a b : Q) :
  cell_contraction (scale2 (S_P C) (1 # 16) 1 sg_contraction)
    (scale2 (D_P C) (1 # 16) 1 sg_contraction)
    (scale1 (S1_P C) 1 ten18) (scale1 (rho0_P C) 1 ten18) K ylo yhi a b = true ->
  forall x y, a <= x -> x <= b -> ylo <= y -> y <= yhi ->
    contraction_at C K ((1 # 16) * x) (1 * y).
Proof.
  unfold cell_contraction. intros H x y Hx1 Hx2 Hy1 Hy2.
  pose proof (itv2_scaled_sound (S_P C) (1 # 16) 1 sg_contraction ylo yhi a b x y
                eq_refl Hx1 Hx2 Hy1 Hy2) as [_ HS].
  pose proof (itv2_scaled_sound (D_P C) (1 # 16) 1 sg_contraction ylo yhi a b x y
                eq_refl Hx1 Hx2 Hy1 Hy2) as [_ HD].
  pose proof (itv1_scaled_sound (S1_P C) 1 ten18 ylo yhi y eq_refl Hy1 Hy2)
    as [_ HS1u].
  destruct (itv_div (itv2 (scale2 (S_P C) (1 # 16) 1 sg_contraction) ylo yhi a b)
              sg_contraction) as [Slo Shi].
  destruct (itv_div (itv2 (scale2 (D_P C) (1 # 16) 1 sg_contraction) ylo yhi a b)
              sg_contraction) as [Dlo Dhi].
  assert (HS1 : snd (itv_div (itv1 (scale1 (S1_P C) 1 ten18) ylo yhi) ten18) <= 0).
  { apply andb_true_iff in H as [H _]. apply andb_true_iff in H as [H _].
    unfold cell_ends in H.
    destruct (itv_div (itv1 (scale1 (S1_P C) 1 ten18) ylo yhi) ten18) as [S1lo S1hi].
    destruct (itv_div (itv1 (scale1 (rho0_P C) 1 ten18) ylo yhi) ten18) as [r0lo r0hi].
    repeat (apply andb_true_iff in H; destruct H as [H ?]).
    apply Qle_bool_iff in H. exact H. }
  destruct (itv_div (itv1 (scale1 (S1_P C) 1 ten18) ylo yhi) ten18) as [S1lo S1hi].
  cbn [fst snd] in *.
  apply andb_true_iff in H as [H H3]. apply andb_true_iff in H as [H1 H2].
  apply Qle_bool_iff in H2, H3.
  pose proof (cell_ends_sound ylo yhi H1 y Hy1 Hy2) as HE.
  destruct (pospart_spec Dhi) as [HP0 HP1].
  unfold contraction_at. split; [exact HE|].
  unfold ends_at in HE.
  set (S := eval2 (S_P C) ((1 # 16) * x) (1 * y)) in *.
  set (D := eval2 (D_P C) ((1 # 16) * x) (1 * y)) in *.
  set (S1 := peval (S1_P C) (1 * y)) in *. set (R0 := peval (rho0_P C) (1 * y)) in *.
  set (PD := pospart Dhi) in *. clearbody S D S1 R0 PD.
  assert (H7 : Shi * S1hi <= S * S1) by nra.
  assert (H8 : R0 * D <= 1001 * PD) by nra.
  lra.
Qed.

Lemma check_contraction_sound (bs cs : list Q) (a a' b ylo ylo' yhi : Q) :
  check_contraction C K (a :: a' :: bs) (ylo :: ylo' :: cs) = true ->
  last bs a' = b -> last cs ylo' = yhi ->
  forall x y, (1 # 16) * a <= x -> x <= (1 # 16) * b -> ylo <= y -> y <= yhi ->
    contraction_at C K x y.
Proof.
  unfold check_contraction. cbv zeta. intros H <- <- x y Hx1 Hx2 Hy1 Hy2.
  apply contraction_at_comp with ((1 # 16) * (16 * x)) (1 * y); [ring | ring |].
  assert (Hx1' : a <= 16 * x) by lra.
  assert (Hx2' : 16 * x <= last bs a') by lra.
  revert Hx1' Hx2'. generalize (16 * x). clear x Hx1 Hx2. intros x Hx1 Hx2.
  revert y Hy1 Hy2.
  apply (cells_all_cover _ (fun y => contraction_at C K ((1 # 16) * x) (1 * y)) cs)
    with (2 := H).
  intros lo hi Hc y Hy1 Hy2.
  revert x Hx1 Hx2.
  apply (cells_all_cover _ (fun x => contraction_at C K ((1 # 16) * x) (1 * y)) bs)
    with (2 := Hc).
  intros p p' Hp x Hx1 Hx2.
  apply (cell_contraction_sound lo hi p p' Hp); assumption.
Qed.

End Contraction.

Lemma quotient_lower (G N c M : Q) :
  0 < N -> N <= M -> 0 <= c -> c * M <= G -> c <= G / N.
Proof.
  intros HN HM Hc HG. apply Qle_shift_div_l; [assumption|]. nra.
Qed.

Lemma quotient_upper (Y N : Q) : 0 < N -> Y <= 2 * N -> Y / N <= 2.
Proof.
  intros HN HY. apply Qle_shift_div_r; [assumption|]. lra.
Qed.

Section Ends.

Variable C : list (nat * nat * number).
Hypothesis HP : rho_P C = rho0_P C :: S_P C.

Lemma rho_P_parts (p dt : Q) :
  eval2 (rho_P C) p dt == peval (rho0_P C) dt + p * eval2 (S_P C) p dt.
Proof. rewrite HP at 1. reflexivity. Qed.

Lemma S1_P_eval (dt : Q) : eval2 (S_P C) 1 dt == peval (S1_P C) dt.
Proof. unfold S1_P. rewrite rows_sum_eval. reflexivity. Qed.

(** The densities of water and of ethanol at an offset where the ends are
    as checked. *)
Lemma ends_at_rho (t : number) :
  ends_at C (this t - 20) ->
  988 <= this (rho_p_t C 0%Qc t) <= 1001 /\
  764 <= this (rho_p_t C 1%Qc t) <= 837.
Proof.
  unfold ends_at. intros H.
  rewrite !rho_p_t_P, !rho_P_parts, S1_P_eval.
  change (this 0%Qc) with 0. change (this 1%Qc) with 1.
  revert H. generalize (peval (rho0_P C) (this t - 20)) (peval (S1_P C) (this t - 20))
                       (eval2 (S_P C) 0 (this t - 20)).
  intros R0 S1 S0 H. lra.
Qed.

Hypothesis HE : check_ends C dt_cells_6 = true.
Hypothesis HM :
  check2_slope_scaled (rho_P C) 0 (1 # 8) (1 # 2) sg_P p_cells_4 dt_cells_4 = true.

(** Between -10 and 50 C every mixture is lighter than water and heavier
    than ethanol: its density lies between 764 and 1001 kg/m3. *)
Lemma rho_bounds (p t : number) :
  (0 <= p)%Qc -> (p <= 1)%Qc -> (- dec 10 <= t)%Qc -> (t <= dec 50)%Qc ->
  764 <= this (rho_p_t C p t) <= 1001.
Proof.
  intros Hp0 Hp1 Ht0 Ht1.
  pose proof (rho_decreasing_in_p C p 1%Qc t HM Hp0 Hp1 (Qcle_refl _) Ht0 Ht1) as M1.
  pose proof (rho_decreasing_in_p C 0%Qc p t HM (Qcle_refl _) Hp0 Hp1 Ht0 Ht1) as M0.
  unfold Qcle in *. autorewrite with toQ in Ht0, Ht1.
  destruct (ends_at_rho t) as [B0 B1]; [|lra].
  apply (check_ends_sound C _ _ _ 30 HE eq_refl); lra.
Qed.

End Ends.

Section Factor.

Variable C : list (nat * nat * number).
Hypothesis HC : cross_ok C = true.
Hypothesis HP : rho_P C = rho0_P C :: S_P C.
Hypothesis HK : check_contraction C 10000 p_cells_8 dt_cells_6 = true.

(** The three densities of [calculateDensity] and the excess of the
    mixture over ideal mixing, for a mass fraction in [0, 1] and a
    temperature in [-10, 50]. *)
Lemma contraction_bounds (p t : number) :
  (0 <= p)%Qc -> (p <= 1)%Qc -> (- dec 10 <= t)%Qc -> (t <= dec 50)%Qc ->
  988 <= this (rho_p_t C 0%Qc t) <= 1001 /\
  764 <= this (rho_p_t C 1%Qc t) <= 837 /\
  this p * (1 - this p) * 10000
  <= this (rho_p_t C p t)
     * (this p * this (rho_p_t C 0%Qc t) + (1 - this p) * this (rho_p_t C 1%Qc t))
     - this (rho_p_t C 0%Qc t) * this (rho_p_t C 1%Qc t).
Proof.
  intros Hp0 Hp1 Ht0 Ht1. unfold Qcle in *.
  autorewrite with toQ in Hp0, Hp1, Ht0, Ht1.
  destruct (check_contraction_sound C 10000 _ _ _ _ 16 _ _ 30 HK eq_refl eq_refl
              (this p) (this t - 20)) as ((H1 & H2) & H3); try lra.
  rewrite !rho_p_t_P, !(rho_P_parts C HP).
  change (this 0%Qc) with 0. change (this 1%Qc) with 1.
  pose proof (S1_P_eval C (this t - 20)) as E1.
  rewrite E1.
  pose proof (quot1_spec (S_P C) (this p) (this t - 20)) as E2.
  rewrite E1 in E2. fold (D_P C) in E2.
  revert H1 H2 H3 E2.
  generalize (peval (rho0_P C) (this t - 20)) (peval (S1_P C) (this t - 20))
             (eval2 (S_P C) (this p) (this t - 20))
             (eval2 (D_P C) (this p) (this t - 20))
             (eval2 (S_P C) 0 (this t - 20)).
  intros R0 S1 S D S0 H1 H2 H3 E2.
  split; [lra|]. split; [lra|].
  setoid_replace (0 * S0) with 0 by ring.
  setoid_replace (R0 + 1 * S1) with (R0 + S1) by ring.
  setoid_replace (R0 + 0) with R0 by ring.
  rewrite (contraction_identity (this p) R0 S S1 D E2).
  assert (0 <= this p * (1 - this p)) by nra. nra.
Qed.

End Factor.

Local Close Scope Q_scope.

Local Open Scope Qc_scope.
Local Open Scope num_scope.

(** * The contraction factor *)

(** Six-decimal rounding of a number between 1 and 2. *)
Lemma toFixed_6_from_1 (x : number) :
  1 <= x -> x <= dec 2 ->
  1 <= toFixed x 6 /\ (dec 1.0000005 <= x -> dec 1.000001 <= toFixed x 6).
Proof.
  intros H1 H2. rewrite toFixed_small_nonneg by qlra. rewrite pow10_6.
  destruct (floor_bounds (x * dec 1000000 + dec 0.5)) as [Hl Hu].
  revert Hl Hu. generalize (floor (x * dec 1000000 + dec 0.5)). intros n Hl Hu.
  autorewrite with toQ in Hl, Hu.
  split.
  - assert (Hn : (1000000 <= n)%Z).
    { apply Z.lt_succ_r, Z.lt_pred_lt_succ. rewrite Zlt_Qlt. toQ.
      change (inject_Z (Z.pred 1000000)) with 999999%Q. lra. }
    rewrite Zle_Qle in Hn. change (inject_Z 1000000) with 1000000%Q in Hn. qlra.
  - intros H3.
    assert (Hn : (1000001 <= n)%Z).
    { apply Z.lt_succ_r, Z.lt_pred_lt_succ. rewrite Zlt_Qlt. toQ.
      change (inject_Z (Z.pred 1000001)) with 1000000%Q. lra. }
    rewrite Zle_Qle in Hn. change (inject_Z 1000001) with 1000001%Q in Hn. qlra.
Qed.

Lemma toFixed_6_of_1 : toFixed 1 6 = 1.
Proof. number_eq. Qed.

(** Below 1.0000005 the sixth decimal rounds down to 1. *)
Lemma toFixed_6_near_1 (x : number) :
  1 <= x -> x < dec 1.0000005 -> toFixed x 6 = 1.
Proof.
  intros H1 H2. rewrite toFixed_small_nonneg by qlra. rewrite pow10_6.
  destruct (floor_bounds (x * dec 1000000 + dec 0.5)) as [Hl Hu].
  revert Hl Hu. generalize (floor (x * dec 1000000 + dec 0.5)). intros n Hl Hu.
  autorewrite with toQ in Hl, Hu.
  assert (Hn : n = 1000000%Z).
  { apply Z.le_antisymm.
    - apply Z.lt_succ_r. rewrite Zlt_Qlt. toQ.
      change (inject_Z (Z.succ 1000000)) with 1000001%Q. lra.
    - apply Z.lt_succ_r, Z.lt_pred_lt_succ. rewrite Zlt_Qlt. toQ.
      change (inject_Z (Z.pred 1000000)) with 999999%Q. lra. }
  subst n. number_eq.
Qed.

(** The expression of [calculateDensity], as one quotient. *)
Lemma contraction_quotient (p R R0 R1 : number) :
  R <> 0 -> R0 <> 0 -> R1 <> 0 ->
  (p / (R1 / dec 1000) + (1 - p) / (R0 / dec 1000)) / (1 / (R / dec 1000))
  = R * (p * R0 + (1 - p) * R1) / (R0 * R1).
Proof.
  intros HR HR0 HR1. field. repeat split; try assumption; discriminate.
Qed.

Lemma product_bounds (a b al au bl bu : Q) :
  (0 <= al -> al <= a -> a <= au -> 0 <= bl -> bl <= b -> b <= bu ->
   al * bl <= a * b /\ a * b <= au * bu)%Q.
Proof. intros. split; nra. Qed.

Section Factor.

Variable C : list (nat * nat * number).
Hypothesis HC : cross_ok C = true.
Hypothesis HP : rho_P C = rho0_P C :: S_P C.
Hypothesis HK : check_contraction C 10000 p_cells_8 dt_cells_6 = true.
Hypothesis HM :
  check2_slope_scaled (rho_P C) 0 (1 # 8) (1 # 2) sg_P p_cells_4 dt_cells_4 = true.

(** Before rounding the contraction factor lies between 1 and 2, and it
    exceeds 1 by at least [p * (1 - p) * 10000 / 837837]. *)
Lemma contraction_raw_bounds (p t : number) :
  0 <= p -> p <= 1 -> - dec 10 <= t -> t <= dec 50 ->
  1 + p * (1 - p) * dec (10000 # 837837) <= contraction_raw C p t /\
  contraction_raw C p t <= dec 2.
Proof.
  intros Hp0 Hp1 Ht0 Ht1.
  destruct (contraction_bounds C HP HK p t Hp0 Hp1 Ht0 Ht1) as (B0 & B1 & BG).
  pose proof (rho_decreasing_in_p C p 1 t HM Hp0 Hp1 (Qcle_refl _) Ht0 Ht1) as M1.
  pose proof (rho_decreasing_in_p C 0 p t HM (Qcle_refl _) Hp0 Hp1 Ht0 Ht1) as M0.
  unfold contraction_raw. cbv zeta.
  revert B0 B1 BG M0 M1.
  generalize (rho_p_t C p t) (rho_p_t C 0 t) (rho_p_t C 1 t).
  intros R R0 R1 B0 B1 BG M0 M1.
  assert (HR0 : R0 <> 0) by (toQ; lra).
  assert (HR1 : R1 <> 0) by (toQ; lra).
  assert (HR : R <> 0) by (toQ; lra).
  rewrite contraction_quotient by assumption.
  unfold Qcle in *. autorewrite with toQ in *.
  set (G := (this R * (this p * this R0 + (1 - this p) * this R1)
             - this R0 * this R1)%Q) in *.
  assert (EG : (this R * (this p * this R0 + (1 - this p) * this R1)
                / (this R0 * this R1) == 1 + G / (this R0 * this R1))%Q).
  { subst G. field. split; lra. }
  rewrite EG. clear EG.
  assert (HG : (G <= this R0 * this R1)%Q).
  { subst G.
    assert (W1 : (0 <= this p * (this R0 - this R1))%Q) by nra.
    assert (W2 : (0 <= (1 - this p) * (this R0 - this R1))%Q) by nra.
    destruct (product_bounds (this R)
                (this p * this R0 + (1 - this p) * this R1)
                764 (this R0) 764 (this R0)) as [_ HY]; try lra.
    destruct (product_bounds (this R0) (2 * this R1 - this R0) 988 1001 0 2000)
      as [HZ _]; lra. }
  clearbody G.
  destruct (product_bounds (this R0) (this R1) 988 1001 764 837) as [HNl HNu];
    try lra.
  assert (HN : (0 < this R0 * this R1)%Q) by lra.
  assert (Hc : (0 <= this p * (1 - this p) * (10000 # 837837))%Q) by nra.
  split.
  - pose proof (quotient_lower G (this R0 * this R1)
                  (this p * (1 - this p) * (10000 # 837837)) 837837
                  HN HNu Hc ltac:(lra)). lra.
  - assert (HQ : (G / (this R0 * this R1) <= 1)%Q).
    { apply Qle_shift_div_r; [assumption | lra]. }
    lra.
Qed.

(** It exceeds 1 by at most [p * 237 / 764]. *)
Lemma contraction_raw_small (p t : number) :
  0 <= p -> p <= 1 -> - dec 10 <= t -> t <= dec 50 ->
  contraction_raw C p t <= 1 + p * dec (237 # 764).
Proof.
  intros Hp0 Hp1 Ht0 Ht1.
  destruct (contraction_bounds C HP HK p t Hp0 Hp1 Ht0 Ht1) as (B0 & B1 & _).
  pose proof (rho_decreasing_in_p C p 1 t HM Hp0 Hp1 (Qcle_refl _) Ht0 Ht1) as M1.
  pose proof (rho_decreasing_in_p C 0 p t HM (Qcle_refl _) Hp0 Hp1 Ht0 Ht1) as M0.
  unfold contraction_raw. cbv zeta.
  revert B0 B1 M0 M1.
  generalize (rho_p_t C p t) (rho_p_t C 0 t) (rho_p_t C 1 t).
  intros R R0 R1 B0 B1 M0 M1.
  assert (HR0 : R0 <> 0) by (toQ; lra).
  assert (HR1 : R1 <> 0) by (toQ; lra).
  assert (HR : R <> 0) by (toQ; lra).
  rewrite contraction_quotient by assumption.
  unfold Qcle in *. autorewrite with toQ in *.
  destruct (product_bounds (this R0) (this R1) 988 1001 764 837) as [HNl HNu];
    try lra.
  apply Qle_shift_div_r; [lra|].
  set (X := (this p * this R0 + (1 - this p) * this R1)%Q).
  assert (HX0 : (0 <= X)%Q) by (subst X; nra).
  assert (HX1 : (X <= (1 + this p * (237 # 764)) * this R1)%Q) by (subst X; nra).
  clearbody X.
  assert (H1 : (this R * X <= this R0 * X)%Q) by nra.
  assert (H2 : (this R0 * X <= this R0 * ((1 + this p * (237 # 764)) * this R1))%Q)
    by nra.
  lra.
Qed.

(** A proof of at most 0.00009 % ABV is a mass fraction of at most
    0.0000016. *)
Lemma abvToMassFraction_small (abv : number) :
  abv <= dec 0.00009 -> abvToMassFraction C abv <= dec 0.0000016.
Proof.
  intros H1. rewrite abvToMassFraction_eq.
  destruct (abv <=? 0) eqn:E1; [qlra|]. apply leb_false in E1.
  destruct (abv >=? dec 100) eqn:E2; [apply geb_true in E2; exfalso; qlra|].
  destruct (abv_loop_vol C HC (abv / dec 100)) as (Ha & _ & _); [qlra | qlra |].
  cbv zeta in Ha.
  destruct (abv_loop_inside C 39 (abv / dec 100) 0 1 (dec 0.5)) as [Hp0 Hp1];
    [qlra|].
  revert Ha Hp0 Hp1. generalize (abv_loop C 40 (abv / dec 100) 0 1 (dec 0.5)).
  intros p Ha Hp0 Hp1.
  destruct (vol_slope C HC 0 p) as [S0 _]; try qlra.
  rewrite (vol_0 C HC) in S0.
  revert Ha S0. generalize (vol C p). intros v Ha S0. qlra.
Qed.

(** A proof of at least 0.01 and at most 99.99 % ABV is a mass fraction
    away from both ends. *)
Lemma abvToMassFraction_interior (abv : number) :
  dec 0.01 <= abv -> abv <= dec 99.99 ->
  dec 0.000076 <= abvToMassFraction C abv /\
  abvToMassFraction C abv <= 1 - dec 0.000076.
Proof.
  intros H0 H1. rewrite abvToMassFraction_eq.
  destruct (abv <=? 0) eqn:E1; [apply leb_true in E1; exfalso; qlra|].
  destruct (abv >=? dec 100) eqn:E2; [apply geb_true in E2; exfalso; qlra|].
  destruct (abv_loop_vol C HC (abv / dec 100)) as (Ha & _ & Hc); [qlra | qlra |].
  cbv zeta in Ha, Hc.
  destruct (abv_loop_inside C 39 (abv / dec 100) 0 1 (dec 0.5)) as [Hp0 Hp1];
    [qlra|].
  revert Ha Hc Hp0 Hp1. generalize (abv_loop C 40 (abv / dec 100) 0 1 (dec 0.5)).
  intros p Ha Hc Hp0 Hp1.
  destruct (vol_slope C HC 0 p) as [_ S0]; try qlra.
  destruct (vol_slope C HC p 1) as [_ S1]; try qlra.
  rewrite (vol_0 C HC) in S0. rewrite (vol_1 C HC) in S1, Hc.
  assert (Hc' : abv / dec 100 - vol C p <= dec 1.3 / dec 1099511627776)
    by (apply Hc; qlra).
  clear Hc. revert Ha Hc' S0 S1. generalize (vol C p). intros v Ha Hc S0 S1.
  split; qlra.
Qed.

Lemma contraction_raw_ends (t : number) :
  - dec 10 <= t -> t <= dec 50 ->
  contraction_raw C 0 t = 1 /\ contraction_raw C 1 t = 1.
Proof.
  intros Ht0 Ht1.
  destruct (contraction_bounds C HP HK 0 t (Qcle_refl _) ltac:(qlra) Ht0 Ht1)
    as (B0 & B1 & _).
  unfold contraction_raw. cbv zeta.
  revert B0 B1. generalize (rho_p_t C 0 t) (rho_p_t C 1 t). intros R0 R1 B0 B1.
  assert (HR0 : R0 <> 0) by (toQ; lra).
  assert (HR1 : R1 <> 0) by (toQ; lra).
  split; rewrite contraction_quotient by assumption;
    match goal with |- @eq number ?a ?b => change (@eq Qc a b) end;
    field; split; assumption.
Qed.

(** The returned contraction factor, for any ABV and a temperature in
    [-10, 50]. *)
Lemma contraction_factor_bounds (abv t : number) :
  - dec 10 <= t -> t <= dec 50 ->
  1 <= toFixed (contraction_raw C (abvToMassFraction C abv) t) 6 /\
  (abv <= 0 \/ dec 100 <= abv ->
   toFixed (contraction_raw C (abvToMassFraction C abv) t) 6 = 1) /\
  (dec 0.01 <= abv -> abv <= dec 99.99 ->
   1 < toFixed (contraction_raw C (abvToMassFraction C abv) t) 6) /\
  (abv <= dec 0.00009 ->
   toFixed (contraction_raw C (abvToMassFraction C abv) t) 6 = 1).
Proof.
  intros Ht0 Ht1.
  destruct (abvToMassFraction_range C abv) as [Hp0 Hp1].
  destruct (contraction_raw_bounds (abvToMassFraction C abv) t Hp0 Hp1 Ht0 Ht1)
    as [Hl Hu].
  destruct (contraction_raw_ends t Ht0 Ht1) as [E0 E1].
  pose proof (contraction_raw_small (abvToMassFraction C abv) t Hp0 Hp1 Ht0 Ht1)
    as Hs.
  split; [|split; [|split]].
  - apply toFixed_6_from_1; [|assumption].
    revert Hl Hp0 Hp1. generalize (contraction_raw C (abvToMassFraction C abv) t)
                                  (abvToMassFraction C abv).
    intros x p Hl Hp0 Hp1. toQ.
    assert (0 <= this p * (1 - this p))%Q by nra. lra.
  - intros [Ha | Ha].
    + rewrite abvToMassFraction_eq.
      replace (abv <=? 0) with true by (symmetry; apply leb_true; assumption).
      rewrite E0. apply toFixed_6_of_1.
    + rewrite abvToMassFraction_eq.
      destruct (abv <=? 0); [rewrite E0; apply toFixed_6_of_1|].
      replace (abv >=? dec 100) with true by (symmetry; apply geb_true; assumption).
      rewrite E1. apply toFixed_6_of_1.
  - intros Ha0 Ha1.
    destruct (abvToMassFraction_interior abv Ha0 Ha1) as [Hi0 Hi1].
    apply Qclt_le_trans with (dec 1.000001); [number_cmp|].
    apply toFixed_6_from_1; try assumption.
    + revert Hl Hp0 Hp1. generalize (contraction_raw C (abvToMassFraction C abv) t)
                                    (abvToMassFraction C abv).
      intros x p Hl Hp0 Hp1. toQ.
      assert (0 <= this p * (1 - this p))%Q by nra. lra.
    + revert Hl Hi0 Hi1. generalize (contraction_raw C (abvToMassFraction C abv) t)
                                    (abvToMassFraction C abv).
      intros x p Hl Hi0 Hi1. toQ.
      assert (0.000076 * (1 - 0.000076) <= this p * (1 - this p))%Q by nra. lra.
  - intros Ha. pose proof (abvToMassFraction_small abv Ha) as Hi.
    apply toFixed_6_near_1.
    + revert Hl Hp0 Hp1. generalize (contraction_raw C (abvToMassFraction C abv) t)
                                    (abvToMassFraction C abv).
      intros x p Hl Hp0 Hp1. toQ.
      assert (0 <= this p * (1 - this p))%Q by nra. lra.
    + revert Hs Hi. generalize (contraction_raw C (abvToMassFraction C abv) t)
                               (abvToMassFraction C abv).
      intros x p Hs Hi. qlra.
Qed.

End Factor.

Lemma rho_P_CF_rows : rho_P DensityCF.C = rho0_P DensityCF.C :: S_P DensityCF.C.
Proof. reflexivity. Qed.

Lemma check_contraction_CF :
  check_contraction DensityCF.C 10000 p_cells_8 dt_cells_6 = true.
Proof. vm_cast_no_check (eq_refl true). Qed.

(** The contraction factor of the second revision, for any ABV and a
    temperature in [-10, 50]. *)
Lemma contraction_factor_CF (abv tempC : number) :
  - dec 10 <= tempC -> tempC <= dec 50 ->
  1 <= DensityCF.contractionFactor (DensityCF.calculateDensity abv tempC) /\
  (abv <= 0 \/ dec 100 <= abv ->
   DensityCF.contractionFactor (DensityCF.calculateDensity abv tempC) = 1) /\
  (dec 0.01 <= abv -> abv <= dec 99.99 ->
   1 < DensityCF.contractionFactor (DensityCF.calculateDensity abv tempC)) /\
  (abv <= dec 0.00009 ->
   DensityCF.contractionFactor (DensityCF.calculateDensity abv tempC) = 1).
Proof.
  exact (contraction_factor_bounds DensityCF.C eq_refl rho_P_CF_rows
           check_contraction_CF check_P_DensityCF abv tempC).
Qed.

(** C7, as the code has it: for every temperature in [-10, 50] the returned
    contraction factor is at least 1; it equals 1 when the ABV is at most 0
    or at least 100; and it is strictly greater than 1 when the ABV lies
    between 0.01 and 99.99. *)
Theorem contraction_factor_at_least_1 (abv tempC : number)
    (Hcold : - dec 10 <= tempC) (Hhot : tempC <= dec 50) :
  1 <= DensityCF.contractionFactor (DensityCF.calculateDensity abv tempC) /\
  (abv <= 0 \/ dec 100 <= abv ->
   DensityCF.contractionFactor (DensityCF.calculateDensity abv tempC) = 1) /\
  (dec 0.01 <= abv -> abv <= dec 99.99 ->
   1 < DensityCF.contractionFactor (DensityCF.calculateDensity abv tempC)).
Proof.
  destruct (contraction_factor_CF abv tempC Hcold Hhot) as (H1 & H2 & H3 & _).
  repeat split; assumption.
Qed.

Lemma contraction_factor_at_least_1_witness :
  (- dec 10 <= dec 20 /\ dec 20 <= dec 50) /\
  1 <= DensityCF.contractionFactor (DensityCF.calculateDensity (dec 50) (dec 20)) /\
  (dec 50 <= 0 \/ dec 100 <= dec 50 ->
   DensityCF.contractionFactor (DensityCF.calculateDensity (dec 50) (dec 20)) = 1) /\
  (dec 0.01 <= dec 50 -> dec 50 <= dec 99.99 ->
   1 < DensityCF.contractionFactor (DensityCF.calculateDensity (dec 50) (dec 20))).
Proof.
  assert (Hcold : - dec 10 <= dec 20) by number_cmp.
  assert (Hhot : dec 20 <= dec 50) by number_cmp.
  exact (conj (conj Hcold Hhot)
           (contraction_factor_at_least_1 (dec 50) (dec 20) Hcold Hhot)).
Defined.

(** C7, as stated, fails: at 0.00001 % ABV and 20 C, strictly between 0 and
    100, the returned contraction factor is 1.000000, not more. *)
Lemma contraction_factor_not_above_1 :
  0 < dec 0.00001 /\ dec 0.00001 < dec 100 /\
  ~ 1 < DensityCF.contractionFactor (DensityCF.calculateDensity (dec 0.00001) (dec 20)).
Proof.
  split; [number_cmp|]. split; [number_cmp|].
  destruct (contraction_factor_CF (dec 0.00001) (dec 20)) as (_ & _ & _ & H);
    [number_cmp | number_cmp |].
  rewrite H by number_cmp. apply Qcle_not_lt, Qcle_refl.
Qed.

Local Close Scope num_scope.
Local Close Scope Qc_scope.

Local Open Scope Qc_scope.
Local Open Scope num_scope.

(** * Reference values *)

(** Rounding is monotone. *)
Lemma toFixed_mono (x y : number) (f : nat) :
  0 <= x -> x <= y -> y < dec 1000000000000000000000 ->
  toFixed x f <= toFixed y f.
Proof.
  intros H0 Hxy H1. rewrite !toFixed_small_nonneg by qlra.
  pose proof (pow10_pos f) as HP. revert HP.
  generalize (Math_pow (dec 10) f). intros P HP.
  assert (Hn : Z.le (floor (x * P + dec 0.5)) (floor (y * P + dec 0.5))).
  { unfold floor. apply Qfloor_resp_le. toQ. nra. }
  revert Hn. generalize (floor (x * P + dec 0.5)) (floor (y * P + dec 0.5)).
  intros n m Hn. rewrite Zle_Qle in Hn.
  unfold Qcle, Qclt in *. autorewrite with toQ in *.
  apply Qmult_le_compat_r; [assumption|].
  apply Qlt_le_weak, Qinv_lt_0_compat. assumption.
Qed.

(** A number between two numbers that round to [v] rounds to [v]. *)
Lemma toFixed_between (x lo hi v : number) (f : nat) :
  0 <= lo -> lo <= x -> x <= hi -> hi < dec 1000000000000000000000 ->
  toFixed lo f = v -> toFixed hi f = v -> toFixed x f = v.
Proof.
  intros H0 H1 H2 H3 <- E.
  apply Qcle_antisym.
  - rewrite <- E. apply toFixed_mono; [qlra | assumption | assumption].
  - apply toFixed_mono; [assumption | assumption | qlra].
Qed.

Section Between.

Variable C : list (nat * nat * number).
Hypothesis HC : cross_ok C = true.

(** The mass fraction of an ABV lies between two mass fractions whose
    volume fractions are off by more than the tolerance of the search. *)
Lemma abvToMassFraction_between (abv a b : number) :
  0 < abv -> abv < dec 100 -> abv / dec 100 <= vol C 1 ->
  0 <= a -> a <= 1 -> 0 <= b -> b <= 1 ->
  vol C a < abv / dec 100 - dec 1.3 / dec 1099511627776 ->
  abv / dec 100 + dec 1.3 / dec 1099511627776 < vol C b ->
  a < abvToMassFraction C abv /\ abvToMassFraction C abv < b.
Proof.
  intros H0 H1 HT Ha0 Ha1 Hb0 Hb1 Hva Hvb. rewrite abvToMassFraction_eq.
  destruct (abv <=? 0) eqn:E1; [apply leb_true in E1; exfalso; qlra|].
  destruct (abv >=? dec 100) eqn:E2; [apply geb_true in E2; exfalso; qlra|].
  destruct (abv_loop_vol C HC (abv / dec 100)) as (Hu & _ & Hl); [qlra | qlra |].
  cbv zeta in Hu, Hl. specialize (Hl HT).
  destruct (abv_loop_inside C 39 (abv / dec 100) 0 1 (dec 0.5)) as [Hp0 Hp1];
    [qlra|].
  revert Hu Hl Hp0 Hp1. generalize (abv_loop C 40 (abv / dec 100) 0 1 (dec 0.5)).
  intros p Hu Hl Hp0 Hp1. split.
  - destruct (Qclt_le_dec a p) as [H | H]; [assumption | exfalso].
    pose proof (vol_mono C HC p a ltac:(qlra) H Ha1) as Hm.
    revert Hm Hl Hva. generalize (vol C p) (vol C a). intros u w Hm Hl Hva. qlra.
  - destruct (Qclt_le_dec p b) as [H | H]; [assumption | exfalso].
    pose proof (vol_mono C HC b p Hb0 H ltac:(qlra)) as Hm.
    revert Hm Hu Hvb. generalize (vol C p) (vol C b). intros u w Hm Hu Hvb. qlra.
Qed.

(** The density at 20 C of such an ABV, when the densities at the two
    mass fractions round to the same six decimals. *)
Lemma density_20_between (abv a b v : number) :
  0 < abv -> abv < dec 100 -> abv / dec 100 <= vol C 1 ->
  0 <= a -> a <= 1 -> 0 <= b -> b <= 1 ->
  vol C a < abv / dec 100 - dec 1.3 / dec 1099511627776 ->
  abv / dec 100 + dec 1.3 / dec 1099511627776 < vol C b ->
  0 <= rho_p_t C b (dec 20) / dec 1000 ->
  rho_p_t C a (dec 20) / dec 1000 < dec 1000000000000000000000 ->
  toFixed (rho_p_t C b (dec 20) / dec 1000) 6 = v ->
  toFixed (rho_p_t C a (dec 20) / dec 1000) 6 = v ->
  toFixed (rho_p_t C (abvToMassFraction C abv) (dec 20) / dec 1000) 6 = v.
Proof.
  intros H0 H1 HT Ha0 Ha1 Hb0 Hb1 Hva Hvb Hlo Hhi Elo Ehi.
  destruct (abvToMassFraction_between abv a b H0 H1 HT Ha0 Ha1 Hb0 Hb1 Hva Hvb)
    as [Ha Hb].
  destruct (abvToMassFraction_range C abv) as [Hp0 Hp1].
  revert Ha Hb Hp0 Hp1. generalize (abvToMassFraction C abv).
  intros p Ha Hb Hp0 Hp1.
  pose proof (rho20_decreasing C HC a p Ha0 Ha Hp1) as Ra.
  pose proof (rho20_decreasing C HC p b Hp0 Hb Hb1) as Rb.
  clear Hva Hvb HT.
  revert Hlo Hhi Elo Ehi Ra Rb.
  generalize (rho_p_t C a (dec 20)) (rho_p_t C b (dec 20)) (rho_p_t C p (dec 20)).
  intros ra rb rp Hlo Hhi Elo Ehi Ra Rb.
  apply toFixed_between with (rb / dec 1000) (ra / dec 1000);
    [assumption | qlra | qlra | assumption | assumption | assumption].
Qed.

End Between.

Lemma density_96_20 : Density.calculateDensity (dec 96) (dec 20) = dec 0.807419.
Proof.
  apply (density_20_between Density.C eq_refl (dec 96)
           (Q2Qc (1127 # 1201)) (Q2Qc (1523 # 1623)));
    [number_cmp .. | number_eq | number_eq].
Qed.

(** C1: the polynomial model reproduces the reference densities at 20 C for
    0, 100 and 96 % ABV within one unit of the sixth decimal. *)
Theorem reference_densities :
  Qcabs (Density.calculateDensity 0 (dec 20) - dec 0.998201) <= dec 0.000001 /\
  Qcabs (Density.calculateDensity (dec 100) (dec 20) - dec 0.789239) <= dec 0.000001 /\
  Qcabs (Density.calculateDensity (dec 96) (dec 20) - dec 0.807419) <= dec 0.000001.
Proof.
  rewrite density_0_20, density_100_20, density_96_20.
  repeat split; number_cmp.
Qed.

(** * Magnitudes *)

Lemma Qcabs_lt_of_bounds (x b : number) : - b < x -> x < b -> Qcabs x < b.
Proof.
  intros H1 H2. unfold Qclt in *. rewrite this_abs.
  autorewrite with toQ in H1. apply Qabs_Qlt_condition. split; assumption.
Qed.

Lemma quotient_magnitude (m d c B : Q) :
  (0 <= m -> m <= B -> 0 < c -> c <= d -> 0 <= m / d /\ m / d <= B / c)%Q.
Proof.
  intros Hm HB Hc Hd. split.
  - apply Qle_shift_div_l; lra.
  - apply Qle_shift_div_r; [lra|].
    assert (E : (B / c * d == B + B * (d - c) / c)%Q) by (field; lra).
    rewrite E.
    assert (0 <= B * (d - c) / c)%Q by (apply Qle_shift_div_l; nra).
    lra.
Qed.

Lemma check_ends_Density : check_ends Density.C dt_cells_6 = true.
Proof. vm_cast_no_check (eq_refl true). Qed.

Lemma rho_P_rows : rho_P Density.C = rho0_P Density.C :: S_P Density.C.
Proof. reflexivity. Qed.

(** Between -10 and 50 C the density of any mixture lies between 764 and
    1001 kg/m3. *)
Lemma Density_rho_bounds (p t : number) :
  0 <= p -> p <= 1 -> - dec 10 <= t -> t <= dec 50 ->
  dec 764 <= Density.rho_p_t p t /\ Density.rho_p_t p t <= dec 1001.
Proof.
  intros Hp0 Hp1 Ht0 Ht1.
  pose proof (rho_bounds Density.C rho_P_rows check_ends_Density check_P_Density
                p t Hp0 Hp1 Ht0 Ht1) as H.
  fold Density.rho_p_t in H. revert H. generalize (Density.rho_p_t p t).
  intros r H. split; qlra.
Qed.

Lemma density_magnitude (r : number) :
  dec 764 <= r -> r <= dec 1001 -> Qcabs (r / dec 1000) < dec 1000000000000000000000.
Proof. intros H0 H1. apply Qcabs_lt_of_bounds; qlra. Qed.

Lemma volume_magnitude (m d : number) :
  0 <= m -> m <= dec 1000000000000000 -> dec 0.7 <= d ->
  Qcabs (m / d) < dec 1000000000000000000000.
Proof.
  intros Hm0 Hm1 Hd. apply Qcabs_lt_of_bounds.
  - unfold Qcle, Qclt in *. autorewrite with toQ in *.
    destruct (quotient_magnitude (this m) (this d) 0.7 1000000000000000)
      as [H1 H2]; lra.
  - unfold Qcle, Qclt in *. autorewrite with toQ in *.
    destruct (quotient_magnitude (this m) (this d) 0.7 1000000000000000)
      as [H1 H2]; try lra.
    eapply Qle_lt_trans; [exact H2|]. reflexivity.
Qed.

Lemma dilution_magnitude (m p1 p2 : number) :
  0 <= m -> m <= dec 1000000000000000 -> 0 <= p1 -> p1 <= 1 ->
  dec 0.000076 <= p2 ->
  Qcabs (m * p1) < dec 1000000000000000000000 /\
  Qcabs (m * p1 / p2 - m) < dec 1000000000000000000000.
Proof.
  intros Hm0 Hm1 Hp0 Hp1 Hp2.
  unfold Qcle in *. autorewrite with toQ in *.
  assert (Hmp : (0 <= this m * this p1 /\ this m * this p1 <= 1000000000000000)%Q)
    by (split; nra).
  destruct (quotient_magnitude (this m * this p1) (this p2) 0.000076 1000000000000000)
    as [H1 H2]; try lra.
  assert (H3 : (1000000000000000 / 0.000076 <= 14000000000000000000)%Q)
    by (apply Qle_bool_iff; reflexivity).
  split; apply Qcabs_lt_of_bounds; unfold Qclt; autorewrite with toQ;
    revert H1 H2 H3;
    generalize (this m * this p1 / this p2)%Q (1000000000000000 / 0.000076)%Q;
    intros q c H1 H2 H3; lra.
Qed.


Local Close Scope num_scope.
Local Close Scope Qc_scope.

Local Open Scope Qc_scope.
Local Open Scope num_scope.

(** * Rounding, in general *)

Lemma Qpow_10_Z (f : nat) : (Qpow 10 f == inject_Z (10 ^ Z.of_nat f))%Q.
Proof.
  induction f as [|f IH]; [reflexivity|].
  cbn [Qpow]. rewrite IH, Nat2Z.inj_succ, Z.pow_succ_r by apply Nat2Z.is_nonneg.
  rewrite inject_Z_mult. reflexivity.
Qed.

Lemma toFixed_nonneg (x : number) (f : nat) : 0 <= x -> 0 <= toFixed x f.
Proof.
  intros H0. rewrite toFixed_eq.
  replace (x <? 0) with false by (symmetry; apply ltb_false; assumption).
  destruct (dec 1000000000000000000000 <=? x); [assumption|].
  pose proof (pow10_pos f) as HP. revert HP.
  generalize (Math_pow (dec 10) f). intros P HP.
  assert (Hn : Z.le 0 (floor (x * P + dec 0.5))).
  { unfold floor. change 0%Z with (Qfloor 0). apply Qfloor_resp_le. toQ. nra. }
  revert Hn. generalize (floor (x * P + dec 0.5)). intros n Hn.
  rewrite Zle_Qle in Hn. unfold Qcle, Qclt in *. autorewrite with toQ in *.
  apply Qle_shift_div_l; [assumption|]. lra.
Qed.

(** Below 10^21 the rounded value is at most 10^21. *)
Lemma toFixed_below (x : number) (f : nat) :
  0 <= x -> x < dec 1000000000000000000000 ->
  toFixed x f <= dec 1000000000000000000000.
Proof.
  intros H0 H1. rewrite toFixed_small_nonneg by assumption.
  destruct (floor_bounds (x * Math_pow (dec 10) f + dec 0.5)) as [Hl _].
  revert Hl. generalize (floor (x * Math_pow (dec 10) f + dec 0.5)). intros n Hl.
  pose proof (pow10_pos f) as HP.
  unfold Qcle, Qclt in *. autorewrite with toQ in *.
  pose proof (Qpow_10_Z f) as EP. revert HP EP Hl.
  generalize (Qpow 10 f) (10 ^ Z.of_nat f)%Z. intros P K HP EP Hl.
  assert (Hn : (n <= 1000000000000000000000 * K)%Z).
  { apply Z.lt_succ_r. rewrite Zlt_Qlt. unfold Z.succ.
    rewrite inject_Z_plus, inject_Z_mult, <- EP.
    change (inject_Z 1000000000000000000000) with 1000000000000000000000%Q.
    change (inject_Z 1) with 1%Q. nra. }
  rewrite Zle_Qle, inject_Z_mult, <- EP in Hn.
  change (inject_Z 1000000000000000000000) with 1000000000000000000000%Q in Hn.
  apply Qle_shift_div_r; [assumption|]. lra.
Qed.

Lemma toFixed_mono_nonneg (x y : number) (f : nat) :
  0 <= x -> x <= y -> toFixed x f <= toFixed y f.
Proof.
  intros H0 Hxy.
  destruct (Qclt_le_dec y (dec 1000000000000000000000)) as [Hy | Hy].
  - apply toFixed_mono; assumption.
  - rewrite (toFixed_eq y).
    replace (y <? 0) with false by (symmetry; apply ltb_false; qlra).
    replace (dec 1000000000000000000000 <=? y) with true
      by (symmetry; apply leb_true; assumption).
    destruct (Qclt_le_dec x (dec 1000000000000000000000)) as [Hx | Hx].
    + apply Qcle_trans with (dec 1000000000000000000000); [|assumption].
      apply toFixed_below; assumption.
    + rewrite (toFixed_eq x).
      replace (x <? 0) with false by (symmetry; apply ltb_false; assumption).
      replace (dec 1000000000000000000000 <=? x) with true
        by (symmetry; apply leb_true; assumption).
      assumption.
Qed.

(** [toFixed] is monotone. *)
Lemma toFixed_monotone (x y : number) (f : nat) :
  x <= y -> toFixed x f <= toFixed y f.
Proof.
  intros Hxy.
  destruct (Qclt_le_dec x 0) as [Hx | Hx]; [|apply toFixed_mono_nonneg; assumption].
  assert (Ex : toFixed x f = - toFixed (- x) f)
    by (rewrite toFixed_opp, Qcopp_involutive; reflexivity).
  destruct (Qclt_le_dec y 0) as [Hy | Hy].
  - assert (Ey : toFixed y f = - toFixed (- y) f)
      by (rewrite toFixed_opp, Qcopp_involutive; reflexivity).
    rewrite Ex, Ey.
    pose proof (toFixed_mono_nonneg (- y) (- x) f ltac:(qlra) ltac:(qlra)) as H.
    revert H. generalize (toFixed (- y) f) (toFixed (- x) f). intros u v H. qlra.
  - rewrite Ex.
    pose proof (toFixed_nonneg (- x) f ltac:(qlra)) as H1.
    pose proof (toFixed_nonneg y f Hy) as H2.
    revert H1 H2. generalize (toFixed (- x) f) (toFixed y f). intros u v H1 H2. qlra.
Qed.

(** * The densities the engine returns *)

Lemma check_ends_CF : check_ends DensityCF.C dt_cells_6 = true.
Proof. vm_cast_no_check (eq_refl true). Qed.

Lemma toFixed_6_0764 : toFixed (dec 0.764) 6 = dec 0.764.
Proof. number_eq. Qed.

Lemma toFixed_6_0837 : toFixed (dec 0.837) 6 = dec 0.837.
Proof. number_eq. Qed.

Lemma toFixed_6_0988 : toFixed (dec 0.988) 6 = dec 0.988.
Proof. number_eq. Qed.

Lemma toFixed_6_1001 : toFixed (dec 1.001) 6 = dec 1.001.
Proof. number_eq. Qed.

Lemma scaled_bounds (r lo hi : number) :
  (this lo <= this r <= this hi)%Q ->
  lo / dec 1000 <= r / dec 1000 /\ r / dec 1000 <= hi / dec 1000.
Proof. intros H. split; qlra. Qed.

Section Rounded.

Variable C : list (nat * nat * number).
Hypothesis HC : cross_ok C = true.
Hypothesis HP : rho_P C = rho0_P C :: S_P C.
Hypothesis HE : check_ends C dt_cells_6 = true.
Hypothesis HM :
  check2_slope_scaled (rho_P C) 0 (1 # 8) (1 # 2) sg_P p_cells_4 dt_cells_4 = true.
Variable UT : Q.
Hypothesis HUT : (UT <= 0)%Q.
Hypothesis HT :
  check2_slope_scaled (rho_T C) UT (1 # 2) (1 # 16) sg_T dt_cells_10 p_cells_8 = true.

(** The rounded density of a mass fraction [p] at [t]. *)
Local Abbreviation rounded p t := (toFixed (rho_p_t C p t / dec 1000) 6).

Lemma ends_rho (t : number) :
  - dec 10 <= t -> t <= dec 50 ->
  (988 <= this (rho_p_t C 0%Qc t) <= 1001 /\ 764 <= this (rho_p_t C 1%Qc t) <= 837)%Q.
Proof.
  intros Ht0 Ht1. apply (ends_at_rho C HP).
  unfold Qcle in *. autorewrite with toQ in Ht0, Ht1.
  apply (check_ends_sound C _ _ _ 30 HE eq_refl); lra.
Qed.

Lemma rounded_bounds (p t : number) :
  0 <= p -> p <= 1 -> - dec 10 <= t -> t <= dec 50 ->
  dec 0.764 <= rounded p t /\ rounded p t <= dec 1.001.
Proof.
  intros Hp0 Hp1 Ht0 Ht1.
  pose proof (rho_bounds C HP HE HM p t Hp0 Hp1 Ht0 Ht1) as H.
  revert H. generalize (rho_p_t C p t). intros r H.
  rewrite <- toFixed_6_0764, <- toFixed_6_1001.
  split; apply toFixed_monotone; qlra.
Qed.

Lemma rounded_ends (t : number) :
  - dec 10 <= t -> t <= dec 50 ->
  (dec 0.988 <= rounded 0 t /\ rounded 0 t <= dec 1.001) /\
  (dec 0.764 <= rounded 1 t /\ rounded 1 t <= dec 0.837).
Proof.
  intros Ht0 Ht1. destruct (ends_rho t Ht0 Ht1) as [H0 H1].
  revert H0 H1. generalize (rho_p_t C 0 t) (rho_p_t C 1 t). intros r0 r1 H0 H1.
  rewrite <- toFixed_6_0764, <- toFixed_6_1001, <- toFixed_6_0988, <- toFixed_6_0837.
  repeat split; apply toFixed_monotone; qlra.
Qed.

Lemma rounded_decreasing_in_p (p p' t : number) :
  0 <= p -> p <= p' -> p' <= 1 -> - dec 10 <= t -> t <= dec 50 ->
  rounded p' t <= rounded p t.
Proof.
  intros Hp0 Hpp Hp1 Ht0 Ht1.
  pose proof (rho_decreasing_in_p C p p' t HM Hp0 Hpp Hp1 Ht0 Ht1) as H.
  revert H. generalize (rho_p_t C p t) (rho_p_t C p' t). intros r r' H.
  apply toFixed_monotone. qlra.
Qed.

Lemma rounded_decreasing_in_t (p t t' : number) :
  0 <= p -> p <= 1 -> dec 10 <= t -> t <= t' -> t' <= dec 40 ->
  rounded p t' <= rounded p t.
Proof.
  intros Hp0 Hp1 Ht0 Htt Ht1.
  pose proof (rho_falls_in_t C UT p t t' HUT HT Hp0 Hp1 Ht0 Htt Ht1) as H.
  revert H. generalize (rho_p_t C p t) (rho_p_t C p t'). intros r r' H.
  apply toFixed_monotone. qlra.
Qed.

(** The density of an ABV, before the revision wraps it. *)
Lemma density_of_abv (abv abv' t t' : number) :
  (- dec 10 <= t -> t <= dec 50 ->
   dec 0.764 <= rounded (abvToMassFraction C abv) t /\
   rounded (abvToMassFraction C abv) t <= dec 1.001 /\
   rounded (abvToMassFraction C (dec 100)) t <= rounded (abvToMassFraction C abv) t /\
   rounded (abvToMassFraction C abv) t <= rounded (abvToMassFraction C 0) t /\
   (abv <= abv' ->
    rounded (abvToMassFraction C abv') t <= rounded (abvToMassFraction C abv) t)) /\
  (dec 10 <= t -> t <= t' -> t' <= dec 40 ->
   rounded (abvToMassFraction C abv) t' <= rounded (abvToMassFraction C abv) t).
Proof.
  destruct (abvToMassFraction_range C abv) as [Hp0 Hp1].
  destruct (abvToMassFraction_range C abv') as [Hq0 Hq1].
  assert (E0 : abvToMassFraction C 0 = 0) by reflexivity.
  assert (E1 : abvToMassFraction C (dec 100) = 1) by reflexivity.
  rewrite E0, E1. split.
  - intros Ht0 Ht1.
    destruct (rounded_bounds (abvToMassFraction C abv) t Hp0 Hp1 Ht0 Ht1) as [B0 B1].
    repeat split; try assumption.
    + apply rounded_decreasing_in_p; try assumption. apply Qcle_refl.
    + apply rounded_decreasing_in_p; try assumption. apply Qcle_refl.
    + intros Habv. apply rounded_decreasing_in_p; try assumption.
      apply (abvToMassFraction_mono C). assumption.
  - intros Ht0 Htt Ht1. apply rounded_decreasing_in_t; assumption.
Qed.

End Rounded.

Lemma density_of_abv_Density (abv abv' t t' : number) :
  (- dec 10 <= t -> t <= dec 50 ->
   dec 0.764 <= Density.calculateDensity abv t /\
   Density.calculateDensity abv t <= dec 1.001 /\
   Density.calculateEthanolDensity t <= Density.calculateDensity abv t /\
   Density.calculateDensity abv t <= Density.calculateWaterDensity t /\
   (abv <= abv' -> Density.calculateDensity abv' t <= Density.calculateDensity abv t)) /\
  (dec 10 <= t -> t <= t' -> t' <= dec 40 ->
   Density.calculateDensity abv t' <= Density.calculateDensity abv t).
Proof.
  refine (density_of_abv Density.C rho_P_rows check_ends_Density check_P_Density
            (- (1 # 1000)) _ check_T_Density_strict abv abv' t t').
  discriminate.
Qed.

Lemma density_of_abv_CF (abv abv' t t' : number) :
  (- dec 10 <= t -> t <= dec 50 ->
   dec 0.764 <= DensityCF.density (DensityCF.calculateDensity abv t) /\
   DensityCF.density (DensityCF.calculateDensity abv t) <= dec 1.001 /\
   DensityCF.calculateEthanolDensity t <= DensityCF.density (DensityCF.calculateDensity abv t) /\
   DensityCF.density (DensityCF.calculateDensity abv t) <= DensityCF.calculateWaterDensity t /\
   (abv <= abv' ->
    DensityCF.density (DensityCF.calculateDensity abv' t)
    <= DensityCF.density (DensityCF.calculateDensity abv t))) /\
  (dec 10 <= t -> t <= t' -> t' <= dec 40 ->
   DensityCF.density (DensityCF.calculateDensity abv t')
   <= DensityCF.density (DensityCF.calculateDensity abv t)).
Proof.
  refine (density_of_abv DensityCF.C rho_P_CF_rows check_ends_CF check_P_DensityCF
            0 _ check_T_DensityCF abv abv' t t').
  discriminate.
Qed.

Lemma ends_Density (t : number) :
  - dec 10 <= t -> t <= dec 50 ->
  (dec 0.988 <= Density.calculateWaterDensity t /\
   Density.calculateWaterDensity t <= dec 1.001) /\
  (dec 0.764 <= Density.calculateEthanolDensity t /\
   Density.calculateEthanolDensity t <= dec 0.837).
Proof. exact (rounded_ends Density.C rho_P_rows check_ends_Density t). Qed.

Lemma ends_CF (t : number) :
  - dec 10 <= t -> t <= dec 50 ->
  (dec 0.988 <= DensityCF.calculateWaterDensity t /\
   DensityCF.calculateWaterDensity t <= dec 1.001) /\
  (dec 0.764 <= DensityCF.calculateEthanolDensity t /\
   DensityCF.calculateEthanolDensity t <= dec 0.837).
Proof. exact (rounded_ends DensityCF.C rho_P_CF_rows check_ends_CF t). Qed.







Local Close Scope num_scope.
Local Close Scope Qc_scope.

Local Open Scope Qc_scope.
Local Open Scope num_scope.

(** * Volumes and masses *)

(** The rounded volume times the density gives the mass back, within half
    a hundredth of a millilitre of liquid. *)
Lemma volume_recovers_mass (m d : number) :
  0 < d -> Qcabs (toFixed (m / d) 2 * d - m) <= dec 0.005 * d.
Proof.
  intros Hd. pose proof (toFixed_error (m / d) 2) as HE. rewrite pow10_2 in HE.
  assert (Eq : m / d * d = m).
  { field. intros E. rewrite E in Hd. revert Hd. apply Qcle_not_lt, Qcle_refl. }
  revert HE Eq. generalize (toFixed (m / d) 2) (m / d). intros V q HE Eq.
  apply Qcabs_Qcle_condition. rewrite <- Eq. destruct HE as [H1 H2].
  unfold Qcle, Qclt in *. autorewrite with toQ in *. split; nra.
Qed.

(** The ethanol in the rounded volume, against the ethanol in the mass. *)
Lemma ethanol_recovers_mass (m d p : number) :
  0 < d -> d <= dec 1.001 -> 0 <= p -> p <= 1 ->
  Qcabs (toFixed (toFixed (m / d) 2 * d * p) 2 - m * p) <= dec 0.010005 /\
  Qcabs (toFixed (toFixed (m / d) 2 * d * p) 2 - toFixed (m * p) 2) <= dec 0.015005.
Proof.
  intros Hd0 Hd1 Hp0 Hp1.
  pose proof (volume_recovers_mass m d Hd0) as HV.
  apply Qcabs_Qcle_condition in HV.
  revert HV. generalize (toFixed (m / d) 2). intros V HV.
  pose proof (toFixed_error (V * d * p) 2) as HE.
  pose proof (toFixed_error (m * p) 2) as HG.
  rewrite pow10_2 in HE, HG.
  revert HE HG. generalize (toFixed (V * d * p) 2) (toFixed (m * p) 2).
  intros E G HE HG.
  rewrite !Qcabs_Qcle_condition.
  destruct HV as [V1 V2]. destruct HE as [E1 E2]. destruct HG as [G1 G2].
  unfold Qcle, Qclt in *. autorewrite with toQ in *.
  assert (W1 : (- (0.005005) <= (this V * this d - this m) * this p)%Q) by nra.
  assert (W2 : ((this V * this d - this m) * this p <= 0.005005)%Q) by nra.
  repeat split; lra.
Qed.

Lemma bounded_density (d : number) :
  dec 0.764 <= d -> d <= dec 1.001 -> 0 < d /\ dec 0.005 * d <= dec 0.005005.
Proof. intros H0 H1. split; qlra. Qed.





Lemma toFixed_2_zero : toFixed 0 2 = 0.
Proof. number_eq. Qed.



(** * Dilution *)

Lemma toFixed_1_0 : toFixed 0 1 = 0.
Proof. number_eq. Qed.

Lemma diluted_mass (m p1 p2 : number) :
  0 <= m -> 0 < p2 -> p2 <= p1 ->
  0 <= m * p1 / p2 - m /\ m <= m * p1 / p2 /\ 0 <= m * p1.
Proof.
  intros Hm Hp2 Hp.
  assert (E : m * p1 / p2 - m = m * (p1 - p2) / p2).
  { field. intros E. rewrite E in Hp2. revert Hp2. apply Qcle_not_lt, Qcle_refl. }
  assert (H : 0 <= m * (p1 - p2) / p2).
  { unfold Qcle, Qclt in *. autorewrite with toQ in *.
    apply Qle_shift_div_l; [assumption|]. nra. }
  rewrite <- E in H. revert H. generalize (m * p1 / p2). intros m2 H.
  repeat split; [assumption | qlra |].
  unfold Qcle, Qclt in *. autorewrite with toQ in *. nra.
Qed.

Section Dilute.

Variable C : list (nat * nat * number).

Lemma dilution_direction (sourceMassG sourceAbv targetAbv : number) :
  0 <= sourceMassG -> 0 < targetAbv -> targetAbv <= sourceAbv ->
  let r := calculateDilutionWater C sourceMassG sourceAbv targetAbv in
  0 <= waterToAddG r /\
  toFixed sourceMassG 1 <= finalMassG r /\
  0 <= ethanolMassG r /\
  targetMassFraction r <= sourceMassFraction r.
Proof.
  intros Hm Ht Hts. cbv zeta. unfold calculateDilutionWater.
  cbn [waterToAddG finalMassG ethanolMassG targetMassFraction sourceMassFraction].
  pose proof (abvToMassFraction_pos C targetAbv Ht) as Hp2.
  pose proof (abvToMassFraction_mono C targetAbv sourceAbv Hts) as Hp.
  revert Hp2 Hp. generalize (abvToMassFraction C sourceAbv) (abvToMassFraction C targetAbv).
  intros p1 p2 Hp2 Hp.
  destruct (diluted_mass sourceMassG p1 p2 Hm Hp2 Hp) as (H1 & H2 & H3).
  repeat split.
  - rewrite <- toFixed_1_0. apply toFixed_monotone. assumption.
  - apply toFixed_monotone. assumption.
  - apply toFixed_nonneg. assumption.
  - apply toFixed_monotone. assumption.
Qed.

Lemma dilution_same (sourceMassG abv : number) :
  0 < abv ->
  let r := calculateDilutionWater C sourceMassG abv abv in
  waterToAddG r = 0 /\ finalMassG r = toFixed sourceMassG 1.
Proof.
  intros Ha. cbv zeta. unfold calculateDilutionWater.
  cbn [waterToAddG finalMassG].
  pose proof (abvToMassFraction_pos C abv Ha) as Hp.
  revert Hp. generalize (abvToMassFraction C abv). intros p Hp.
  assert (E : sourceMassG * p / p = sourceMassG).
  { field. intros E. rewrite E in Hp. revert Hp. apply Qcle_not_lt, Qcle_refl. }
  rewrite E.
  replace (sourceMassG - sourceMassG) with 0 by (apply Qc_is_canon; qlra).
  split; [apply toFixed_1_0 | reflexivity].
Qed.

End Dilute.





(** * The other fields of the hydrometer record *)

Lemma abvInt_spec (readingAbv : number) :
  let abvInt := Math_floor (readingAbv / dec 10) * dec 10 in
  abvInt <= readingAbv /\ readingAbv < abvInt + dec 10 /\
  exists k : Z, abvInt = of_Z (10 * k).
Proof.
  cbv zeta. unfold Math_floor.
  destruct (floor_bounds (readingAbv / dec 10)) as [Hl Hu].
  revert Hl Hu. generalize (floor (readingAbv / dec 10)). intros n Hl Hu.
  autorewrite with toQ in Hl, Hu. inv_consts.
  repeat split.
  - unfold Qcle. autorewrite with toQ. lra.
  - unfold Qclt. autorewrite with toQ. lra.
  - exists n. apply Qc_is_canon. autorewrite with toQ.
    rewrite inject_Z_mult. change (inject_Z 10) with 10%Q. ring.
Qed.

Lemma Math_round_spec (t : number) :
  exists n : Z, Math_round t = of_Z n /\ t - dec 0.5 < of_Z n /\ of_Z n <= t + dec 0.5.
Proof.
  unfold Math_round. exists (floor (t + dec 0.5)).
  destruct (floor_bounds (t + dec 0.5)) as [Hl Hu].
  revert Hl Hu. generalize (floor (t + dec 0.5)). intros n Hl Hu.
  autorewrite with toQ in Hl, Hu.
  split; [reflexivity|]. split; [unfold Qclt | unfold Qcle];
    autorewrite with toQ; lra.
Qed.


(** * The fraction converters *)

(** [abvToMassFraction] is monotone and returns a mass fraction: 0 up to an
    ABV of 0, 1 from an ABV of 100 on, and strictly between 0 and 1 in
    between.  Both revisions. *)
Theorem abvToMassFraction_order (abv abv' : number) :
  ((abv <= abv' -> Density.abvToMassFraction abv <= Density.abvToMassFraction abv') /\
   0 <= Density.abvToMassFraction abv /\ Density.abvToMassFraction abv <= 1 /\
   (abv <= 0 -> Density.abvToMassFraction abv = 0) /\
   (dec 100 <= abv -> Density.abvToMassFraction abv = 1) /\
   (0 < abv -> abv < dec 100 ->
    0 < Density.abvToMassFraction abv /\ Density.abvToMassFraction abv < 1)) /\
  ((abv <= abv' -> DensityCF.abvToMassFraction abv <= DensityCF.abvToMassFraction abv') /\
   0 <= DensityCF.abvToMassFraction abv /\ DensityCF.abvToMassFraction abv <= 1 /\
   (abv <= 0 -> DensityCF.abvToMassFraction abv = 0) /\
   (dec 100 <= abv -> DensityCF.abvToMassFraction abv = 1) /\
   (0 < abv -> abv < dec 100 ->
    0 < DensityCF.abvToMassFraction abv /\ DensityCF.abvToMassFraction abv < 1)).
Proof.
  assert (H : forall C : list (nat * nat * number),
    (abv <= abv' -> abvToMassFraction C abv <= abvToMassFraction C abv') /\
    0 <= abvToMassFraction C abv /\ abvToMassFraction C abv <= 1 /\
    (abv <= 0 -> abvToMassFraction C abv = 0) /\
    (dec 100 <= abv -> abvToMassFraction C abv = 1) /\
    (0 < abv -> abv < dec 100 ->
     0 < abvToMassFraction C abv /\ abvToMassFraction C abv < 1)).
  { intros C. destruct (abvToMassFraction_range C abv) as [H0 H1].
    repeat split; try assumption.
    - apply abvToMassFraction_mono.
    - intros Ha. rewrite abvToMassFraction_eq.
      replace (abv <=? 0) with true by (symmetry; apply leb_true; assumption).
      reflexivity.
    - intros Ha. rewrite abvToMassFraction_eq.
      destruct (abv <=? 0) eqn:E; [apply leb_true in E; exfalso; qlra|].
      replace (abv >=? dec 100) with true by (symmetry; apply geb_true; assumption).
      reflexivity.
    - apply abvToMassFraction_pos. assumption.
    - apply abvToMassFraction_lt_1. assumption. }
  split; [exact (H Density.C) | exact (H DensityCF.C)].
Qed.

Section Agree.

Variables C C' : list (nat * nat * number).
Hypothesis HC : cross_ok C = true.
Hypothesis HC' : cross_ok C' = true.

(** At 20 C the cross terms vanish. *)
Lemma rho_20_agree (p : number) : rho_p_t C p (dec 20) = rho_p_t C' p (dec 20).
Proof.
  apply Qc_is_canon. rewrite (rho_p_20_Q C p HC), (rho_p_20_Q C' p HC').
  reflexivity.
Qed.

Lemma abv_loop_agree (n : nat) (targetV : number) :
  forall low high p, abv_loop C n targetV low high p = abv_loop C' n targetV low high p.
Proof.
  induction n as [|n IH]; intros low high p; [reflexivity|].
  rewrite !abv_loop_S, rho_20_agree, !IH. reflexivity.
Qed.

Lemma abvToMassFraction_agree (abv : number) :
  abvToMassFraction C abv = abvToMassFraction C' abv.
Proof. rewrite !abvToMassFraction_eq, abv_loop_agree. reflexivity. Qed.

End Agree.

(** The two revisions differ only away from 20 C: they convert between ABV
    and mass fraction identically, return the same dilution record, and
    return the same density at 20 C. *)
Theorem revisions_agree_at_20 (abv massFrac sourceMassG sourceAbv targetAbv : number) :
  Density.abvToMassFraction abv = DensityCF.abvToMassFraction abv /\
  Density.massFractionToAbv massFrac = DensityCF.massFractionToAbv massFrac /\
  Density.calculateDilutionWater sourceMassG sourceAbv targetAbv
  = DensityCF.calculateDilutionWater sourceMassG sourceAbv targetAbv /\
  Density.calculateDensity abv (dec 20)
  = DensityCF.density (DensityCF.calculateDensity abv (dec 20)).
Proof.
  pose proof (abvToMassFraction_agree Density.C DensityCF.C eq_refl eq_refl) as E.
  pose proof (rho_20_agree Density.C DensityCF.C eq_refl eq_refl) as R.
  split; [|split; [|split]].
  - apply E.
  - unfold Density.massFractionToAbv, DensityCF.massFractionToAbv, massFractionToAbv.
    cbv zeta. rewrite R. reflexivity.
  - unfold Density.calculateDilutionWater, DensityCF.calculateDilutionWater,
      calculateDilutionWater. cbv zeta. rewrite !E. reflexivity.
  - unfold Density.calculateDensity, DensityCF.calculateDensity,
      Density.abvToMassFraction, DensityCF.abvToMassFraction,
      Density.rho_p_t, DensityCF.rho_p_t.
    cbn [DensityCF.density]. rewrite E, R. reflexivity.
Qed.

Section Abv.

Variable C : list (nat * nat * number).
Hypothesis HC : cross_ok C = true.

Lemma massFractionToAbv_slope (p p' : number) :
  0 <= p -> p <= p' -> p' <= 1 ->
  dec 60 * (p' - p) <= massFractionToAbv C p' - massFractionToAbv C p /\
  massFractionToAbv C p' - massFractionToAbv C p <= dec 130 * (p' - p) /\
  0 <= massFractionToAbv C p /\ massFractionToAbv C p' < dec 100.
Proof.
  intros H0 Hpp H1. rewrite !massFractionToAbv_vol.
  destruct (vol_slope C HC p p' H0 Hpp H1) as [S1 S2].
  pose proof (vol_mono C HC 0 p (Qcle_refl _) H0 ltac:(qlra)) as M0.
  pose proof (vol_mono C HC p' 1 ltac:(qlra) H1 (Qcle_refl _)) as M1.
  rewrite (vol_0 C HC) in M0. rewrite (vol_1 C HC) in M1.
  revert S1 S2 M0 M1. generalize (vol C p) (vol C p'). intros v v' S1 S2 M0 M1.
  repeat split; qlra.
Qed.

End Abv.



Local Close Scope num_scope.
Local Close Scope Qc_scope.

Local Open Scope Qc_scope.
Local Open Scope num_scope.

(** * The direction of the hydrometer correction *)

Lemma toFixed_1_tiny (d : number) :
  (d <= dec 100 / dec 1073741824 -> toFixed d 1 <= 0) /\
  (- (dec 100 / dec 1073741824) <= d -> 0 <= toFixed d 1).
Proof.
  split; intros H.
  - rewrite <- (toFixed_1_zero (dec 100 / dec 1073741824)) by number_cmp.
    apply toFixed_monotone. assumption.
  - rewrite <- (toFixed_1_zero (- (dec 100 / dec 1073741824))) by number_cmp.
    apply toFixed_monotone. assumption.
Qed.

Section Direction.

Variable C : list (nat * nat * number).
Hypothesis HM :
  check2_slope_scaled (rho_P C) 0 (1 # 8) (1 # 2) sg_P p_cells_4 dt_cells_4 = true.

Variables goal tempC readingAbv : number.
Hypothesis Ht0 : - dec 10 <= tempC.
Hypothesis Ht1 : tempC <= dec 50.

(** The density the search looks at does not increase with the ABV. *)
Lemma hydro_anti (m m' : number) :
  m <= m' ->
  rho_p_t C (abvToMassFraction C m') tempC <= rho_p_t C (abvToMassFraction C m) tempC.
Proof.
  intros Hm. apply (rho_decreasing_in_p C); try assumption.
  - apply abvToMassFraction_range.
  - apply abvToMassFraction_mono. assumption.
  - apply abvToMassFraction_range.
Qed.

(** If the reading is not denser than the goal, the search never moves its
    lower bound above the reading. *)
Lemma hydro_loop_warm (n : nat) :
  rho_p_t C (abvToMassFraction C readingAbv) tempC <= goal ->
  forall low high x : number,
    low <= high -> low <= x -> x <= high -> low <= readingAbv ->
    exists lo hi : number,
      lo <= hydro_loop C n goal tempC low high x /\
      hydro_loop C n goal tempC low high x <= hi /\
      (hi - lo) * Math_pow (dec 2) n = high - low /\
      lo <= readingAbv.
Proof.
  intros Hr.
  induction n as [|n IH]; intros low high x Hlh Hlx Hxh Hl;
    [rewrite hydro_loop_0 | rewrite hydro_loop_S].
  - exists low, high. repeat split; try assumption.
    unfold Math_pow. cbn [Qcpower]. ring.
  - set (m := (low + high) / dec 2).
    assert (Hm : low <= m /\ m <= high) by (subst m; split; qlra).
    assert (Em : high - m = m - low /\ (high - low) = dec 2 * (m - low))
      by (subst m; split; qlra).
    destruct Hm as [Hm1 Hm2]. destruct Em as [Em1 Em2]. clearbody m.
    destruct (_ >? _) eqn:E.
    + apply gtb_true in E.
      assert (Hmr : m <= readingAbv).
      { apply Qcnot_lt_le. intros Hlt.
        pose proof (hydro_anti readingAbv m (Qclt_le_weak _ _ Hlt)) as Ha.
        apply (Qclt_not_le _ _ E). eapply Qcle_trans; [exact Ha | exact Hr]. }
      destruct (IH m high m) as (lo & hi & H1 & H2 & H3 & H4);
        try assumption; try apply Qcle_refl.
      exists lo, hi. repeat split; try assumption.
      unfold Math_pow in *. cbn [Qcpower]. rewrite Em2, <- Em1, <- H3. ring.
    + destruct (IH low m m) as (lo & hi & H1 & H2 & H3 & H4);
        try assumption; try apply Qcle_refl.
      exists lo, hi. repeat split; try assumption.
      unfold Math_pow in *. cbn [Qcpower]. rewrite Em2, <- H3. ring.
Qed.

(** If the reading is denser than the goal, the search never moves its
    upper bound below the reading. *)
Lemma hydro_loop_cold (n : nat) :
  goal < rho_p_t C (abvToMassFraction C readingAbv) tempC ->
  forall low high x : number,
    low <= high -> low <= x -> x <= high -> readingAbv <= high ->
    exists lo hi : number,
      lo <= hydro_loop C n goal tempC low high x /\
      hydro_loop C n goal tempC low high x <= hi /\
      (hi - lo) * Math_pow (dec 2) n = high - low /\
      readingAbv <= hi.
Proof.
  intros Hr.
  induction n as [|n IH]; intros low high x Hlh Hlx Hxh Hh;
    [rewrite hydro_loop_0 | rewrite hydro_loop_S].
  - exists low, high. repeat split; try assumption.
    unfold Math_pow. cbn [Qcpower]. ring.
  - set (m := (low + high) / dec 2).
    assert (Hm : low <= m /\ m <= high) by (subst m; split; qlra).
    assert (Em : high - m = m - low /\ (high - low) = dec 2 * (m - low))
      by (subst m; split; qlra).
    destruct Hm as [Hm1 Hm2]. destruct Em as [Em1 Em2]. clearbody m.
    destruct (_ >? _) eqn:E.
    + destruct (IH m high m) as (lo & hi & H1 & H2 & H3 & H4);
        try assumption; try apply Qcle_refl.
      exists lo, hi. repeat split; try assumption.
      unfold Math_pow in *. cbn [Qcpower]. rewrite Em2, <- Em1, <- H3. ring.
    + apply gtb_false in E.
      assert (Hrm : readingAbv <= m).
      { apply Qcnot_lt_le. intros Hlt.
        pose proof (hydro_anti m readingAbv (Qclt_le_weak _ _ Hlt)) as Ha.
        apply (Qclt_not_le _ _ Hr). eapply Qcle_trans; [exact Ha | exact E]. }
      destruct (IH low m m) as (lo & hi & H1 & H2 & H3 & H4);
        try assumption; try apply Qcle_refl.
      exists lo, hi. repeat split; try assumption.
      unfold Math_pow in *. cbn [Qcpower]. rewrite Em2, <- H3. ring.
Qed.

Hypothesis Hread0 : 0 <= readingAbv.
Hypothesis Hread1 : readingAbv <= dec 100.

Lemma correction_warm :
  rho_p_t C (abvToMassFraction C readingAbv) tempC <= goal ->
  toFixed (hydro_loop C 30 goal tempC 0 (dec 100) (dec 50) - readingAbv) 1 <= 0.
Proof.
  intros Hr.
  destruct (hydro_loop_warm 30 Hr 0 (dec 100) (dec 50))
    as (lo & hi & H1 & H2 & H3 & H4); try qlra.
  revert H1 H2. generalize (hydro_loop C 30 goal tempC 0 (dec 100) (dec 50)).
  intros x H1 H2. rewrite pow2_30 in H3.
  apply toFixed_1_tiny. qlra.
Qed.

Lemma correction_cold :
  goal < rho_p_t C (abvToMassFraction C readingAbv) tempC ->
  0 <= toFixed (hydro_loop C 30 goal tempC 0 (dec 100) (dec 50) - readingAbv) 1.
Proof.
  intros Hr.
  destruct (hydro_loop_cold 30 Hr 0 (dec 100) (dec 50))
    as (lo & hi & H1 & H2 & H3 & H4); try qlra.
  revert H1 H2. generalize (hydro_loop C 30 goal tempC 0 (dec 100) (dec 50)).
  intros x H1 H2. rewrite pow2_30 in H3.
  apply toFixed_1_tiny. qlra.
Qed.

End Direction.

(** The glass of the hydrometer: the factor of the second revision. *)
Lemma glass_factor (g t : number) :
  0 < g ->
  (dec 20 <= t -> t <= dec 40 -> g <= g / (1 - DensityCF.ALPHA * (t - dec 20))) /\
  (dec 10 <= t -> t < dec 20 -> g / (1 - DensityCF.ALPHA * (t - dec 20)) < g).
Proof.
  intros Hg. unfold DensityCF.ALPHA. split; intros H1 H2.
  - unfold Qcle, Qclt in *. autorewrite with toQ in *.
    apply Qle_shift_div_l; [lra | nra].
  - unfold Qcle, Qclt in *. autorewrite with toQ in *.
    apply Qlt_shift_div_r; [lra | nra].
Qed.

Lemma zero_at_20 (C : list (nat * nat * number)) (readingAbv : number) :
  cross_ok C = true -> 0 <= readingAbv -> readingAbv <= dec 100 ->
  toFixed (hydro_loop C 30 (rho_p_t C (abvToMassFraction C readingAbv) (dec 20))
             (dec 20) 0 (dec 100) (dec 50) - readingAbv) 1 = 0.
Proof.
  intros HC Hlow Hhigh.
  destruct (hydro_loop_20_close C HC readingAbv Hlow Hhigh) as [H1 H2].
  apply toFixed_1_zero.
  - eapply Qclt_trans; [|exact H1]. number_cmp.
  - eapply Qclt_trans; [exact H2|]. number_cmp.
Qed.

Lemma temperature_ranges (t : number) :
  (dec 20 <= t -> t <= dec 40 -> - dec 10 <= t /\ t <= dec 50 /\ dec 10 <= dec 20) /\
  (dec 10 <= t -> t <= dec 20 -> - dec 10 <= t /\ t <= dec 50 /\ dec 20 <= dec 40).
Proof. split; intros H1 H2; repeat split; qlra. Qed.

Lemma positive_density (g : number) : (764 <= this g <= 1001)%Q -> 0 < g.
Proof. intros H. qlra. Qed.

(** A warm sample reads high and a cold one low: for a reading in [0, 100]
    the correction is never positive between 20 and 40 C and never negative
    between 10 and 20 C.  Both revisions. *)
Theorem correction_direction (readingAbv tempC : number)
    (Hlow : 0 <= readingAbv) (Hhigh : readingAbv <= dec 100) :
  (dec 20 <= tempC -> tempC <= dec 40 ->
   correction (result (Density.correctHydrometerReading readingAbv tempC)) <= 0 /\
   correction (result (DensityCF.correctHydrometerReading readingAbv tempC)) <= 0) /\
  (dec 10 <= tempC -> tempC <= dec 20 ->
   0 <= correction (result (Density.correctHydrometerReading readingAbv tempC)) /\
   0 <= correction (result (DensityCF.correctHydrometerReading readingAbv tempC))).
Proof.
  cbn [Density.correctHydrometerReading Density.getHydrometerCorrection
       DensityCF.correctHydrometerReading DensityCF.getHydrometerCorrection
       hydrometer_result result correction].
  unfold Density.rho_p_t, Density.abvToMassFraction,
    DensityCF.rho_p_t, DensityCF.abvToMassFraction.
  destruct (abvToMassFraction_range Density.C readingAbv) as [Hp0 Hp1].
  destruct (abvToMassFraction_range DensityCF.C readingAbv) as [Hq0 Hq1].
  destruct (temperature_ranges tempC) as [Rw Rc].
  pose proof (rho_bounds DensityCF.C rho_P_CF_rows check_ends_CF check_P_DensityCF
                (abvToMassFraction DensityCF.C readingAbv) (dec 20) Hq0 Hq1
                ltac:(number_cmp) ltac:(number_cmp)) as Hg.
  apply positive_density in Hg.
  destruct (glass_factor (rho_p_t DensityCF.C (abvToMassFraction DensityCF.C readingAbv)
                            (dec 20)) tempC Hg) as [Gw Gc].
  split; intros H1 H2.
  - destruct (Rw H1 H2) as (T0 & T1 & T2). split.
    + apply (correction_warm Density.C check_P_Density); try assumption.
      apply (rho_falls_in_t Density.C (- (1 # 1000))); try assumption;
        first [exact check_T_Density_strict | discriminate].
    + apply (correction_warm DensityCF.C check_P_DensityCF); try assumption.
      eapply Qcle_trans; [|exact (Gw H1 H2)].
      apply (rho_falls_in_t DensityCF.C 0); try assumption;
        first [exact check_T_DensityCF | discriminate].
  - destruct (Rc H1 H2) as (T0 & T1 & T2).
    destruct (Qclt_le_dec tempC (dec 20)) as [Hlt | Hge].
    + split.
      * apply (correction_cold Density.C check_P_Density); try assumption.
        apply (rho_strict_in_t Density.C (- (1 # 1000))); try assumption;
          first [exact check_T_Density_strict | reflexivity].
      * apply (correction_cold DensityCF.C check_P_DensityCF); try assumption.
        eapply Qclt_le_trans; [exact (Gc H1 Hlt)|].
        apply (rho_falls_in_t DensityCF.C 0); try assumption;
          first [exact check_T_DensityCF | discriminate].
    + assert (E : tempC = dec 20) by (apply Qcle_antisym; assumption).
      rewrite E. rewrite ALPHA_at_20.
      rewrite !zero_at_20 by (try reflexivity; assumption).
      split; apply Qcle_refl.
Qed.

Lemma correction_direction_witness :
  (0 <= dec 40 /\ dec 40 <= dec 100) /\
  (dec 20 <= dec 25 -> dec 25 <= dec 40 ->
   correction (result (Density.correctHydrometerReading (dec 40) (dec 25))) <= 0 /\
   correction (result (DensityCF.correctHydrometerReading (dec 40) (dec 25))) <= 0) /\
  (dec 10 <= dec 25 -> dec 25 <= dec 20 ->
   0 <= correction (result (Density.correctHydrometerReading (dec 40) (dec 25))) /\
   0 <= correction (result (DensityCF.correctHydrometerReading (dec 40) (dec 25)))).
Proof.
  assert (Hlow : 0 <= dec 40) by number_cmp.
  assert (Hhigh : dec 40 <= dec 100) by number_cmp.
  exact (conj (conj Hlow Hhigh) (correction_direction (dec 40) (dec 25) Hlow Hhigh)).
Defined.

Local Close Scope num_scope.
Local Close Scope Qc_scope.

Local Open Scope Qc_scope.
Local Open Scope num_scope.

(** * The table revision: the fraction converters *)

Lemma Qc_neq_0 (x : number) : (0 < this x)%Q -> x <> 0.
Proof. intros H E. rewrite E in H. revert H. apply Qlt_irrefl. Qed.

Lemma table_mix_pos (v : number) :
  v <= 1 ->
  0 < v * DensityTable.RHO_ETHANOL_20 + (1 - v) * DensityTable.RHO_WATER_20.
Proof.
  intros H. unfold DensityTable.RHO_ETHANOL_20, DensityTable.RHO_WATER_20. qlra.
Qed.

Lemma table_mix_pos' (p : number) :
  0 <= p ->
  0 < DensityTable.RHO_ETHANOL_20 - p * DensityTable.RHO_ETHANOL_20
      + p * DensityTable.RHO_WATER_20.
Proof.
  intros H. unfold DensityTable.RHO_ETHANOL_20, DensityTable.RHO_WATER_20. qlra.
Qed.

Lemma table_to_back (v : number) :
  v <= 1 ->
  DensityTable.massFractionToAbv
    ((v * DensityTable.RHO_ETHANOL_20)
     / (v * DensityTable.RHO_ETHANOL_20 + (1 - v) * DensityTable.RHO_WATER_20))
  = v * dec 100.
Proof.
  intros Hv. unfold DensityTable.massFractionToAbv. cbv zeta.
  pose proof (table_mix_pos v Hv) as HD.
  unfold DensityTable.RHO_ETHANOL_20, DensityTable.RHO_WATER_20 in *.
  try match goal with |- @eq number ?a ?b => change (@eq Qc a b) end.
  field. split; apply Qc_neq_0; unfold Qclt in HD; autorewrite with toQ in *; lra.
Qed.

Lemma table_back_to (p : number) :
  0 <= p ->
  let v := p * DensityTable.RHO_WATER_20
           / (DensityTable.RHO_ETHANOL_20 - p * DensityTable.RHO_ETHANOL_20
              + p * DensityTable.RHO_WATER_20) in
  (v * DensityTable.RHO_ETHANOL_20)
  / (v * DensityTable.RHO_ETHANOL_20 + (1 - v) * DensityTable.RHO_WATER_20)
  = p.
Proof.
  intros Hp. cbv zeta.
  pose proof (table_mix_pos' p Hp) as HD.
  unfold DensityTable.RHO_ETHANOL_20, DensityTable.RHO_WATER_20 in *.
  try match goal with |- @eq number ?a ?b => change (@eq Qc a b) end.
  field. split; apply Qc_neq_0; unfold Qclt in HD; autorewrite with toQ in *; lra.
Qed.



Lemma sign_of_product (x y : Q) : (0 < y -> 0 <= x * y -> 0 <= x)%Q.
Proof.
  intros Hy H. destruct (Qlt_le_dec x 0) as [Hx | Hx]; [exfalso; nra | assumption].
Qed.

Lemma table_fraction_Q (abv : number) :
  abv <= dec 100 ->
  (this (DensityTable.abvToMassFraction abv)
   * (99.82 - this abv * 0.20896) == this abv * 0.78924
   /\ 0 < 99.82 - this abv * 0.20896)%Q.
Proof.
  intros H. unfold DensityTable.abvToMassFraction,
    DensityTable.RHO_ETHANOL_20, DensityTable.RHO_WATER_20. cbv zeta.
  unfold Qcle in H. autorewrite with toQ in *.
  split; [|lra]. field. lra.
Qed.

Lemma table_fraction_bounds (abv abv' : number)
    (Hlow : 0 <= abv) (Horder : abv <= abv') (Hhigh : abv' <= dec 100) :
  DensityTable.abvToMassFraction abv <= DensityTable.abvToMassFraction abv' /\
  0 <= DensityTable.abvToMassFraction abv /\
  DensityTable.abvToMassFraction abv' <= abv' / dec 100 /\
  DensityTable.abvToMassFraction 0 = 0 /\
  DensityTable.abvToMassFraction (dec 100) = 1.
Proof.
  destruct (table_fraction_Q abv ltac:(qlra)) as [E1 D1].
  destruct (table_fraction_Q abv' Hhigh) as [E2 D2].
  revert E1 E2. generalize (DensityTable.abvToMassFraction abv)
                           (DensityTable.abvToMassFraction abv').
  intros f f' E1 E2.
  split; [|split; [|split; [|split]]]; try number_eq;
    unfold Qcle in *; autorewrite with toQ in *.
  - assert (E : ((this f' - this f)
                 * ((99.82 - this abv * 0.20896) * (99.82 - this abv' * 0.20896))
                 == 0.78924 * 99.82 * (this abv' - this abv))%Q).
    { setoid_replace ((this f' - this f)
                      * ((99.82 - this abv * 0.20896) * (99.82 - this abv' * 0.20896)))%Q
        with (this f' * (99.82 - this abv' * 0.20896) * (99.82 - this abv * 0.20896)
              - this f * (99.82 - this abv * 0.20896) * (99.82 - this abv' * 0.20896))%Q
        by ring.
      rewrite E1, E2. ring. }
    assert (G : (0 <= this f' - this f)%Q); [|lra].
    apply (sign_of_product _ ((99.82 - this abv * 0.20896)
                              * (99.82 - this abv' * 0.20896))%Q).
    + apply Qmult_lt_0_compat; assumption.
    + rewrite E. lra.
  - apply (sign_of_product _ (99.82 - this abv * 0.20896)%Q); [assumption|].
    rewrite E1. lra.
  - inv_consts.
    assert (G : (0 <= this abv' * (1 # 100) - this f')%Q); [|lra].
    apply (sign_of_product _ (99.82 - this abv' * 0.20896)%Q); [assumption|].
    setoid_replace ((this abv' * (1 # 100) - this f') * (99.82 - this abv' * 0.20896))%Q
      with (this abv' * (1 # 100) * (99.82 - this abv' * 0.20896)
            - this f' * (99.82 - this abv' * 0.20896))%Q by ring.
    rewrite E2. nra.
Qed.



(** * The table revision: the ranges of the correction table *)

Lemma andb_cmp (abv min max : number) :
  (abv >=? min) && (abv <=? max) = true <-> min <= abv /\ abv <= max.
Proof. rewrite andb_true_iff, geb_true, leb_true. tauto. Qed.

Lemma range_loop_some (l : list (number * number * string)) (abv : number) :
  forall i j : nat,
    DensityTable.range_loop l i abv = Some j ->
    (i <= j < i + List.length l)%nat /\
    exists min max label,
      nth_error l (j - i) = Some (min, max, label) /\ min <= abv /\ abv <= max.
Proof.
  induction l as [|[[min max] label] l IH]; intros i j H; cbn [DensityTable.range_loop] in H.
  - discriminate.
  - destruct ((abv >=? min) && (abv <=? max)) eqn:E.
    + injection H as <-. apply andb_cmp in E. split; [cbn [List.length]; lia|].
      exists min, max, label. rewrite Nat.sub_diag. split; [reflexivity | exact E].
    + destruct (IH (S i) j H) as [Hj (mn & mx & lb & Hn & Hc)].
      split; [cbn [List.length]; lia|].
      exists mn, mx, lb. split; [|exact Hc].
      replace (j - i)%nat with (S (j - S i)) by lia. exact Hn.
Qed.

Lemma range_loop_none (l : list (number * number * string)) (abv : number) :
  forall i : nat,
    DensityTable.range_loop l i abv = None <->
    forall min max label, In (min, max, label) l -> ~ (min <= abv /\ abv <= max).
Proof.
  induction l as [|[[min max] label] l IH]; intros i; cbn [DensityTable.range_loop].
  - split; [intros _ ? ? ? [] | reflexivity].
  - destruct ((abv >=? min) && (abv <=? max)) eqn:E.
    + apply andb_cmp in E. split; [discriminate|].
      intros H. exfalso. apply (H min max label); [left; reflexivity | exact E].
    + rewrite IH. split.
      * intros H mn mx lb [Heq | Hin]; [|apply (H mn mx lb Hin)].
        injection Heq as <- <- <-. rewrite <- andb_cmp, E. discriminate.
      * intros H mn mx lb Hin. apply (H mn mx lb). right. exact Hin.
Qed.

(** The index is always one of the ten columns of the table; it is the
    index of a range that holds the ABV, or 9 when no range does. *)
Lemma getAbvRangeIndex_spec (abv : number) :
  (DensityTable.getAbvRangeIndex abv <= 9)%nat /\
  ((exists min max label,
      nth_error DensityTable.ABV_RANGES (DensityTable.getAbvRangeIndex abv)
      = Some (min, max, label) /\ min <= abv /\ abv <= max) \/
   (DensityTable.getAbvRangeIndex abv = 9%nat /\
    forall min max label,
      In (min, max, label) DensityTable.ABV_RANGES -> ~ (min <= abv /\ abv <= max))).
Proof.
  unfold DensityTable.getAbvRangeIndex.
  destruct (DensityTable.range_loop DensityTable.ABV_RANGES 0 abv) as [j|] eqn:E.
  - destruct (range_loop_some _ _ _ _ E) as [Hj (mn & mx & lb & Hn & Hc)].
    cbn [List.length DensityTable.ABV_RANGES] in Hj. split; [lia|]. left.
    exists mn, mx, lb. rewrite Nat.sub_0_r in Hn. split; assumption.
  - split; [cbn; lia|]. right. split; [reflexivity|].
    apply (range_loop_none _ _ 0). exact E.
Qed.

(** The ranges leave gaps: an ABV that no range holds (above 10 and below
    10.1, say, or negative, or above 100) is put in the last column, the one
    of 90-100. *)
Theorem getAbvRangeIndex_outside_ranges (abv : number)
    (Hgap : forall min max label,
        In (min, max, label) DensityTable.ABV_RANGES -> abv < min \/ max < abv) :
  DensityTable.getAbvRangeIndex abv = 9%nat.
Proof.
  destruct (getAbvRangeIndex_spec abv) as [_ [(mn & mx & lb & Hn & H1 & H2) | [E _]]];
    [|exact E].
  exfalso. apply nth_error_In in Hn.
  destruct (Hgap mn mx lb Hn) as [H | H].
  - apply (Qclt_not_le _ _ H). exact H1.
  - apply (Qclt_not_le _ _ H). exact H2.
Qed.

Lemma getAbvRangeIndex_outside_ranges_witness :
  (forall min max label,
      In (min, max, label) DensityTable.ABV_RANGES ->
      dec 10.05 < min \/ max < dec 10.05) /\
  DensityTable.getAbvRangeIndex (dec 10.05) = 9%nat.
Proof.
  assert (Hgap : forall min max label,
             In (min, max, label) DensityTable.ABV_RANGES ->
             dec 10.05 < min \/ max < dec 10.05).
  { intros mn mx lb Hin. cbn in Hin.
    repeat (destruct Hin as [Hin | Hin];
            [injection Hin as <- <- <-;
             first [left; reflexivity | right; reflexivity]|]).
    destruct Hin. }
  exact (conj Hgap (getAbvRangeIndex_outside_ranges (dec 10.05) Hgap)).
Defined.

Lemma tenths_between (abv : number) (n lo hi : Z) :
  abv * dec 10 = of_Z n -> (lo <= n <= hi)%Z ->
  Q2Qc (lo # 10) <= abv /\ abv <= Q2Qc (hi # 10).
Proof.
  intros E [H1 H2]. rewrite Zle_Qle in H1, H2.
  unfold Qcle. toQ.
  assert (El : (lo # 10 == inject_Z lo / 10)%Q) by (rewrite Qmake_Qdiv; reflexivity).
  assert (Eh : (hi # 10 == inject_Z hi / 10)%Q) by (rewrite Qmake_Qdiv; reflexivity).
  rewrite El, Eh. inv_consts. split; lra.
Qed.

(** A reading with one decimal between 0 and 100 always falls in a range,
    and the index returned is the index of a range that holds it. *)
Theorem getAbvRangeIndex_one_decimal (abv : number)
    (Hlow : 0 <= abv) (Hhigh : abv <= dec 100) (Hdec : decimals 1 abv) :
  exists min max label,
    nth_error DensityTable.ABV_RANGES (DensityTable.getAbvRangeIndex abv)
    = Some (min, max, label) /\ min <= abv /\ abv <= max.
Proof.
  destruct (getAbvRangeIndex_spec abv) as [_ [H | [_ Hnone]]]; [exact H | exfalso].
  destruct Hdec as [n Hn]. rewrite pow10_1 in Hn.
  assert (Hr : (0 <= n <= 1000)%Z).
  { split; rewrite Zle_Qle; toQ;
      [change (inject_Z 0) with 0%Q | change (inject_Z 1000) with 1000%Q]; lra. }
  assert (Hc : (0 <= n <= 100)%Z \/ (101 <= n <= 200)%Z \/ (201 <= n <= 300)%Z \/ (301 <= n <= 400)%Z \/ (401 <= n <= 500)%Z \/ (501 <= n <= 600)%Z \/ (601 <= n <= 700)%Z \/ (701 <= n <= 800)%Z \/ (801 <= n <= 900)%Z \/ (901 <= n <= 1000)%Z) by lia.
  destruct Hc as [H | [H | [H | [H | [H | [H | [H | [H | [H | H]]]]]]]]].
  - apply (Hnone (dec 0) (dec 10) "0-10"%string); [cbn; tauto|].
    apply (tenths_between abv n 0 100); assumption.
  - apply (Hnone (dec 10.1) (dec 20) "10-20"%string); [cbn; tauto|].
    apply (tenths_between abv n 101 200); assumption.
  - apply (Hnone (dec 20.1) (dec 30) "20-30"%string); [cbn; tauto|].
    apply (tenths_between abv n 201 300); assumption.
  - apply (Hnone (dec 30.1) (dec 40) "30-40"%string); [cbn; tauto|].
    apply (tenths_between abv n 301 400); assumption.
  - apply (Hnone (dec 40.1) (dec 50) "40-50"%string); [cbn; tauto|].
    apply (tenths_between abv n 401 500); assumption.
  - apply (Hnone (dec 50.1) (dec 60) "50-60"%string); [cbn; tauto|].
    apply (tenths_between abv n 501 600); assumption.
  - apply (Hnone (dec 60.1) (dec 70) "60-70"%string); [cbn; tauto|].
    apply (tenths_between abv n 601 700); assumption.
  - apply (Hnone (dec 70.1) (dec 80) "70-80"%string); [cbn; tauto|].
    apply (tenths_between abv n 701 800); assumption.
  - apply (Hnone (dec 80.1) (dec 90) "80-90"%string); [cbn; tauto|].
    apply (tenths_between abv n 801 900); assumption.
  - apply (Hnone (dec 90.1) (dec 100) "90-100"%string); [cbn; tauto|].
    apply (tenths_between abv n 901 1000); assumption.
Qed.

Lemma getAbvRangeIndex_one_decimal_witness :
  (0 <= dec 10.1 /\ dec 10.1 <= dec 100 /\ decimals 1 (dec 10.1)) /\
  exists min max label,
    nth_error DensityTable.ABV_RANGES (DensityTable.getAbvRangeIndex (dec 10.1))
    = Some (min, max, label) /\ min <= dec 10.1 /\ dec 10.1 <= max.
Proof.
  assert (Hlow : 0 <= dec 10.1) by number_cmp.
  assert (Hhigh : dec 10.1 <= dec 100) by number_cmp.
  assert (Hdec : decimals 1 (dec 10.1)) by (exists 101%Z; number_eq).
  exact (conj (conj Hlow (conj Hhigh Hdec))
           (getAbvRangeIndex_one_decimal (dec 10.1) Hlow Hhigh Hdec)).
Defined.

Local Close Scope num_scope.
Local Close Scope Qc_scope.

Local Open Scope Qc_scope.
Local Open Scope num_scope.

(** * The table revision: the correction table *)

Lemma eqb_true (x y : number) : eqb x y = true <-> x = y.
Proof.
  unfold eqb. split; [apply Qc_eq_bool_correct|].
  intros ->. unfold Qc_eq_bool. destruct (Qc_eq_dec y y); [reflexivity | congruence].
Qed.

Lemma eqb_false (x y : number) : eqb x y = false <-> x <> y.
Proof.
  rewrite <- eqb_true. destruct (eqb x y); split; congruence.
Qed.

(** ** What the table holds *)

(** Every row has ten entries; every entry has one decimal and lies between
    -1.5 and 1.4; the rows up to 20 C hold no negative entry and the rows
    from 20 C on no positive one. *)
Lemma table_check :
  forallb (fun row =>
             Nat.eqb (List.length (snd row)) 10 &&
             forallb (fun e =>
                        (dec (-1.5) <=? e) && (e <=? dec 1.4) &&
                        implb (fst row <=? dec 20) (0 <=? e) &&
                        implb (dec 20 <=? fst row) (e <=? 0) &&
                        eqb (of_Z (floor (e * dec 10))) (e * dec 10))
               (snd row))
    DensityTable.CORRECTION_TABLE = true.
Proof. vm_compute. reflexivity. Qed.

Lemma table_row_found (t : number) (row : list number) :
  DensityTable.table_row t = Some row ->
  List.length row = 10%nat /\
  forall e, In e row ->
    dec (-1.5) <= e /\ e <= dec 1.4 /\
    (t <= dec 20 -> 0 <= e) /\ (dec 20 <= t -> e <= 0) /\
    exists n : Z, e * dec 10 = of_Z n.
Proof.
  unfold DensityTable.table_row. intros H.
  destruct (find _ DensityTable.CORRECTION_TABLE) as [[k r]|] eqn:E; [|discriminate].
  injection H as ->. apply find_some in E as [Hin Hk]. cbn [fst] in Hk.
  apply eqb_true in Hk. subst k.
  pose proof table_check as Hc. rewrite forallb_forall in Hc.
  specialize (Hc _ Hin). cbn [fst snd] in Hc.
  apply andb_true_iff in Hc as [Hl Hc]. apply Nat.eqb_eq in Hl.
  split; [exact Hl|]. intros e He. rewrite forallb_forall in Hc.
  specialize (Hc e He).
  repeat (apply andb_true_iff in Hc; destruct Hc as [Hc ?]).
  repeat match goal with
         | H : (_ <=? _) = true |- _ => apply leb_true in H
         end.
  repeat split; try assumption.
  - intros Ht. apply leb_true in Ht.
    match goal with H : implb _ (0 <=? e) = true |- _ => rewrite Ht in H; apply leb_true in H; exact H end.
  - intros Ht. apply leb_true in Ht.
    match goal with H : implb _ (e <=? 0) = true |- _ => rewrite Ht in H; apply leb_true in H; exact H end.
  - exists (floor (e * dec 10)). symmetry. apply eqb_true. assumption.
Qed.

(** Every integer temperature from 10 to 30 has its row. *)
Lemma table_row_total (k : Z) :
  (10 <= k <= 30)%Z -> exists row, DensityTable.table_row (of_Z k) = Some row.
Proof.
  intros H.
  assert (Hk : In k [10; 11; 12; 13; 14; 15; 16; 17; 18; 19; 20; 21; 22; 23; 24; 25;
                     26; 27; 28; 29; 30]%Z) by (cbn; lia).
  cbn [In] in Hk.
  repeat (destruct Hk as [Hk | Hk]; [subst k; eexists; vm_compute; reflexivity|]).
  destruct Hk.
Qed.

Lemma table_entry (k : Z) (i : nat) :
  (10 <= k <= 30)%Z -> (i <= 9)%nat ->
  exists row e,
    DensityTable.table_row (of_Z k) = Some row /\ nth_error row i = Some e /\
    dec (-1.5) <= e /\ e <= dec 1.4 /\
    (of_Z k <= dec 20 -> 0 <= e) /\ (dec 20 <= of_Z k -> e <= 0) /\
    exists n : Z, e * dec 10 = of_Z n.
Proof.
  intros Hk Hi. destruct (table_row_total k Hk) as [row Hrow].
  destruct (table_row_found _ _ Hrow) as [Hlen Hall].
  destruct (nth_error row i) as [e|] eqn:E.
  - exists row, e. split; [exact Hrow|]. split; [exact E|].
    apply Hall. eapply nth_error_In. exact E.
  - apply nth_error_None in E. lia.
Qed.

(** ** The clamped temperature and its neighbours *)

Lemma clamp_spec (t : number) :
  let c := Math_max (dec 10) (Math_min (dec 30) t) in
  dec 10 <= c /\ c <= dec 30 /\
  (dec 10 <= t -> t <= dec 30 -> c = t) /\
  (t <= dec 20 -> c <= dec 20) /\ (dec 20 <= t -> dec 20 <= c).
Proof.
  cbv zeta. unfold Math_max, Math_min.
  destruct (t <? dec 30) eqn:E1; [apply ltb_true in E1 | apply ltb_false in E1].
  - destruct (dec 10 <? t) eqn:E2; [apply ltb_true in E2 | apply ltb_false in E2].
    + repeat split; try qlra.
    + repeat split; try qlra. intros. apply Qc_is_canon. qlra.
  - replace (dec 10 <? dec 30) with true by reflexivity.
    repeat split; try qlra. intros. apply Qc_is_canon. qlra.
Qed.

Lemma of_Z_inj (a b : Z) : of_Z a = of_Z b -> a = b.
Proof.
  intros H. apply Qc_eq_iff in H. rewrite !this_of_Z in H.
  apply inject_Z_injective. exact H.
Qed.

Lemma of_Z_le (a b : Z) : (a <= b)%Z -> of_Z a <= of_Z b.
Proof. intros H. unfold Qcle. autorewrite with toQ. rewrite <- Zle_Qle. exact H. Qed.

Lemma floor_ceil (c : number) :
  dec 10 <= c -> c <= dec 30 ->
  let lo := floor c in
  let hi := Qceiling c in
  (10 <= lo)%Z /\ (hi <= 30)%Z /\ (lo <= hi)%Z /\ (hi <= lo + 1)%Z /\
  of_Z lo <= c /\ c <= of_Z hi /\
  (lo = hi -> c = of_Z lo) /\
  (c <= dec 20 -> (hi <= 20)%Z) /\ (dec 20 <= c -> (20 <= lo)%Z).
Proof.
  intros H10 H30. cbv zeta. unfold floor.
  pose proof (Qfloor_le (this c)) as F1. pose proof (Qlt_floor (this c)) as F2.
  pose proof (Qle_ceiling (this c)) as C1. pose proof (Qceiling_lt (this c)) as C2.
  assert (A1 : (10 <= Qfloor c)%Z).
  { change 10%Z with (Qfloor 10). apply Qfloor_resp_le. unfold Qcle in H10. toQ. lra. }
  assert (A2 : (Qceiling c <= 30)%Z).
  { change 30%Z with (Qceiling 30). apply Qceiling_resp_le. unfold Qcle in H30. toQ. lra. }
  assert (A3 : (Qfloor c <= Qceiling c)%Z) by (rewrite Zle_Qle; lra).
  assert (A4 : (Qceiling c <= Qfloor c + 1)%Z).
  { apply Z.lt_succ_r. unfold Z.succ. rewrite Zlt_Qlt.
    rewrite inject_Z_plus in F2 |- *. unfold Z.sub in C2.
    rewrite inject_Z_plus in C2 |- *. rewrite inject_Z_opp in C2.
    change (inject_Z 1) with 1%Q in *. lra. }
  repeat split; try assumption.
  - unfold Qcle. toQ. lra.
  - unfold Qcle. toQ. lra.
  - intros E. apply Qc_is_canon. toQ. rewrite <- E in C1. lra.
  - intros H. change 20%Z with (Qceiling 20). apply Qceiling_resp_le.
    unfold Qcle in H. toQ. lra.
  - intros H. change 20%Z with (Qfloor 20). apply Qfloor_resp_le.
    unfold Qcle in H. toQ. lra.
Qed.

(** ** Rounding to one decimal with [Math.round] *)

Lemma Math_round_int (n : Z) : Math_round (of_Z n) = of_Z n.
Proof.
  destruct (Math_round_spec (of_Z n)) as (m & E & H1 & H2). rewrite E.
  f_equal. revert H1 H2. unfold Qclt, Qcle. autorewrite with toQ. intros H1 H2.
  assert (Hm : (n - 1 < m < n + 1)%Z).
  { split; rewrite Zlt_Qlt; [unfold Z.sub; rewrite inject_Z_plus, inject_Z_opp
                            | rewrite inject_Z_plus];
      change (inject_Z 1) with 1%Q; lra. }
  lia.
Qed.

Lemma round1_spec (x : number) :
  let y := Math_round (x * dec 10) / dec 10 in
  (exists n : Z, y * dec 10 = of_Z n) /\
  x - dec 0.05 < y /\ y <= x + dec 0.05 /\
  (0 <= x -> 0 <= y) /\ (x <= 0 -> y <= 0) /\
  (dec (-1.5) <= x -> dec (-1.5) <= y) /\ (x <= dec 1.4 -> y <= dec 1.4) /\
  ((exists n : Z, x * dec 10 = of_Z n) -> y = x).
Proof.
  cbv zeta. destruct (Math_round_spec (x * dec 10)) as (m & E & H1 & H2). rewrite E.
  revert H1 H2. unfold Qclt, Qcle. autorewrite with toQ. inv_consts. intros H1 H2.
  split; [|split; [|split; [|split; [|split; [|split; [|split]]]]]].
  - exists m. apply Qc_is_canon. autorewrite with toQ. inv_consts. ring.
  - lra.
  - lra.
  - intros H. assert (Hm : (-1 < m)%Z).
    { rewrite Zlt_Qlt. change (inject_Z (-1)) with (-1)%Q. lra. }
    assert (Hm' : (0 <= m)%Z) by lia. rewrite Zle_Qle in Hm'.
    change (inject_Z 0) with 0%Q in Hm'. lra.
  - intros H. assert (Hm : (m < 1)%Z).
    { rewrite Zlt_Qlt. change (inject_Z 1) with 1%Q. lra. }
    assert (Hm' : (m <= 0)%Z) by lia. rewrite Zle_Qle in Hm'.
    change (inject_Z 0) with 0%Q in Hm'. lra.
  - intros H. assert (Hm : (-16 < m)%Z).
    { rewrite Zlt_Qlt. change (inject_Z (-16)) with (-16)%Q. lra. }
    assert (Hm' : (-15 <= m)%Z) by lia. rewrite Zle_Qle in Hm'.
    change (inject_Z (-15)) with (-15)%Q in Hm'. lra.
  - intros H. assert (Hm : (m < 15)%Z).
    { rewrite Zlt_Qlt. change (inject_Z 15) with 15%Q. lra. }
    assert (Hm' : (m <= 14)%Z) by lia. rewrite Zle_Qle in Hm'.
    change (inject_Z 14) with 14%Q in Hm'. lra.
  - intros [n Hn]. apply Qc_is_canon. apply Qc_eq_iff in Hn.
    autorewrite with toQ in *. inv_consts.
    assert (Hm : (n - 1 < m < n + 1)%Z).
    { split; rewrite Zlt_Qlt; [unfold Z.sub; rewrite inject_Z_plus, inject_Z_opp
                              | rewrite inject_Z_plus];
        change (inject_Z 1) with 1%Q; lra. }
    assert (Em : m = n) by lia. subst m. lra.
Qed.

(** ** What [getHydrometerCorrection] returns *)

Lemma between_entries (a b f : number) :
  0 <= f -> f <= 1 ->
  (dec (-1.5) <= a -> dec (-1.5) <= b -> dec (-1.5) <= a + (b - a) * f) /\
  (a <= dec 1.4 -> b <= dec 1.4 -> a + (b - a) * f <= dec 1.4) /\
  (0 <= a -> 0 <= b -> 0 <= a + (b - a) * f) /\
  (a <= 0 -> b <= 0 -> a + (b - a) * f <= 0).
Proof.
  intros H0 H1. unfold Qcle in *. autorewrite with toQ in *.
  repeat split; intros; nra.
Qed.

(** The record is always there.  Its [correction] is the one-decimal
    rounding of a number [raw] that lies between two entries of the column
    of the reading, in the rows of the integer temperatures next to the
    clamped temperature. *)
Lemma table_correction (readingAbv tempC : number) :
  exists raw,
    (exists min max label,
       nth_error DensityTable.ABV_RANGES (DensityTable.getAbvRangeIndex readingAbv)
       = Some (min, max, label) /\
       DensityTable.getHydrometerCorrection readingAbv tempC
       = Some {| DensityTable.correction := Math_round (raw * dec 10) / dec 10;
                 DensityTable.trueAbv :=
                   Math_round ((readingAbv + Math_round (raw * dec 10) / dec 10) * dec 10)
                   / dec 10;
                 DensityTable.abvRange := label;
                 DensityTable.tempRounded :=
                   Math_round (Math_max (dec 10) (Math_min (dec 30) tempC));
                 DensityTable.interpolated :=
                   negb (eqb (Math_floor (Math_max (dec 10) (Math_min (dec 30) tempC)))
                           (Math_ceil (Math_max (dec 10) (Math_min (dec 30) tempC)))) |}) /\
    dec (-1.5) <= raw /\ raw <= dec 1.4 /\
    (tempC <= dec 20 -> 0 <= raw) /\ (dec 20 <= tempC -> raw <= 0) /\
    (Math_floor (Math_max (dec 10) (Math_min (dec 30) tempC))
     = Math_ceil (Math_max (dec 10) (Math_min (dec 30) tempC)) ->
     exists n : Z, raw * dec 10 = of_Z n).
Proof.
  unfold DensityTable.getHydrometerCorrection. cbv zeta.
  destruct (getAbvRangeIndex_spec readingAbv) as [Hi _].
  revert Hi. generalize (DensityTable.getAbvRangeIndex readingAbv). intros i Hi.
  destruct (nth_error DensityTable.ABV_RANGES i) as [[[mn mx] label]|] eqn:EN;
    [|apply nth_error_None in EN; cbn in EN; lia].
  destruct (clamp_spec tempC) as (C10 & C30 & _ & Cle & Cge). cbv zeta in *.
  revert C10 C30 Cle Cge. generalize (Math_max (dec 10) (Math_min (dec 30) tempC)).
  intros c C10 C30 Cle Cge.
  destruct (floor_ceil c C10 C30) as (F10 & F30 & Flh & Fhl & Flo & Fhi & Fint & Fle & Fge).
  cbv zeta in *. unfold Math_floor, Math_ceil.
  destruct (eqb (of_Z (floor c)) (of_Z (Qceiling c))) eqn:EQ.
  - apply eqb_true, of_Z_inj in EQ. specialize (Fint EQ).
    destruct (table_entry (floor c) i ltac:(lia) Hi)
      as (row & e & Hrow & He & B1 & B2 & B3 & B4 & B5).
    assert (ER : Math_round c = of_Z (floor c))
      by (rewrite Fint at 1; apply Math_round_int).
    rewrite ER, Hrow, He. cbv iota beta.
    exists e. split.
    + exists mn, mx, label. split; reflexivity.
    + repeat split; try assumption.
      * intros Ht. apply B3. rewrite <- Fint. apply Cle. exact Ht.
      * intros Ht. apply B4. rewrite <- Fint. apply Cge. exact Ht.
      * intros _. exact B5.
  - apply eqb_false in EQ.
    assert (Eh : Qceiling c = (floor c + 1)%Z).
    { assert (floor c <> Qceiling c) by (intros E; apply EQ; rewrite E; reflexivity).
      lia. }
    destruct (table_entry (floor c) i ltac:(lia) Hi)
      as (row & e & Hrow & He & B1 & B2 & B3 & B4 & _).
    destruct (table_entry (Qceiling c) i ltac:(lia) Hi)
      as (row' & e' & Hrow' & He' & B1' & B2' & B3' & B4' & _).
    rewrite Hrow, Hrow', He, He'. cbv iota beta.
    exists (e + (e' - e) * (c - of_Z (floor c))). split.
    + exists mn, mx, label. split; reflexivity.
    + assert (Hf : 0 <= c - of_Z (floor c) /\ c - of_Z (floor c) <= 1).
      { rewrite Eh in Fhi. revert Flo Fhi. unfold Qcle. autorewrite with toQ.
        rewrite inject_Z_plus. change (inject_Z 1) with 1%Q. intros. split; lra. }
      destruct Hf as [Hf0 Hf1].
      destruct (between_entries e e' (c - of_Z (floor c)) Hf0 Hf1) as (K1 & K2 & K3 & K4).
      repeat split.
      * apply K1; assumption.
      * apply K2; assumption.
      * intros Ht. specialize (Fle (Cle Ht)).
        apply K3; [apply B3; apply (of_Z_le _ 20) | apply B3'; apply (of_Z_le _ 20)]; lia.
      * intros Ht. specialize (Fge (Cge Ht)).
        apply K4; [apply B4; apply (of_Z_le 20) | apply B4'; apply (of_Z_le 20)]; lia.
      * intros E. apply of_Z_inj in E. exfalso. apply EQ. rewrite E. reflexivity.
Qed.

Local Close Scope num_scope.
Local Close Scope Qc_scope.

Local Open Scope Qc_scope.
Local Open Scope num_scope.

(** * The table revision: the hydrometer corrector *)

(** The table corrector always returns a record: no lookup misses.  Its
    correction has one decimal and lies between -1.5 and 1.4; it is not
    negative up to 20 C and not positive from 20 C on. *)
Theorem table_correction_bounds (readingAbv tempC : number) :
  exists r,
    DensityTable.getHydrometerCorrection readingAbv tempC = Some r /\
    dec (-1.5) <= DensityTable.correction r /\ DensityTable.correction r <= dec 1.4 /\
    (tempC <= dec 20 -> 0 <= DensityTable.correction r) /\
    (dec 20 <= tempC -> DensityTable.correction r <= 0) /\
    decimals 1 (DensityTable.correction r).
Proof.
  destruct (table_correction readingAbv tempC)
    as (raw & (mn & mx & label & _ & E) & B1 & B2 & B3 & B4 & _).
  eexists. split; [exact E|]. cbn [DensityTable.correction].
  destruct (round1_spec raw) as (D & _ & _ & R1 & R2 & R3 & R4 & _). cbv zeta in *.
  revert D R1 R2 R3 R4. generalize (Math_round (raw * dec 10) / dec 10).
  intros y D R1 R2 R3 R4.
  repeat split; auto.
Qed.


Lemma clamp_low (t : number) :
  t <= dec 10 -> Math_max (dec 10) (Math_min (dec 30) t) = dec 10.
Proof.
  intros H. unfold Math_max, Math_min.
  replace (t <? dec 30) with true by (symmetry; apply ltb_true; qlra).
  replace (dec 10 <? t) with false by (symmetry; apply ltb_false; assumption).
  reflexivity.
Qed.

Lemma clamp_high (t : number) :
  dec 30 <= t -> Math_max (dec 10) (Math_min (dec 30) t) = dec 30.
Proof.
  intros H. unfold Math_max, Math_min.
  replace (t <? dec 30) with false by (symmetry; apply ltb_false; assumption).
  reflexivity.
Qed.

(** Outside the table the corrector uses its nearest edge: up to 10 C it
    returns what it returns at 10 C, and from 30 C on what it returns at
    30 C. *)
Theorem table_clamps_temperature (readingAbv tempC : number) :
  (tempC <= dec 10 ->
   DensityTable.getHydrometerCorrection readingAbv tempC
   = DensityTable.getHydrometerCorrection readingAbv (dec 10)) /\
  (dec 30 <= tempC ->
   DensityTable.getHydrometerCorrection readingAbv tempC
   = DensityTable.getHydrometerCorrection readingAbv (dec 30)).
Proof.
  split; intros H; unfold DensityTable.getHydrometerCorrection; cbv zeta.
  - rewrite (clamp_low tempC H), (clamp_low (dec 10) (Qcle_refl _)). reflexivity.
  - rewrite (clamp_high tempC H), (clamp_high (dec 30) (Qcle_refl _)). reflexivity.
Qed.

Lemma integer_iff_floor_ceil (c : number) :
  dec 10 <= c -> c <= dec 30 ->
  eqb (Math_floor c) (Math_ceil c) = true <-> exists n : Z, c = of_Z n.
Proof.
  intros C10 C30.
  destruct (floor_ceil c C10 C30) as (_ & _ & _ & _ & Flo & Fhi & Fint & _).
  cbv zeta in *. unfold Math_floor, Math_ceil. rewrite eqb_true. split.
  - intros E. apply of_Z_inj in E. exists (floor c). apply Fint. exact E.
  - intros [n Hn]. f_equal. unfold floor. rewrite Hn.
    rewrite (Qfloor_comp _ (inject_Z n) (this_of_Z n)).
    rewrite (Qceiling_comp _ (inject_Z n) (this_of_Z n)).
    rewrite Qfloor_Z, Qceiling_Z. reflexivity.
Qed.

Lemma Math_round_range (c : number) :
  dec 10 <= c -> c <= dec 30 ->
  dec 10 <= Math_round c /\ Math_round c <= dec 30 /\
  exists n : Z, Math_round c = of_Z n.
Proof.
  intros C10 C30. destruct (Math_round_spec c) as (n & E & H1 & H2). rewrite E.
  assert (Hn : (9 < n < 31)%Z).
  { revert H1 H2. unfold Qclt, Qcle in *. autorewrite with toQ in *. intros H1 H2.
    split; rewrite Zlt_Qlt;
      [change (inject_Z 9) with 9%Q | change (inject_Z 31) with 31%Q]; lra. }
  split; [apply (of_Z_le 10); lia|]. split; [apply (of_Z_le _ 30); lia|].
  exists n. reflexivity.
Qed.

(** The temperature the table corrector reports is an integer between 10
    and 30, the nearest integer to the temperature when that lies in
    [10, 30]; and it interpolates exactly when the clamped temperature is not
    an integer. *)
Theorem table_temperature_used (readingAbv tempC : number) :
  exists r,
    DensityTable.getHydrometerCorrection readingAbv tempC = Some r /\
    dec 10 <= DensityTable.tempRounded r /\ DensityTable.tempRounded r <= dec 30 /\
    (exists n : Z, DensityTable.tempRounded r = of_Z n) /\
    (dec 10 <= tempC -> tempC <= dec 30 ->
     DensityTable.tempRounded r = Math_round tempC /\
     (DensityTable.interpolated r = false <-> exists n : Z, tempC = of_Z n)) /\
    (tempC <= dec 10 \/ dec 30 <= tempC -> DensityTable.interpolated r = false).
Proof.
  destruct (table_correction readingAbv tempC)
    as (raw & (mn & mx & label & _ & E) & _).
  eexists. split; [exact E|].
  cbn [DensityTable.tempRounded DensityTable.interpolated].
  destruct (clamp_spec tempC) as (C10 & C30 & Cid & _). cbv zeta in *.
  destruct (Math_round_range _ C10 C30) as (R1 & R2 & R3).
  pose proof (integer_iff_floor_ceil _ C10 C30) as HI.
  split; [exact R1|]. split; [exact R2|]. split; [exact R3|]. split.
  - intros H10 H30. rewrite (Cid H10 H30) in *. split; [reflexivity|].
    rewrite <- HI. destruct (eqb _ _); cbn [negb]; split; congruence.
  - intros [H | H].
    + rewrite (clamp_low tempC H). reflexivity.
    + rewrite (clamp_high tempC H). reflexivity.
Qed.


(** * The table revision: densities *)

Lemma powers_bounds (t : Q) :
  (-10 <= t -> t <= 50 ->
   0 <= Qpow t 2 /\ Qpow t 2 <= 2500 /\ -25000 <= Qpow t 3 /\ Qpow t 3 <= 125000)%Q.
Proof.
  intros H1 H2.
  assert (E2 : (Qpow t 2 == t * t)%Q) by (cbn [Qpow]; ring).
  assert (E3 : (Qpow t 3 == t * (t * t))%Q) by (cbn [Qpow]; ring).
  assert (S0 : (0 <= t * t)%Q) by nra.
  assert (S1 : (t * t <= 2500)%Q) by nra.
  revert E2 E3 S0 S1. generalize (Qpow t 2) (Qpow t 3) (t * t)%Q.
  intros a b s E2 E3 S0 S1.
  repeat split; try lra; nra.
Qed.

(** Between -10 and 50 C the closed formulas stay in these bounds. *)
Lemma table_pure_densities (t : number) :
  - dec 10 <= t -> t <= dec 50 ->
  dec 0.54 <= DensityTable.calculateWaterDensity t /\
  DensityTable.calculateWaterDensity t <= dec 1.21 /\
  dec 0.7 <= DensityTable.calculateEthanolDensity t /\
  DensityTable.calculateEthanolDensity t <= dec 0.8.
Proof.
  intros H1 H2.
  unfold DensityTable.calculateWaterDensity, DensityTable.calculateEthanolDensity.
  cbv zeta. unfold Qcle in *. autorewrite with toQ in *.
  destruct (powers_bounds (this t) H1 H2) as (P1 & P2 & P3 & P4).
  revert P1 P2 P3 P4. generalize (Qpow (this t) 2) (Qpow (this t) 3).
  intros s c P1 P2 P3 P4.
  split; [|split; [|split]]; try lra.
  - apply Qle_shift_div_l; lra.
  - apply Qle_shift_div_r; lra.
Qed.

Lemma Qsquare_nonneg (x : Q) : (0 <= x * x)%Q.
Proof. nra. Qed.

Lemma table_mixture (w e f a : Q) :
  (0.54 <= w -> w <= 1.21 -> 0.7 <= e -> e <= 0.8 -> 0 <= f -> f <= 1 ->
   0 <= a -> a <= 30 ->
   0.539 <= w - f * (w - e) - f * (1 - f) * (0.0025 + (0.0005 * a) / 10) /\
   w - f * (w - e) - f * (1 - f) * (0.0025 + (0.0005 * a) / 10) <= 1.21)%Q.
Proof.
  intros W1 W2 E1 E2 F1 F2 A1 A2.
  assert (P1 : (0 <= f * (1 - f))%Q) by nra.
  assert (P2 : (f * (1 - f) <= 1 # 4)%Q).
  { pose proof (Qsquare_nonneg (f - (1 # 2))) as Sq.
    assert (Id : (f * (1 - f) == (1 # 4) - (f - (1 # 2)) * (f - (1 # 2)))%Q) by ring.
    rewrite Id. lra. }
  assert (M1 : (0.54 <= w - f * (w - e))%Q).
  { assert (T1 : (0 <= (1 - f) * (w - 0.54))%Q) by (apply Qmult_le_0_compat; lra).
    assert (T2 : (0 <= f * (e - 0.54))%Q) by (apply Qmult_le_0_compat; lra).
    assert (Id : (w - f * (w - e) == 0.54 + (1 - f) * (w - 0.54) + f * (e - 0.54))%Q)
      by ring.
    rewrite Id. lra. }
  assert (M2 : (w - f * (w - e) <= 1.21)%Q).
  { assert (T1 : (0 <= (1 - f) * (1.21 - w))%Q) by (apply Qmult_le_0_compat; lra).
    assert (T2 : (0 <= f * (1.21 - e))%Q) by (apply Qmult_le_0_compat; lra).
    assert (Id : (w - f * (w - e) == 1.21 - (1 - f) * (1.21 - w) - f * (1.21 - e))%Q)
      by ring.
    rewrite Id. lra. }
  assert (K : ((0.0025 + (0.0005 * a) / 10) == 0.0025 + 0.00005 * a)%Q) by field.
  rewrite K.
  revert P1 P2 M1 M2. generalize (f * (1 - f))%Q (w - f * (w - e))%Q.
  intros g m P1 P2 M1 M2. split; nra.
Qed.

Lemma toFixed_4_0539 : toFixed (dec 0.539) 4 = dec 0.539.
Proof. number_eq. Qed.

Lemma toFixed_4_121 : toFixed (dec 1.21) 4 = dec 1.21.
Proof. number_eq. Qed.

Lemma table_density_inner (abv tempC : number)
    (Hlow : 0 < abv) (Hhigh : abv < dec 100)
    (Hcold : - dec 10 <= tempC) (Hwarm : tempC <= dec 50) :
  decimals 4 (DensityTable.calculateDensity abv tempC) /\
  dec 0.539 <= DensityTable.calculateDensity abv tempC /\
  DensityTable.calculateDensity abv tempC <= dec 1.21.
Proof.
  unfold DensityTable.calculateDensity. cbv zeta.
  destruct (abv <=? 0) eqn:E1; [apply leb_true in E1; exfalso; qlra|].
  destruct (abv >=? dec 100) eqn:E2; [apply geb_true in E2; exfalso; qlra|].
  clear E1 E2.
  destruct (table_pure_densities tempC Hcold Hwarm) as (W1 & W2 & E1 & E2).
  destruct (table_fraction_bounds abv abv ltac:(qlra) (Qcle_refl _) ltac:(qlra))
    as (_ & F1 & F2 & _).
  assert (F3 : DensityTable.abvToMassFraction abv <= 1) by qlra.
  assert (A : 0 <= Math_abs (dec 20 - tempC) /\ Math_abs (dec 20 - tempC) <= dec 30).
  { unfold Math_abs. split; [apply Qcabs_nonneg|].
    apply Qcabs_Qcle_condition. split; qlra. }
  destruct A as [A1 A2]. clear F2.
  revert W1 W2 E1 E2 F1 F3 A1 A2.
  generalize (DensityTable.calculateWaterDensity tempC)
             (DensityTable.calculateEthanolDensity tempC)
             (DensityTable.abvToMassFraction abv) (Math_abs (dec 20 - tempC)).
  intros w e f a W1 W2 E1 E2 F1 F3 A1 A2.
  assert (M : dec 0.539 <= w - f * (w - e) - f * (1 - f) * (dec 0.0025 + (dec 0.0005 * a) / dec 10)
              /\ w - f * (w - e) - f * (1 - f) * (dec 0.0025 + (dec 0.0005 * a) / dec 10)
                 <= dec 1.21).
  { unfold Qcle in *. autorewrite with toQ in *. apply table_mixture; assumption. }
  destruct M as [M1 M2].
  revert M1 M2.
  generalize (w - f * (w - e) - f * (1 - f) * (dec 0.0025 + (dec 0.0005 * a) / dec 10)).
  intros m M1 M2.
  split; [|split].
  - apply toFixed_decimals; qlra.
  - rewrite <- toFixed_4_0539. apply toFixed_monotone. assumption.
  - rewrite <- toFixed_4_121. apply toFixed_monotone. assumption.
Qed.

(** Strictly between 0 and 100 % ABV, and between -10 and 50 C, the table
    revision's [calculateDensity] returns a number with at most 4 decimals
    between 0.539 and 1.21 (at 0 and at 100 % it returns the unrounded
    closed formulas). *)
Theorem table_density_rounded (abv tempC : number)
    (Hlow : 0 < abv) (Hhigh : abv < dec 100)
    (Hcold : - dec 10 <= tempC) (Hwarm : tempC <= dec 50) :
  decimals 4 (DensityTable.calculateDensity abv tempC) /\
  dec 0.539 <= DensityTable.calculateDensity abv tempC /\
  DensityTable.calculateDensity abv tempC <= dec 1.21.
Proof. exact (table_density_inner abv tempC Hlow Hhigh Hcold Hwarm). Qed.

Lemma table_density_rounded_witness :
  (0 < dec 40 /\ dec 40 < dec 100 /\ - dec 10 <= dec 25 /\ dec 25 <= dec 50) /\
  decimals 4 (DensityTable.calculateDensity (dec 40) (dec 25)) /\
  dec 0.539 <= DensityTable.calculateDensity (dec 40) (dec 25) /\
  DensityTable.calculateDensity (dec 40) (dec 25) <= dec 1.21.
Proof.
  assert (H1 : 0 < dec 40) by number_cmp.
  assert (H2 : dec 40 < dec 100) by number_cmp.
  assert (H3 : - dec 10 <= dec 25) by number_cmp.
  assert (H4 : dec 25 <= dec 50) by number_cmp.
  exact (conj (conj H1 (conj H2 (conj H3 H4)))
           (table_density_rounded (dec 40) (dec 25) H1 H2 H3 H4)).
Defined.

Lemma table_crossing (t s c : Q) :
  (18 <= t -> t <= 50 -> s == t * t -> c == t * (t * t) ->
   (0.999965 + 0.0003974 * t - 0.000005424 * s + 0.00000003308 * c)
   < (0.792344 - 0.000725 * t - 0.000002 * s) * (1 + 0.01688 * t))%Q.
Proof.
  intros H1 H2 Es Ec.
  assert (S1 : (s <= 50 * t)%Q) by (rewrite Es; nra).
  assert (S0 : (0 <= s)%Q) by (rewrite Es; nra).
  assert (C1 : (c <= 2500 * t)%Q) by (rewrite Ec; nra).
  assert (C0 : (0 <= c)%Q) by (rewrite Ec; nra).
  assert (X : ((0.792344 - 0.000725 * t - 0.000002 * s) * (1 + 0.01688 * t)
               == 0.792344 + 0.01264976672 * t - 0.000002 * s
                  - 0.000012238 * s - 0.00000003376 * c)%Q).
  { rewrite Es, Ec. ring. }
  rewrite X. lra.
Qed.

(** From 18 C to 50 C the table revision's closed formula for water gives
    less than the one for ethanol, so that there [calculateDensity] makes
    pure water lighter than pure ethanol. *)
Theorem table_water_below_ethanol (tempC : number)
    (Hcold : dec 18 <= tempC) (Hwarm : tempC <= dec 50) :
  DensityTable.calculateWaterDensity tempC < DensityTable.calculateEthanolDensity tempC /\
  DensityTable.calculateDensity 0 tempC < DensityTable.calculateDensity (dec 100) tempC.
Proof.
  assert (H : DensityTable.calculateWaterDensity tempC
              < DensityTable.calculateEthanolDensity tempC).
  { unfold DensityTable.calculateWaterDensity, DensityTable.calculateEthanolDensity.
    cbv zeta. unfold Qcle, Qclt in *. autorewrite with toQ in *.
    apply Qlt_shift_div_r; [lra|].
    apply table_crossing; try assumption; cbn [Qpow]; ring. }
  split; [exact H|].
  unfold DensityTable.calculateDensity. cbv zeta.
  replace (0 <=? 0) with true by reflexivity.
  replace (dec 100 <=? 0) with false by reflexivity.
  replace (dec 100 >=? dec 100) with true by reflexivity.
  exact H.
Qed.

Lemma table_water_below_ethanol_witness :
  (dec 18 <= dec 20 /\ dec 20 <= dec 50) /\
  DensityTable.calculateWaterDensity (dec 20) < DensityTable.calculateEthanolDensity (dec 20) /\
  DensityTable.calculateDensity 0 (dec 20) < DensityTable.calculateDensity (dec 100) (dec 20).
Proof.
  assert (H1 : dec 18 <= dec 20) by number_cmp.
  assert (H2 : dec 20 <= dec 50) by number_cmp.
  exact (conj (conj H1 H2) (table_water_below_ethanol (dec 20) H1 H2)).
Defined.

(** * The table revision: dilution *)

Lemma table_fraction_pos (abv : number) :
  0 < abv -> abv <= dec 100 -> 0 < DensityTable.abvToMassFraction abv.
Proof.
  intros H0 H1. destruct (table_fraction_Q abv H1) as [E D].
  revert E. generalize (DensityTable.abvToMassFraction abv). intros f E.
  unfold Qclt, Qcle in *. autorewrite with toQ in *.
  destruct (Qlt_le_dec 0 (this f)) as [Hf | Hf]; [assumption | exfalso; nra].
Qed.



(** * The table revision: volumes *)

Lemma table_density_bounds (abv tempC : number) :
  - dec 10 <= tempC -> tempC <= dec 50 ->
  dec 0.539 <= DensityTable.calculateDensity abv tempC /\
  DensityTable.calculateDensity abv tempC <= dec 1.21.
Proof.
  intros Hcold Hwarm.
  destruct (table_pure_densities tempC Hcold Hwarm) as (W1 & W2 & E1 & E2).
  destruct (abv <=? 0) eqn:A1.
  - unfold DensityTable.calculateDensity. cbv zeta. rewrite A1.
    revert W1 W2. generalize (DensityTable.calculateWaterDensity tempC).
    intros w W1 W2. split; qlra.
  - destruct (abv >=? dec 100) eqn:A2.
    + unfold DensityTable.calculateDensity. cbv zeta. rewrite A1, A2.
      revert E1 E2. generalize (DensityTable.calculateEthanolDensity tempC).
      intros e E1 E2. split; qlra.
    + apply leb_false in A1. apply geb_false in A2.
      destruct (table_density_inner abv tempC A1 A2 Hcold Hwarm) as (_ & H1 & H2).
      split; assumption.
Qed.



Local Close Scope num_scope.
Local Close Scope Qc_scope.

(** * The state in the URL fragment *)

Lemma split_not_nil (c : ascii) (s : string) : Page.split c s <> [].
Proof.
  induction s as [|a s IH]; cbn [Page.split]; [discriminate|].
  destruct (Ascii.eqb a c); [discriminate|].
  destruct (Page.split c s); discriminate.
Qed.

Lemma split_plain (c : ascii) (p : string) :
  occurs c p = false -> Page.split c p = [p].
Proof.
  induction p as [|a p IH]; cbn [Page.split occurs]; [reflexivity|].
  intros H. apply orb_false_iff in H as [Ha Hp].
  rewrite Ha, (IH Hp). reflexivity.
Qed.

Lemma split_app (c : ascii) (p rest : string) :
  occurs c p = false ->
  Page.split c (p ++ String c rest) = p :: Page.split c rest.
Proof.
  induction p as [|a p IH]; cbn [Page.split occurs append].
  - intros _. rewrite Ascii.eqb_refl. reflexivity.
  - intros H. apply orb_false_iff in H as [Ha Hp].
    rewrite Ha, (IH Hp). reflexivity.
Qed.

(** Splitting what [join] built gives the parts back, when none of them
    holds the separator. *)
Lemma split_join (c : ascii) (parts : list string) :
  parts <> [] ->
  forallb (fun p => negb (occurs c p)) parts = true ->
  Page.split c (Page.join (String c EmptyString) parts) = parts.
Proof.
  unfold Page.join.
  induction parts as [|p parts IH]; [congruence|].
  intros _ H. cbn [forallb] in H. apply andb_true_iff in H as [Hp Hps].
  apply negb_true_iff in Hp.
  destruct parts as [|q parts].
  - cbn [concat]. apply split_plain. exact Hp.
  - change (concat (String c EmptyString) (p :: q :: parts))
      with (p ++ String c EmptyString ++ concat (String c EmptyString) (q :: parts))%string.
    cbn [append]. rewrite split_app by exact Hp.
    rewrite IH; [reflexivity | discriminate | exact Hps].
Qed.

Lemma or_else_plain (c : ascii) (f : string) :
  occurs c f = false -> occurs c "_" = false ->
  occurs c (Page.or_else f "_") = false.
Proof.
  intros Hf Hc. unfold Page.or_else. destruct (String.eqb f EmptyString); assumption.
Qed.

Lemma get_encoded (f d : string) :
  (if negb (String.eqb (Page.or_else f "_") EmptyString)
      && negb (String.eqb (Page.or_else f "_") "_")
   then Page.or_else f "_" else d) = restored f d.
Proof.
  unfold Page.or_else, restored.
  destruct (String.eqb f EmptyString) eqn:E1; [reflexivity|].
  rewrite E1. destruct (String.eqb f "_"); reflexivity.
Qed.

Lemma get_raw (f d : string) :
  (if negb (String.eqb f EmptyString) && negb (String.eqb f "_") then f else d)
  = restored f d.
Proof.
  unfold restored.
  destruct (String.eqb f EmptyString); [reflexivity|].
  destruct (String.eqb f "_"); reflexivity.
Qed.

Lemma or_else_restored (f d : string) :
  d <> EmptyString -> Page.or_else (restored f d) d = restored f d.
Proof.
  intros Hd. unfold Page.or_else, restored.
  destruct (String.eqb f EmptyString) eqn:E1; cbn [orb].
  - apply String.eqb_neq in Hd. rewrite Hd. reflexivity.
  - destruct (String.eqb f "_").
    + apply String.eqb_neq in Hd. rewrite Hd. reflexivity.
    + rewrite E1. reflexivity.
Qed.

Lemma restored_kept (f d : string) :
  negb (String.eqb f EmptyString) = true -> negb (String.eqb f "_") = true ->
  restored f d = f.
Proof.
  intros H1 H2. apply negb_true_iff in H1, H2. unfold restored.
  rewrite H1, H2. reflexivity.
Qed.

Lemma restored_empty (f : string) :
  negb (String.eqb f "_") = true -> restored f EmptyString = f.
Proof.
  intros H2. apply negb_true_iff in H2. unfold restored. rewrite H2.
  destruct (String.eqb f EmptyString) eqn:E; [|reflexivity].
  apply String.eqb_eq in E. symmetry. exact E.
Qed.

Lemma newHash_not_bare (s : Page.AppState) :
  String.eqb (Page.newHash s) EmptyString || String.eqb (Page.newHash s) "#" = false.
Proof.
  unfold Page.newHash, Page.encodeState, Page.join. cbv zeta.
  cbn [app concat append String.eqb Ascii.eqb orb].
  change (Ascii.eqb "#" "#") with true. cbv iota.
  destruct (Page.module s); reflexivity.
Qed.

(** What [decodeState] reads from the fragment [newHash] wrote, when no
    field holds the separator. *)
Lemma decode_newHash (s : Page.AppState) :
  forallb (fun f => negb (occurs "~" f)) (fields s) = true ->
  Page.decodeState (Page.newHash s) =
  {| Page.module := restored (Page.module s) "weighing";
     Page.temp := restored (Page.temp s) "20";
     Page.weighing_targetMl := restored (Page.weighing_targetMl s) EmptyString;
     Page.weighing_abv := restored (Page.weighing_abv s) "96";
     Page.dilution_sourceMass := restored (Page.dilution_sourceMass s) EmptyString;
     Page.dilution_sourceAbv := restored (Page.dilution_sourceAbv s) "96";
     Page.dilution_targetAbv := restored (Page.dilution_targetAbv s) "60";
     Page.hydrometer_readingAbv := restored (Page.hydrometer_readingAbv s) "80";
     Page.volume_mass := restored (Page.volume_mass s) EmptyString;
     Page.volume_abv := restored (Page.volume_abv s) EmptyString |}.
Proof.
  intros H. unfold Page.decodeState. rewrite newHash_not_bare.
  assert (E : Page.replace_first "#" (Page.newHash s) = Page.encodeState s).
  { unfold Page.newHash. cbn [append Page.replace_first].
    change (Ascii.eqb "#" "#") with true. reflexivity. }
  rewrite E. clear E. unfold Page.encodeState. cbv zeta. cbn [app].
  rewrite split_join; [|discriminate|].
  - cbn [nth_error]. rewrite !get_encoded, !get_raw.
    rewrite or_else_restored by discriminate. reflexivity.
  - unfold fields in H. cbn [forallb] in *.
    repeat (apply andb_true_iff in H as [?H H]).
    repeat (apply andb_true_iff; split); try reflexivity;
      try assumption;
      apply negb_true_iff, or_else_plain; try reflexivity;
      apply negb_true_iff; assumption.
Qed.

(** Reloading the page keeps the state: when no field holds [~], none is the
    one-character string [_], and the six fields whose default is not empty
    (module, temperature, the weighing ABV, the two dilution ABVs and the
    hydrometer reading) are not empty, [decodeState] reads back from the
    fragment exactly the state [encodeState] wrote. *)
Theorem state_survives_reload (s : Page.AppState)
    (Hseparator : forallb (fun f => negb (occurs "~" f)) (fields s) = true)
    (Hplaceholder : forallb (fun f => negb (String.eqb f "_")) (fields s) = true)
    (Hfilled : forallb (fun f => negb (String.eqb f EmptyString)) (defaulted s) = true) :
  Page.decodeState (Page.newHash s) = s.
Proof.
  rewrite (decode_newHash s Hseparator).
  unfold fields, defaulted in *. cbn [forallb] in *.
  repeat (apply andb_true_iff in Hplaceholder as [?P Hplaceholder]).
  repeat (apply andb_true_iff in Hfilled as [?F Hfilled]).
  rewrite (restored_kept (Page.module s)), (restored_kept (Page.temp s)),
    (restored_kept (Page.weighing_abv s)), (restored_kept (Page.dilution_sourceAbv s)),
    (restored_kept (Page.dilution_targetAbv s)),
    (restored_kept (Page.hydrometer_readingAbv s)) by assumption.
  rewrite (restored_empty (Page.weighing_targetMl s)),
    (restored_empty (Page.dilution_sourceMass s)),
    (restored_empty (Page.volume_mass s)), (restored_empty (Page.volume_abv s))
    by assumption.
  destruct s; reflexivity.
Qed.

Lemma state_survives_reload_witness :
  (forallb (fun f => negb (occurs "~" f)) (fields filled_session) = true /\
   forallb (fun f => negb (String.eqb f "_")) (fields filled_session) = true /\
   forallb (fun f => negb (String.eqb f EmptyString)) (defaulted filled_session) = true) /\
  Page.decodeState (Page.newHash filled_session) = filled_session.
Proof.
  assert (H1 : forallb (fun f => negb (occurs "~" f)) (fields filled_session) = true)
    by reflexivity.
  assert (H2 : forallb (fun f => negb (String.eqb f "_")) (fields filled_session) = true)
    by reflexivity.
  assert (H3 : forallb (fun f => negb (String.eqb f EmptyString))
                 (defaulted filled_session) = true) by reflexivity.
  exact (conj (conj H1 (conj H2 H3)) (state_survives_reload filled_session H1 H2 H3)).
Defined.

(** A cleared field does not survive a reload: whatever else the state holds
    (no field holding [~]), a field that is empty or is [_] comes back as its
    default, so that an emptied weighing ABV is 96 again, an emptied
    temperature 20, and an emptied module [weighing]. *)
Theorem cleared_field_gets_default (s : Page.AppState)
    (Hseparator : forallb (fun f => negb (occurs "~" f)) (fields s) = true) :
  let s' := Page.decodeState (Page.newHash s) in
  Page.module s' = restored (Page.module s) "weighing" /\
  Page.temp s' = restored (Page.temp s) "20" /\
  Page.weighing_targetMl s' = restored (Page.weighing_targetMl s) EmptyString /\
  Page.weighing_abv s' = restored (Page.weighing_abv s) "96" /\
  Page.dilution_sourceMass s' = restored (Page.dilution_sourceMass s) EmptyString /\
  Page.dilution_sourceAbv s' = restored (Page.dilution_sourceAbv s) "96" /\
  Page.dilution_targetAbv s' = restored (Page.dilution_targetAbv s) "60" /\
  Page.hydrometer_readingAbv s' = restored (Page.hydrometer_readingAbv s) "80" /\
  Page.volume_mass s' = restored (Page.volume_mass s) EmptyString /\
  Page.volume_abv s' = restored (Page.volume_abv s) EmptyString.
Proof.
  cbv zeta. rewrite (decode_newHash s Hseparator).
  cbn [Page.module Page.temp Page.weighing_targetMl Page.weighing_abv
       Page.dilution_sourceMass Page.dilution_sourceAbv Page.dilution_targetAbv
       Page.hydrometer_readingAbv Page.volume_mass Page.volume_abv].
  repeat split.
Qed.

Lemma cleared_field_gets_default_witness :
  forallb (fun f => negb (occurs "~" f)) (fields cleared_session) = true /\
  let s := cleared_session in
  let s' := Page.decodeState (Page.newHash s) in
  Page.module s' = restored (Page.module s) "weighing" /\
  Page.temp s' = restored (Page.temp s) "20" /\
  Page.weighing_targetMl s' = restored (Page.weighing_targetMl s) EmptyString /\
  Page.weighing_abv s' = restored (Page.weighing_abv s) "96" /\
  Page.dilution_sourceMass s' = restored (Page.dilution_sourceMass s) EmptyString /\
  Page.dilution_sourceAbv s' = restored (Page.dilution_sourceAbv s) "96" /\
  Page.dilution_targetAbv s' = restored (Page.dilution_targetAbv s) "60" /\
  Page.hydrometer_readingAbv s' = restored (Page.hydrometer_readingAbv s) "80" /\
  Page.volume_mass s' = restored (Page.volume_mass s) EmptyString /\
  Page.volume_abv s' = restored (Page.volume_abv s) EmptyString.
Proof.
  assert (H1 : forallb (fun f => negb (occurs "~" f)) (fields cleared_session) = true)
    by reflexivity.
  exact (conj H1 (cleared_field_gets_default cleared_session H1)).
Defined.

Lemma hash_eqb (m : string) :
  String.eqb ("#" ++ m) EmptyString || String.eqb ("#" ++ m) "#"
  = String.eqb m EmptyString.
Proof.
  cbn [append String.eqb orb]. rewrite Ascii.eqb_refl. destruct m; reflexivity.
Qed.

Lemma replace_first_hash (m : string) : Page.replace_first "#" ("#" ++ m) = m.
Proof. cbn [append Page.replace_first]. rewrite Ascii.eqb_refl. reflexivity. Qed.

(** A fragment that names only a module opens that module with every other
    field at its default: for a string with no [~], [decodeState] of [#]
    followed by it is [DEFAULT_STATE] with the module replaced (and
    [DEFAULT_STATE] itself when the string is empty or [_]). *)
Theorem fragment_with_module_only (m : string)
    (Hseparator : occurs "~" m = false) :
  Page.decodeState ("#" ++ m) =
  {| Page.module := restored m "weighing";
     Page.temp := Page.temp Page.DEFAULT_STATE;
     Page.weighing_targetMl := Page.weighing_targetMl Page.DEFAULT_STATE;
     Page.weighing_abv := Page.weighing_abv Page.DEFAULT_STATE;
     Page.dilution_sourceMass := Page.dilution_sourceMass Page.DEFAULT_STATE;
     Page.dilution_sourceAbv := Page.dilution_sourceAbv Page.DEFAULT_STATE;
     Page.dilution_targetAbv := Page.dilution_targetAbv Page.DEFAULT_STATE;
     Page.hydrometer_readingAbv := Page.hydrometer_readingAbv Page.DEFAULT_STATE;
     Page.volume_mass := Page.volume_mass Page.DEFAULT_STATE;
     Page.volume_abv := Page.volume_abv Page.DEFAULT_STATE |}.
Proof.
  unfold Page.decodeState. rewrite hash_eqb, replace_first_hash.
  destruct (String.eqb m EmptyString) eqn:E.
  - apply String.eqb_eq in E. subst m. reflexivity.
  - cbv zeta. rewrite (split_plain "~" m Hseparator). cbn [nth_error].
    rewrite get_raw, or_else_restored by discriminate. reflexivity.
Qed.

Lemma fragment_with_module_only_witness :
  occurs "~" "hydrometer" = false /\
  Page.decodeState ("#" ++ "hydrometer") =
  {| Page.module := restored "hydrometer" "weighing";
     Page.temp := Page.temp Page.DEFAULT_STATE;
     Page.weighing_targetMl := Page.weighing_targetMl Page.DEFAULT_STATE;
     Page.weighing_abv := Page.weighing_abv Page.DEFAULT_STATE;
     Page.dilution_sourceMass := Page.dilution_sourceMass Page.DEFAULT_STATE;
     Page.dilution_sourceAbv := Page.dilution_sourceAbv Page.DEFAULT_STATE;
     Page.dilution_targetAbv := Page.dilution_targetAbv Page.DEFAULT_STATE;
     Page.hydrometer_readingAbv := Page.hydrometer_readingAbv Page.DEFAULT_STATE;
     Page.volume_mass := Page.volume_mass Page.DEFAULT_STATE;
     Page.volume_abv := Page.volume_abv Page.DEFAULT_STATE |}.
Proof.
  assert (H : occurs "~" "hydrometer" = false) by reflexivity.
  exact (conj H (fragment_with_module_only "hydrometer" H)).
Defined.

